(** * dfshm: shared-memory regions and the SPSC queue, embedded in Rocq

    A shallow embedding of the C sources of the DataFabrics shared-memory
    transport: the in-region FIFO queue ([df_shm_queue.h], [df_shm_queue.c]),
    the region manager ([df_shm.c]) and the parts of the mmap and SysV
    backends that build contact descriptors and ftok tokens.

    Conventions.
    - The data model is LP64: [int] and [enum] are 4 bytes, [size_t] and
      pointers are 8 bytes.  The sources print [size_t] with [%lu] and cast
      pointers to [uint64_t].
    - C integers are [Z]; every conversion to an integer type is written out
      ([size_t], [uint32_t], [int]).
    - Bytes are [Z] values; addresses are [Z] values and [NULL] is [0].
    - Where an integer is read from bytes that a [memcpy] has stored (a
      payload that runs over the end of its slot), the byte order is
      little-endian, as on x86-64. *)

From Stdlib Require Import ZArith List Lia Bool.
From stdpp Require Import base option list gmap strings pretty.
Import ListNotations.
Local Open Scope Z_scope.

(** ** Machine integers *)

Definition SIZE_MAX : Z := 2 ^ 64 - 1.
Definition UINT32_MAX : Z := 2 ^ 32 - 1.
Definition INT_MAX : Z := 2 ^ 31 - 1.
Definition NULL : Z := 0.

(** Conversion of a mathematical value to [size_t] and [uint32_t]:
    reduction modulo the width. *)
Definition size_t (x : Z) : Z := x mod 2 ^ 64.
Definition uint32_t (x : Z) : Z := x mod 2 ^ 32.

(** Conversion to [int] (two's complement). *)
Definition int (x : Z) : Z := (x + 2 ^ 31) mod 2 ^ 32 - 2 ^ 31.

Definition CACHE_LINE_SIZE : Z := 64.
Definition PAGE_SIZE : Z := 4096.

(** ** Struct layout

    [sizeof] and [offsetof] as the ABI computes them: every member is placed
    at the next offset that is a multiple of its alignment, and the struct
    is padded at its end to a multiple of its strictest alignment. *)
Module Layout.

Record member := { m_size : Z; m_align : Z }.

Definition align_up (off a : Z) : Z :=
  if off mod a =? 0 then off else off + (a - off mod a).

(** Offset just past the last member, starting from [off]. *)
Fixpoint struct_end (off : Z) (ms : list member) : Z :=
  match ms with
  | [] => off
  | m :: ms' => struct_end (align_up off (m_align m) + m_size m) ms'
  end.

(** Offsets of the members, in declaration order. *)
Fixpoint offsets (off : Z) (ms : list member) : list Z :=
  match ms with
  | [] => []
  | m :: ms' =>
      let o := align_up off (m_align m) in
      o :: offsets (o + m_size m) ms'
  end.

Definition struct_align (ms : list member) : Z :=
  fold_right (fun m a => Z.max (m_align m) a) 1 ms.

Definition sizeof (ms : list member) : Z :=
  align_up (struct_end 0 ms) (struct_align ms).

Definition scalar (sz : Z) : member := {| m_size := sz; m_align := sz |}.
Definition char_array (len : Z) : member := {| m_size := len; m_align := 1 |}.

(** [struct _df_queue_slot { enum SLOT_FLAG status; size_t size; char data[0]; }]
    for a [size_t] of [w] bytes. *)
Definition df_queue_slot_members (w : Z) : list member :=
  [ scalar 4; scalar w; char_array 0 ].

(** [struct _df_queue]: [initialized], [max_num_slots], [max_payload_size],
    [slot_size], [total_size],
    [char padding[CACHE_LINE_SIZE - sizeof(int32_t) - sizeof(uint32_t) - 2*sizeof(size_t)]],
    [char slots[0]]. *)
Definition df_queue_members (w : Z) : list member :=
  [ scalar 4; scalar 4; scalar w; scalar w; scalar w;
    char_array (CACHE_LINE_SIZE - 4 - 4 - 2 * w);
    char_array 0 ].

End Layout.

Definition sizeof_size_t : Z := 8.

Definition sizeof_df_queue_slot : Z :=
  Eval vm_compute in Layout.sizeof (Layout.df_queue_slot_members sizeof_size_t).

Definition sizeof_df_queue : Z :=
  Eval vm_compute in Layout.sizeof (Layout.df_queue_members sizeof_size_t).

(** [offsetof(df_queue, slots)]: where the first slot begins. *)
Definition offsetof_df_queue_slots : Z :=
  Eval vm_compute in
    List.last (Layout.offsets 0 (Layout.df_queue_members sizeof_size_t)) 0.

(** [offsetof(df_queue_slot, data)]. *)
Definition offsetof_df_queue_slot_data : Z :=
  Eval vm_compute in
    List.last (Layout.offsets 0 (Layout.df_queue_slot_members sizeof_size_t)) 0.

(** [sizeof(enum SLOT_FLAG)] and [offsetof(df_queue_slot, size)]: the
    status word takes the first four bytes of a slot, and the ABI leaves
    the bytes up to the aligned [size] unused. *)
Definition sizeof_SLOT_FLAG : Z := 4.

Definition offsetof_df_queue_slot_size : Z :=
  Eval vm_compute in
    List.nth 1 (Layout.offsets 0 (Layout.df_queue_slot_members sizeof_size_t)) 0.


(** What a call can do: return, spin on a status word without changing
    anything, or fault (a failed [assert], or an access that C leaves
    undefined). *)
Inductive outcome (A : Type) : Type :=
| Returns (a : A)
| Spins
| Faults.
Arguments Returns {A} a.
Arguments Spins {A}.
Arguments Faults {A}.

(** The spec's [roundup]: the least multiple of [a] that is at least [x]. *)
Definition roundup (x a : Z) : Z := a * ((x + a - 1) / a).

(** Bytes [mem[base]], ..., [mem[base + len - 1]] of a memory. *)
Definition read_bytes (mem : Z -> Z) (base len : Z) : list Z :=
  map (fun k => mem (base + Z.of_nat k)) (seq 0 (Z.to_nat len)).

(** [d] with the bytes [src] stored from offset [off] on. *)
Definition splice (d : list Z) (off : nat) (src : list Z) : list Z :=
  take off d ++ src ++ drop (off + length src) d.

(** * The queue ([df_shm_queue.h], [df_shm_queue.c]) *)
Module Queue.

(** [enum SLOT_FLAG { SLOT_FULL = 0, SLOT_EMPTY = 1 }]: the enumerators are
    integer constants, and the status word of a slot can hold any value
    that four bytes encode. *)
Definition SLOT_FULL : Z := 0.
Definition SLOT_EMPTY : Z := 1.

(** One slot, [slot_size] bytes of the region.  [status] is the value of
    the status word, [pad] the bytes between the status word and [size],
    which the code never reads, and [data] the slot's data area: the bytes
    from [data[0]] to the end of the slot. *)
Record df_queue_slot := {
  status : Z;
  pad : list Z;
  size : Z;
  data : list Z
}.

(** The queue as laid out in the region: the header fields and the slots
    that follow the header, [slot_size] bytes apart. *)
Record df_queue := {
  initialized : Z;
  max_num_slots : Z;
  max_payload_size : Z;
  slot_size : Z;
  total_size : Z;
  slots : list df_queue_slot
}.

(** Endpoint, in the local memory of one process.  [ep_queue] is the address
    at which this process sees the queue header ([ep->queue]), [ep_slots]
    the cached address of every slot ([ep->slots]). *)
Record df_queue_ep := {
  slot_index : Z;
  ep_queue : Z;
  ep_slots : list Z;
  is_sender : Z
}.

(** [struct iovec] *)
Record iovec := { iov_base : Z; iov_len : Z }.

(** ** Size computation *)

(** [df_calculate_slot_size] *)
Definition df_calculate_slot_size (max_payload_size : Z) : outcome Z :=
  if 0 <? max_payload_size then
    let slot_size := size_t (sizeof_df_queue_slot + max_payload_size) in
    if slot_size mod CACHE_LINE_SIZE =? 0 then Returns slot_size
    else Returns (size_t (slot_size
                          + (CACHE_LINE_SIZE - slot_size mod CACHE_LINE_SIZE)))
  else Faults.

(** [df_calculate_queue_size] *)
Definition df_calculate_queue_size (max_num_slots max_payload_size : Z)
  : outcome Z :=
  if 0 <? max_num_slots then
    match df_calculate_slot_size max_payload_size with
    | Returns per_slot_size =>
        Returns (size_t (sizeof_df_queue + size_t (max_num_slots * per_slot_size)))
    | Spins => Spins
    | Faults => Faults
    end
  else Faults.

(** ** Construction *)

(** Offset, from the queue's address, of slot [i]:
    [queue->slots + i * queue->slot_size]. *)
Definition slot_offset (slot_size : Z) (i : nat) : Z :=
  offsetof_df_queue_slots + size_t (Z.of_nat i * slot_size).

(** Slot [i] as [df_create_queue] leaves it: status and size are stored, the
    padding and the data area keep what the memory held ([raw], indexed by
    the offset from the queue's address). *)
Definition created_slot (raw : Z -> Z) (slot_size : Z) (i : nat)
  : df_queue_slot :=
  {| status := SLOT_EMPTY;
     pad := read_bytes raw (slot_offset slot_size i + sizeof_SLOT_FLAG)
              (offsetof_df_queue_slot_size - sizeof_SLOT_FLAG);
     size := 0;
     data := read_bytes raw
               (slot_offset slot_size i + offsetof_df_queue_slot_data)
               (slot_size - offsetof_df_queue_slot_data) |}.

(** [df_create_queue].  The caller provides, at [addr], the number of bytes
    that [df_calculate_queue_size] reports.  The call faults when an
    [assert] fails, when the [int] loop counter would pass [INT_MAX], and
    when the slots cannot lie one after the other in such a buffer: a slot
    smaller than its own header, or [sizeof(df_queue) + n * slot_size]
    beyond [SIZE_MAX], where the offsets [i * slot_size] of the loop wrap
    around. *)
Definition df_create_queue (raw : Z -> Z) (addr max_num_slots max_payload_size : Z)
  : outcome df_queue :=
  if (0 <? max_num_slots) && (0 <? max_payload_size) && negb (addr =? NULL) then
    match df_calculate_queue_size max_num_slots max_payload_size,
          df_calculate_slot_size max_payload_size with
    | Returns total, Returns ssz =>
        if (max_num_slots <=? INT_MAX)
           && (sizeof_df_queue_slot <=? ssz)
           && (sizeof_df_queue + max_num_slots * ssz <=? SIZE_MAX)
        then
          Returns {| initialized := 1;
                     max_num_slots := max_num_slots;
                     max_payload_size := max_payload_size;
                     slot_size := ssz;
                     total_size := total;
                     slots := map (created_slot raw ssz)
                                  (seq 0 (Z.to_nat max_num_slots)) |}
        else Faults
    | _, _ => Faults
    end
  else Faults.

(** [df_destroy_queue]: the return value and the queue. *)
Definition df_destroy_queue (addr : Z) (q : df_queue) : Z * df_queue :=
  if negb (addr =? NULL) then
    (0, {| initialized := 0;
           max_num_slots := max_num_slots q;
           max_payload_size := max_payload_size q;
           slot_size := slot_size q;
           total_size := total_size q;
           slots := slots q |})
  else (-1, q).

(** [df_internal_get_queue_ep].  [malloc_ep] and [malloc_slots] tell whether
    the two allocations succeed.  The result is the endpoint ([None] for
    [NULL]) and the queue, which the function only reads. *)
Definition df_internal_get_queue_ep (malloc_ep malloc_slots : bool)
    (addr : Z) (q : df_queue) (is_sender : Z)
  : outcome (option df_queue_ep * df_queue) :=
  if addr =? NULL then Faults
  else if initialized q =? 0 then Returns (None, q)
  else if negb malloc_ep then Returns (None, q)
  else if negb malloc_slots then Returns (None, q)
  else if max_num_slots q <=? INT_MAX then
    Returns (Some {| slot_index := 0;
                     ep_queue := addr;
                     ep_slots := map (fun i => addr + slot_offset (slot_size q) i)
                                     (seq 0 (Z.to_nat (max_num_slots q)));
                     is_sender := is_sender |}, q)
  else Faults.

(** [df_get_queue_sender_ep] *)
Definition df_get_queue_sender_ep (malloc_ep malloc_slots : bool)
    (addr : Z) (q : df_queue) : outcome (option df_queue_ep * df_queue) :=
  if addr =? NULL then Faults
  else df_internal_get_queue_ep malloc_ep malloc_slots addr q 1.

(** [df_get_queue_receiver_ep] *)
Definition df_get_queue_receiver_ep (malloc_ep malloc_slots : bool)
    (addr : Z) (q : df_queue) : outcome (option df_queue_ep * df_queue) :=
  if addr =? NULL then Faults
  else df_internal_get_queue_ep malloc_ep malloc_slots addr q 0.

(** ** Slot access through the endpoint's cached addresses *)

(** The slot of the queue that lies at address [a], for a process that sees
    the queue at [addr]: slots start at [addr + offsetof(df_queue, slots)]
    and are [slot_size] bytes apart. *)
Definition slot_at (q : df_queue) (addr a : Z) : option nat :=
  let off := a - (addr + offsetof_df_queue_slots) in
  if (0 <=? off) && (0 <? slot_size q) && (off mod slot_size q =? 0)
  then Some (Z.to_nat (off / slot_size q))
  else None.

(** [ep->slots[ep->slot_index]]: the address, the index of the slot of the
    queue found there, and that slot. *)
Definition current_slot (ep : df_queue_ep) (q : df_queue)
  : option (Z * nat * df_queue_slot) :=
  if slot_index ep <? 0 then None
  else
    a ← ep_slots ep !! Z.to_nat (slot_index ep);
    i ← slot_at q (ep_queue ep) a;
    s ← slots q !! i;
    Some (a, i, s).

(** [(ep->slot_index + 1) % ep->queue->max_num_slots], computed in
    [unsigned int] and stored back into an [int].  Undefined when the [int]
    addition overflows or the divisor is zero. *)
Definition next_slot_index (ep : df_queue_ep) (q : df_queue) : option Z :=
  if (slot_index ep + 1 <=? INT_MAX) && negb (max_num_slots q =? 0)
  then Some (int (uint32_t (slot_index ep + 1) mod max_num_slots q))
  else None.

Definition set_slot_index (ep : df_queue_ep) (i : Z) : df_queue_ep :=
  {| slot_index := i;
     ep_queue := ep_queue ep;
     ep_slots := ep_slots ep;
     is_sender := is_sender ep |}.

Definition set_slots (q : df_queue) (ss : list df_queue_slot) : df_queue :=
  {| initialized := initialized q;
     max_num_slots := max_num_slots q;
     max_payload_size := max_payload_size q;
     slot_size := slot_size q;
     total_size := total_size q;
     slots := ss |}.

(** ** The slots as bytes of the region

    The slots lie one after the other in the buffer that the caller of
    [df_create_queue] has provided, and a [memcpy] stores wherever its
    destination lies in that buffer: a payload longer than the data area of
    its slot runs on into the slot that follows. *)

(** The [n] bytes of an unsigned integer, least significant first, and the
    integer that bytes hold. *)
Fixpoint store_le (n : nat) (x : Z) : list Z :=
  match n with
  | O => []
  | S n' => x mod 256 :: store_le n' (x / 256)
  end.

Fixpoint load_le (bs : list Z) : Z :=
  match bs with
  | [] => 0
  | b :: bs' => b + 256 * load_le bs'
  end.

(** Widths of the status word, of the padding behind it and of [size]. *)
Definition status_width : nat := Eval vm_compute in Z.to_nat sizeof_SLOT_FLAG.
Definition pad_width : nat :=
  Eval vm_compute in Z.to_nat (offsetof_df_queue_slot_size - sizeof_SLOT_FLAG).
Definition size_width : nat := Eval vm_compute in Z.to_nat sizeof_size_t.

(** The bytes of one slot, and the slot that [slot_size] bytes hold. *)
Definition slot_bytes (s : df_queue_slot) : list Z :=
  store_le status_width (status s) ++ pad s
    ++ store_le size_width (size s) ++ data s.

Definition slot_of_bytes (bs : list Z) : df_queue_slot :=
  {| status := load_le (take status_width bs);
     pad := take pad_width (drop status_width bs);
     size := load_le (take size_width (drop (status_width + pad_width) bs));
     data := drop (status_width + pad_width + size_width) bs |}.

(** The bytes from the first slot to the end of the last, and back. *)
Definition slots_bytes (ss : list df_queue_slot) : list Z :=
  concat (map slot_bytes ss).

Fixpoint slots_of_bytes (n ssz : nat) (bs : list Z) : list df_queue_slot :=
  match n with
  | O => []
  | S n' => slot_of_bytes (take ssz bs) :: slots_of_bytes n' ssz (drop ssz bs)
  end.

(** ** Enqueue *)

(** [size += vec[i].iov_len] over the vector, in [size_t]. *)
Definition iov_total (vec : list iovec) : Z :=
  fold_left (fun size v => size_t (size + iov_len v)) vec 0.

(** The copy loop: [memcpy(dest, vec[i].iov_base, vec[i].iov_len)] followed
    by [dest += vec[i].iov_len].  [d] holds the bytes of the slots of the
    queue and [dest] is the offset of the destination from the first slot;
    [None] when a store would fall outside the buffer that holds the
    queue. *)
Fixpoint copy_vector (mem : Z -> Z) (d : list Z) (dest : Z) (vec : list iovec)
  : option (list Z) :=
  match vec with
  | [] => Some d
  | v :: vec' =>
      if (0 <=? iov_len v) && (dest + iov_len v <=? Z.of_nat (length d)) then
        copy_vector mem
          (take (Z.to_nat dest) d
             ++ read_bytes mem (iov_base v) (iov_len v)
             ++ drop (Z.to_nat (dest + iov_len v)) d)
          (dest + iov_len v) vec'
      else None
  end.

(** The part shared by [df_enqueue_vector] and [df_try_enqueue_vector]:
    everything but what happens on a slot that is not empty ([busy]) and on
    a payload that is too large ([too_large]).  [mem] is the caller's
    memory; the list [vec] holds the [veccnt] entries that the loops visit.
    The copy starts at [current_slot->data]; [size] and [status] are then
    stored into the slot under the cursor. *)
Definition enqueue_vector_with
    (busy : outcome (Z * df_queue_ep * df_queue)) (too_large : Z)
    (mem : Z -> Z) (ep : df_queue_ep) (q : df_queue) (vec : list iovec)
  : outcome (Z * df_queue_ep * df_queue) :=
  if (ep_queue ep =? NULL) || (initialized q =? 0) || (is_sender ep =? 0)
  then Faults
  else
    let size := iov_total vec in
    if size <=? max_payload_size q then
      match current_slot ep q with
      | None => Faults
      | Some (a, i, current_slot) =>
          if negb (status current_slot =? SLOT_EMPTY) then busy
          else
            let dest := a + offsetof_df_queue_slot_data
                        - (ep_queue ep + offsetof_df_queue_slots) in
            match copy_vector mem (slots_bytes (slots q)) dest vec,
                  next_slot_index ep q with
            | Some d, Some j =>
                let ss := slots_of_bytes (length (slots q))
                            (Z.to_nat (slot_size q)) d in
                Returns (0, set_slot_index ep j,
                         set_slots q
                           (alter (fun s => {| status := SLOT_FULL;
                                               pad := pad s;
                                               size := size;
                                               data := data s |}) i ss))
            | _, _ => Faults
            end
      end
    else Returns (too_large, ep, q).

(** [df_enqueue_vector]: spins while the slot is not empty; [-1] for a
    payload that is too large. *)
Definition df_enqueue_vector (mem : Z -> Z) (ep : df_queue_ep) (q : df_queue)
    (vec : list iovec) : outcome (Z * df_queue_ep * df_queue) :=
  enqueue_vector_with Spins (-1) mem ep q vec.

(** [df_enqueue] *)
Definition df_enqueue (mem : Z -> Z) (ep : df_queue_ep) (q : df_queue)
    (data length : Z) : outcome (Z * df_queue_ep * df_queue) :=
  df_enqueue_vector mem ep q [ {| iov_base := data; iov_len := length |} ].

(** [df_try_enqueue_vector]: [-1] at once when the slot is not empty; [1]
    for a payload that is too large. *)
Definition df_try_enqueue_vector (mem : Z -> Z) (ep : df_queue_ep) (q : df_queue)
    (vec : list iovec) : outcome (Z * df_queue_ep * df_queue) :=
  enqueue_vector_with (Returns (-1, ep, q)) 1 mem ep q vec.

(** [df_try_enqueue] *)
Definition df_try_enqueue (mem : Z -> Z) (ep : df_queue_ep) (q : df_queue)
    (data length : Z) : outcome (Z * df_queue_ep * df_queue) :=
  df_try_enqueue_vector mem ep q [ {| iov_base := data; iov_len := length |} ].

(** [df_is_enqueue_possible] *)
Definition df_is_enqueue_possible (ep : df_queue_ep) (q : df_queue) : outcome Z :=
  if (ep_queue ep =? NULL) || (initialized q =? 0) then Faults
  else
    match current_slot ep q with
    | None => Faults
    | Some (_, _, s) => Returns (if status s =? SLOT_EMPTY then 1 else 0)
    end.

(** ** Dequeue and release *)

(** The part shared by [df_dequeue] and [df_try_dequeue]; the result is the
    return value with [*data] and [*length] when they are stored. *)
Definition dequeue_with (idle : outcome (Z * option (Z * Z)))
    (ep : df_queue_ep) (q : df_queue) : outcome (Z * option (Z * Z)) :=
  if (ep_queue ep =? NULL) || (initialized q =? 0) || negb (is_sender ep =? 0)
  then Faults
  else
    match current_slot ep q with
    | None => Faults
    | Some (a, _, current_slot) =>
        if negb (status current_slot =? SLOT_FULL) then idle
        else Returns (0, Some (a + offsetof_df_queue_slot_data, size current_slot))
    end.

(** [df_dequeue]: spins while the slot is not full. *)
Definition df_dequeue (ep : df_queue_ep) (q : df_queue)
  : outcome (Z * option (Z * Z)) :=
  dequeue_with Spins ep q.

(** [df_try_dequeue]: [-1] at once when the slot is not full. *)
Definition df_try_dequeue (ep : df_queue_ep) (q : df_queue)
  : outcome (Z * option (Z * Z)) :=
  dequeue_with (Returns (-1, None)) ep q.

(** [df_is_dequeue_possible] *)
Definition df_is_dequeue_possible (ep : df_queue_ep) (q : df_queue) : outcome Z :=
  if (ep_queue ep =? NULL) || (initialized q =? 0) || negb (is_sender ep =? 0)
  then Faults
  else
    match current_slot ep q with
    | None => Faults
    | Some (_, _, s) => Returns (if status s =? SLOT_FULL then 1 else 0)
    end.

(** [df_release] *)
Definition df_release (ep : df_queue_ep) (q : df_queue)
  : outcome (df_queue_ep * df_queue) :=
  if (ep_queue ep =? NULL) || (initialized q =? 0) || negb (is_sender ep =? 0)
  then Faults
  else
    match current_slot ep q, next_slot_index ep q with
    | Some (_, i, current_slot), Some j =>
        Returns (set_slot_index ep j,
                 set_slots q (<[i := {| status := SLOT_EMPTY;
                                        pad := pad current_slot;
                                        size := 0;
                                        data := data current_slot |}]> (slots q)))
    | _, _ => Faults
    end.

(** The [len] bytes that a process seeing the queue at [addr] finds behind
    the pointer [p] that a dequeue handed out; [None] when they do not lie
    within the slots of the queue. *)
Definition payload_at (q : df_queue) (addr p len : Z) : option (list Z) :=
  let off := p - (addr + offsetof_df_queue_slots) in
  let d := slots_bytes (slots q) in
  if (0 <=? off) && (0 <=? len) && (off + len <=? Z.of_nat (length d))
  then Some (take (Z.to_nat len) (drop (Z.to_nat off) d))
  else None.

(** ** Producer and consumer on one queue *)

(** The queue and the two endpoints.  The endpoints may belong to different
    processes: each carries the address at which its process maps the
    queue. *)
Record system := {
  queue : df_queue;
  sender : df_queue_ep;
  receiver : df_queue_ep
}.

(** A completed call of the producer or of the consumer.  [Enqueue mem vec]
    is [df_enqueue_vector] on the vector [vec] over the producer's memory
    [mem]. *)
Inductive op :=
| Enqueue (mem : Z -> Z) (vec : list iovec)
| Dequeue
| Release.

(** The payload that an [Enqueue] hands over: the bytes of the vector's
    buffers, in order. *)
Definition gather (mem : Z -> Z) (vec : list iovec) : list Z :=
  flat_map (fun v => read_bytes mem (iov_base v) (iov_len v)) vec.

(** Payloads handed over by the enqueues of a schedule, in order. *)
Fixpoint enqueued (ops : list op) : list (list Z) :=
  match ops with
  | [] => []
  | Enqueue mem vec :: ops' => gather mem vec :: enqueued ops'
  | _ :: ops' => enqueued ops'
  end.

Fixpoint dequeues (ops : list op) : nat :=
  match ops with
  | [] => O
  | Dequeue :: ops' => S (dequeues ops')
  | _ :: ops' => dequeues ops'
  end.

(** Runs a schedule of calls, each to completion, in the given order.  The
    result is the final state and, for every [Dequeue], the bytes behind the
    pointer and length it returned, read when it returned.  [None] when a
    call does not return [0]: it spins, faults or reports an error. *)
Fixpoint run (s : system) (ops : list op) : option (system * list (list Z)) :=
  match ops with
  | [] => Some (s, [])
  | Enqueue mem vec :: ops' =>
      match df_enqueue_vector mem (sender s) (queue s) vec with
      | Returns (rc, ep, q) =>
          if rc =? 0
          then run {| queue := q; sender := ep; receiver := receiver s |} ops'
          else None
      | _ => None
      end
  | Dequeue :: ops' =>
      match df_dequeue (receiver s) (queue s) with
      | Returns (rc, Some (p, len)) =>
          if rc =? 0 then
            match payload_at (queue s) (ep_queue (receiver s)) p len,
                  run s ops' with
            | Some bytes, Some (s', outs) => Some (s', bytes :: outs)
            | _, _ => None
            end
          else None
      | _ => None
      end
  | Release :: ops' =>
      match df_release (receiver s) (queue s) with
      | Returns (ep, q) =>
          run {| queue := q; sender := sender s; receiver := ep |} ops'
      | _ => None
      end
  end.

(** Total length of a vector, as a mathematical integer. *)
Definition vec_length (vec : list iovec) : Z :=
  fold_right (fun v n => iov_len v + n) 0 vec.

(** Every length of the vector is a [size_t] value. *)
Definition vec_wf (vec : list iovec) : Prop :=
  Forall (fun v => 0 <= iov_len v <= SIZE_MAX) vec.

(** Schedules in which every dequeue comes after the matching enqueue, the
    consumer alternates dequeue and release, and no enqueue completes while
    [n] payloads are still unreleased.  [pending] counts the payloads
    enqueued and not yet released, [holding] tells whether the consumer has
    dequeued the oldest of them. *)
Fixpoint schedule_ok (n pending : nat) (holding : bool) (ops : list op) : bool :=
  match ops with
  | [] => true
  | Enqueue _ _ :: ops' =>
      (pending <? n)%nat && schedule_ok n (S pending) holding ops'
  | Dequeue :: ops' =>
      negb holding && (0 <? pending)%nat && schedule_ok n pending true ops'
  | Release :: ops' =>
      holding && (0 <? pending)%nat && schedule_ok n (pred pending) false ops'
  end.

(** Schedules in which the consumer alternates dequeue and release. *)
Fixpoint pairs_ok (holding : bool) (ops : list op) : bool :=
  match ops with
  | [] => true
  | Enqueue _ _ :: ops' => pairs_ok holding ops'
  | Dequeue :: ops' => negb holding && pairs_ok true ops'
  | Release :: ops' => holding && pairs_ok false ops'
  end.

(** Every enqueue of the schedule carries at most [p] bytes. *)
Definition payloads_fit (p : Z) (ops : list op) : Prop :=
  forall mem vec, In (Enqueue mem vec) ops -> vec_wf vec /\ vec_length vec <= p.

(** ** Well-formed queues and endpoints *)

(** Size of a slot's data area. *)
Definition data_capacity (q : df_queue) : Z :=
  slot_size q - offsetof_df_queue_slot_data.

(** The status word holds one of the two enumerators, the padding has its
    width and [size] is a [size_t] value. *)
Definition slot_header_wf (s : df_queue_slot) : Prop :=
  (status s = SLOT_FULL \/ status s = SLOT_EMPTY)
  /\ length (pad s) = pad_width
  /\ 0 <= size s <= SIZE_MAX.

(** A queue as [df_create_queue] builds it and as the operations keep it
    while every payload ends within the data area of its slot: the header
    describes the slots that are there. *)
Definition queue_wf (q : df_queue) : Prop :=
  initialized q <> 0
  /\ 0 < max_num_slots q <= INT_MAX
  /\ length (slots q) = Z.to_nat (max_num_slots q)
  /\ sizeof_df_queue + max_num_slots q * slot_size q <= SIZE_MAX
  /\ (0 <= data_capacity q /\ 0 <= max_payload_size q <= SIZE_MAX)
  /\ Forall (fun s => Z.of_nat (length (data s)) = data_capacity q) (slots q)
  /\ Forall slot_header_wf (slots q).

(** The data area of a slot holds a payload of [max_payload_size] bytes.
    This fails only for a [max_payload_size] so close to [SIZE_MAX] that
    adding the slot overhead and rounding up wraps around. *)
Definition slots_hold_max_payload (q : df_queue) : Prop :=
  max_payload_size q <= data_capacity q.

(** An endpoint as [df_internal_get_queue_ep] builds it and as the
    operations keep it. *)
Definition ep_wf (q : df_queue) (ep : df_queue_ep) : Prop :=
  ep_queue ep <> NULL
  /\ ep_slots ep = map (fun i => ep_queue ep + slot_offset (slot_size q) i)
                       (seq 0 (Z.to_nat (max_num_slots q)))
  /\ 0 <= slot_index ep < max_num_slots q.

(** The claim that [df_try_enqueue] returns [-1] exactly when the slot under
    the producer's cursor is full. *)
Definition try_enqueue_minus_one_iff_full : Prop :=
  forall mem ep q data length a i s rc ep' q',
    queue_wf q -> slots_hold_max_payload q -> ep_wf q ep -> is_sender ep <> 0 ->
    0 <= length <= SIZE_MAX ->
    current_slot ep q = Some (a, i, s) ->
    df_try_enqueue mem ep q data length = Returns (rc, ep', q') ->
    (rc = -1 <-> status s = SLOT_FULL).

(** ** The invariant behind FIFO delivery *)

(** The slot is full and carries the payload [x]. *)
Definition slot_holds (s : df_queue_slot) (x : list Z) : Prop :=
  status s = SLOT_FULL
  /\ size s = Z.of_nat (length x)
  /\ take (length x) (data s) = x.

(** State of producer and consumer on a queue of [n] slots with payload
    limit [p] and data areas of [cap] bytes, after [E] enqueues and [D]
    releases, [X] being the payloads enqueued so far, oldest first.  The
    cursors are [E mod n] and [D mod n].  The slots [D mod n], ...,
    [(E-1) mod n] are full and hold the payloads [X !! D], ...,
    [X !! (E-1)]; the other slots are empty. *)
Definition fifo_inv (n : nat) (p cap : Z) (sys : system) (E D : nat)
    (X : list (list Z)) : Prop :=
  queue_wf (queue sys)
  /\ (max_num_slots (queue sys) = Z.of_nat n
      /\ max_payload_size (queue sys) = p
      /\ data_capacity (queue sys) = cap)
  /\ (ep_wf (queue sys) (sender sys)
      /\ is_sender (sender sys) <> 0
      /\ slot_index (sender sys) = Z.of_nat (E mod n))
  /\ (ep_wf (queue sys) (receiver sys)
      /\ is_sender (receiver sys) = 0
      /\ slot_index (receiver sys) = Z.of_nat (D mod n))
  /\ (D <= E <= D + n)%nat
  /\ length X = E
  /\ forall k, (D <= k < D + n)%nat ->
       exists s, slots (queue sys) !! (k mod n)%nat = Some s
                 /\ if (k <? E)%nat
                    then exists x, X !! k = Some x /\ slot_holds s x
                    else status s = SLOT_EMPTY.

(** A queue and a sender endpoint for examples: one slot, payloads of up to
    16 bytes, over memory that holds zeros, mapped at address 4096. *)
Definition zero_memory : Z -> Z := fun _ => 0.

Definition tiny_queue : df_queue :=
  Eval vm_compute in
    match df_create_queue zero_memory 4096 1 16 with
    | Returns q => q
    | _ => {| initialized := 0; max_num_slots := 0; max_payload_size := 0;
              slot_size := 0; total_size := 0; slots := [] |}
    end.

Definition tiny_sender : df_queue_ep :=
  Eval vm_compute in
    match df_get_queue_sender_ep true true 4096 tiny_queue with
    | Returns (Some ep, _) => ep
    | _ => {| slot_index := 0; ep_queue := 0; ep_slots := []; is_sender := 0 |}
    end.

Definition tiny_receiver : df_queue_ep :=
  Eval vm_compute in
    match df_get_queue_receiver_ep true true 8192 tiny_queue with
    | Returns (Some ep, _) => ep
    | _ => {| slot_index := 0; ep_queue := 0; ep_slots := []; is_sender := 0 |}
    end.

(** The tiny queue after its sender has enqueued the 16 zero bytes at
    address 0: its only slot is full. *)
Definition tiny_queue_full : df_queue :=
  Eval vm_compute in
    match df_enqueue zero_memory tiny_sender tiny_queue 0 16 with
    | Returns (_, _, q) => q
    | _ => tiny_queue
    end.

(** A two-slot queue with payloads of up to 16 bytes, its sender mapping it
    at 4096 and its receiver at 8192, and a schedule of three enqueues over
    a memory whose byte at address [a] is [a mod 256]. *)
Definition ramp_memory : Z -> Z := fun a => a mod 256.

Definition pair_queue : df_queue :=
  Eval vm_compute in
    match df_create_queue zero_memory 4096 2 16 with
    | Returns q => q
    | _ => tiny_queue
    end.

Definition pair_sender : df_queue_ep :=
  Eval vm_compute in
    match df_get_queue_sender_ep true true 4096 pair_queue with
    | Returns (Some ep, _) => ep
    | _ => tiny_sender
    end.

Definition pair_receiver : df_queue_ep :=
  Eval vm_compute in
    match df_get_queue_receiver_ep true true 8192 pair_queue with
    | Returns (Some ep, _) => ep
    | _ => tiny_receiver
    end.

Definition pair_schedule : list op :=
  [ Enqueue ramp_memory [ {| iov_base := 1; iov_len := 3 |} ];
    Enqueue ramp_memory [ {| iov_base := 10; iov_len := 2 |};
                          {| iov_base := 20; iov_len := 2 |} ];
    Dequeue; Release;
    Enqueue ramp_memory [ {| iov_base := 100; iov_len := 0 |} ];
    Dequeue; Release;
    Dequeue; Release ].

(** ** Counting the calls of a schedule *)

Fixpoint enqueues (ops : list op) : nat :=
  match ops with
  | [] => O
  | Enqueue _ _ :: ops' => S (enqueues ops')
  | _ :: ops' => enqueues ops'
  end.

Fixpoint releases (ops : list op) : nat :=
  match ops with
  | [] => O
  | Release :: ops' => S (releases ops')
  | _ :: ops' => releases ops'
  end.

(** A queue and the header fields that [df_create_queue] has stored in it
    stay the same. *)
Definition same_header (q q' : df_queue) : Prop :=
  initialized q' = initialized q
  /\ max_num_slots q' = max_num_slots q
  /\ max_payload_size q' = max_payload_size q
  /\ slot_size q' = slot_size q
  /\ total_size q' = total_size q.

(** Two enqueues, which fill the two-slot queue of the examples. *)
Definition filling_schedule : list op :=
  [ Enqueue ramp_memory [ {| iov_base := 1; iov_len := 3 |} ];
    Enqueue ramp_memory [ {| iov_base := 10; iov_len := 2 |};
                          {| iov_base := 20; iov_len := 2 |} ] ].

(** Two enqueues, each followed by its dequeue and release, which leave the
    two-slot queue empty. *)
Definition draining_schedule : list op :=
  [ Enqueue ramp_memory [ {| iov_base := 1; iov_len := 3 |} ];
    Dequeue; Release;
    Enqueue ramp_memory [ {| iov_base := 10; iov_len := 2 |};
                          {| iov_base := 20; iov_len := 2 |} ];
    Dequeue; Release ].


(** ** A queue whose slot size has wrapped around

    With [max_payload_size = SIZE_MAX], the sum of the slot overhead and the
    payload limit wraps around to 15 and is rounded up to 64: the data area
    of a slot has 48 bytes, and the payload limit admits more. *)
Definition wrapped_queue : df_queue :=
  Eval vm_compute in
    match df_create_queue zero_memory 4096 2 SIZE_MAX with
    | Returns q => q
    | _ => tiny_queue
    end.

Definition wrapped_sender : df_queue_ep :=
  Eval vm_compute in
    match df_get_queue_sender_ep true true 4096 wrapped_queue with
    | Returns (Some ep, _) => ep
    | _ => tiny_sender
    end.

Definition wrapped_receiver : df_queue_ep :=
  Eval vm_compute in
    match df_get_queue_receiver_ep true true 8192 wrapped_queue with
    | Returns (Some ep, _) => ep
    | _ => tiny_receiver
    end.

(** A memory that holds zeros but for a one at address 48, and a schedule
    over it: a payload of 52 bytes, which are the bytes at 0 to 51, a
    payload of one byte, and the dequeue of the first payload. *)
Definition spill_memory : Z -> Z := fun a => if a =? 48 then 1 else 0.

Definition spill_schedule : list op :=
  [ Enqueue spill_memory [ {| iov_base := 0; iov_len := 52 |} ];
    Enqueue spill_memory [ {| iov_base := 100; iov_len := 1 |} ];
    Dequeue ].

(** The claim that, on a queue created with any payload limit, the dequeues
    of a schedule in which every dequeue follows its enqueue see the
    enqueued payloads, in order. *)
Definition fifo_delivery_for_every_limit : Prop :=
  forall raw addr n p q m1 m2 m3 m4 addr_s addr_r eps epr ops sys' outs,
    df_create_queue raw addr n p = Returns q ->
    p <= SIZE_MAX ->
    df_get_queue_sender_ep m1 m2 addr_s q = Returns (Some eps, q) ->
    df_get_queue_receiver_ep m3 m4 addr_r q = Returns (Some epr, q) ->
    payloads_fit p ops ->
    schedule_ok (Z.to_nat n) 0 false ops = true ->
    run {| queue := q; sender := eps; receiver := epr |} ops = Some (sys', outs) ->
    outs = take (dequeues ops) (enqueued ops).

(** ** A vector whose lengths add up to [2^64]

    Two buffers of [2^63] bytes each: the [size_t] sum of the lengths
    is 0. *)
Definition wrapping_vector : list iovec :=
  [ {| iov_base := 0; iov_len := 2 ^ 63 |};
    {| iov_base := 0; iov_len := 2 ^ 63 |} ].

(** The claim that a vector whose lengths add up to more than
    [max_payload_size] is rejected by both enqueue calls, endpoint and queue
    staying as they were. *)
Definition oversized_vector_is_rejected : Prop :=
  forall mem ep q vec,
    ep_queue ep <> NULL -> initialized q <> 0 -> is_sender ep <> 0 ->
    vec_wf vec -> max_payload_size q < vec_length vec ->
    df_enqueue_vector mem ep q vec = Returns (-1, ep, q)
    /\ df_try_enqueue_vector mem ep q vec = Returns (1, ep, q).
End Queue.

(** * The region manager ([df_shm.h], [df_shm.c]) *)
Module Shm.

Definition DF_SHM_UNKNOWN_PID : Z := -1.

(** [struct _df_shm_region], without the back pointer [shm_method]: the
    model has one method handle, and every region handle belongs to it. *)
Record df_shm_region := {
  size : Z;
  starting_addr : Z;
  creator_id : Z;
  method_data : Z;
  next : Z
}.

(** The function pointers of [struct _df_shm_method]; [None] is a pointer
    that is [NULL].  A callback is given by what it answers: the return
    code and, for create and attach, the values stored through
    [return_data] and [attach_addr].  [destroy_region_func] and
    [detach_region_func] take the region handle.  Where a create or attach
    callback is not registered, the two fields that it would have stored
    keep what [malloc] left there; the model reads them as [0]. *)
Record callbacks := {
  create_region_func : option (Z -> Z -> Z * Z * Z);
  create_named_region_func : option (Z -> Z -> Z -> Z -> Z * Z * Z);
  attach_region_func : option (Z -> Z -> Z -> Z * Z * Z);
  destroy_region_func : option (Z -> Z);
  detach_region_func : option (Z -> Z);
  finalize_func : option Z
}.

(** [struct _df_shm_method]: the two list heads, the two counters and the
    callbacks. *)
Record df_shm_method := {
  initialized : Z;
  created_regions : Z;
  num_created_regions : Z;
  foreign_regions : Z;
  num_foreign_regions : Z;
  hooks : callbacks
}.

(** The heap of one process: the region handles that are allocated, by
    address, and the method handle ([None] once it has been freed). *)
Record state := {
  regions : gmap Z df_shm_region;
  method : option df_shm_method
}.

Definition set_next (r : df_shm_region) (p : Z) : df_shm_region :=
  {| size := size r; starting_addr := starting_addr r;
     creator_id := creator_id r; method_data := method_data r; next := p |}.

Definition set_created (m : df_shm_method) (head count : Z) : df_shm_method :=
  {| initialized := initialized m;
     created_regions := head; num_created_regions := count;
     foreign_regions := foreign_regions m;
     num_foreign_regions := num_foreign_regions m;
     hooks := hooks m |}.

Definition set_foreign (m : df_shm_method) (head count : Z) : df_shm_method :=
  {| initialized := initialized m;
     created_regions := created_regions m;
     num_created_regions := num_created_regions m;
     foreign_regions := head; num_foreign_regions := count;
     hooks := hooks m |}.

(** [df_shm_init], after [load_method_callbacks] has chosen [hk].
    [malloc_ok] tells whether the handle can be allocated, [method_ok]
    whether the method number is in range, [init_rc] is what the method's
    [init_func] returns.  [None] is the [NULL] result. *)
Definition df_shm_init (hk : callbacks) (malloc_ok method_ok : bool) (init_rc : Z)
  : option state :=
  if negb malloc_ok then None
  else if negb method_ok then None
  else if negb (init_rc =? 0) then None
  else Some {| regions := ∅;
               method := Some {| initialized := 1;
                                 created_regions := NULL;
                                 num_created_regions := 0;
                                 foreign_regions := NULL;
                                 num_foreign_regions := 0;
                                 hooks := hk |} |}.

(** ** The two lists

    In the functions below, the result [None] stands for undefined
    behaviour: a failed [assert], a read or write through a handle that is
    not allocated, a call through a [NULL] function pointer; or for a loop
    that did not finish within [fuel] iterations. *)

(** [add_region_to_list]: [r->next = *list; *list = r].  The result is the
    heap and the new list head. *)
Definition add_region_to_list (h : gmap Z df_shm_region) (head r : Z)
  : option (gmap Z df_shm_region * Z) :=
  match h !! r with
  | Some reg => Some (<[r := set_next reg head]> h, r)
  | None => None
  end.

(** The loop of [remove_region_from_list], at [temp] with predecessor
    [last]. *)
Fixpoint remove_loop (fuel : nat) (h : gmap Z df_shm_region)
    (head temp last r : Z) : option (Z * gmap Z df_shm_region * Z) :=
  match fuel with
  | O => None
  | S fuel' =>
      if temp =? NULL then Some (1, h, head)
      else
        match h !! temp with
        | None => None
        | Some treg =>
            if temp =? r then
              if last =? NULL then Some (0, h, next treg)
              else
                match h !! last with
                | None => None
                | Some lreg => Some (0, <[last := set_next lreg (next treg)]> h, head)
                end
            else remove_loop fuel' h head (next treg) temp r
        end
  end.

(** [remove_region_from_list]: the return code, the heap and the list
    head. *)
Definition remove_region_from_list (fuel : nat) (h : gmap Z df_shm_region)
    (head r : Z) : option (Z * gmap Z df_shm_region * Z) :=
  if head =? NULL then Some (-1, h, head)
  else remove_loop fuel h head head NULL r.

(** The handles met when walking a list from [p]: the walk stops at [NULL]
    and cannot go beyond a handle that is not allocated. *)
Fixpoint walk (fuel : nat) (h : gmap Z df_shm_region) (p : Z) : list Z :=
  match fuel with
  | O => []
  | S fuel' =>
      if p =? NULL then []
      else p :: match h !! p with
                | Some reg => walk fuel' h (next reg)
                | None => []
                end
  end.

Section Manager.

(** What [getpid()] returns in this process. *)
Variable pid : Z.

(** Storing the fields of a new region and linking it, as the four create
    and attach functions do after the callback. *)
Definition new_region (sz addr creator data : Z) : df_shm_region :=
  {| size := sz; starting_addr := addr; creator_id := creator;
     method_data := data; next := NULL |}.

(** [df_create_shm_region].  [region] is what [malloc] returns: [NULL] or
    the address of a block that is not allocated.  The result is the
    handle returned and the state. *)
Definition df_create_shm_region (st : state) (region : Z) (sz hint : Z)
  : option (Z * state) :=
  m ← method st;
  if negb (initialized m =? 1) || negb (0 <? sz) then None
  else if region =? NULL then Some (NULL, st)
  else
    match regions st !! region with
    | Some _ => None
    | None =>
        let '(rc, data, addr) :=
          match create_region_func (hooks m) with
          | Some f => f sz hint
          | None => (0, 0, 0)
          end in
        if negb (rc =? 0) then Some (NULL, st)
        else
          '(h, head) ← add_region_to_list
                         (<[region := new_region sz addr pid data]> (regions st))
                         (created_regions m) region;
          Some (region,
                {| regions := h;
                   method := Some (set_created m head (num_created_regions m + 1)) |})
    end.

(** [df_create_named_shm_region]: tests [create_region_func] and calls
    [create_named_region_func]. *)
Definition df_create_named_shm_region (st : state) (region : Z)
    (name name_size sz hint : Z) : option (Z * state) :=
  m ← method st;
  if negb (initialized m =? 1) || negb (0 <? sz) then None
  else if region =? NULL then Some (NULL, st)
  else
    match regions st !! region with
    | Some _ => None
    | None =>
        answer ←
          match create_region_func (hooks m) with
          | Some _ =>
              match create_named_region_func (hooks m) with
              | Some f => Some (f name name_size sz hint)
              | None => None
              end
          | None => Some (0, 0, 0)
          end;
        let '(rc, data, addr) := answer in
        if negb (rc =? 0) then Some (NULL, st)
        else
          '(h, head) ← add_region_to_list
                         (<[region := new_region sz addr pid data]> (regions st))
                         (created_regions m) region;
          Some (region,
                {| regions := h;
                   method := Some (set_created m head (num_created_regions m + 1)) |})
    end.

(** The body shared by [df_attach_shm_region] and
    [df_attach_named_shm_region]: [what] is the contact information or the
    name, [creator] the creator recorded in the handle. *)
Definition attach_with (creator : Z) (st : state) (region : Z)
    (what sz hint : Z) : option (Z * state) :=
  m ← method st;
  if negb (initialized m =? 1) || (what =? NULL) then None
  else if region =? NULL then Some (NULL, st)
  else
    match regions st !! region with
    | Some _ => None
    | None =>
        let '(rc, data, addr) :=
          match attach_region_func (hooks m) with
          | Some f => f what sz hint
          | None => (0, 0, 0)
          end in
        if negb (rc =? 0) then Some (NULL, st)
        else
          '(h, head) ← add_region_to_list
                         (<[region := new_region sz addr creator data]> (regions st))
                         (foreign_regions m) region;
          Some (region,
                {| regions := h;
                   method := Some (set_foreign m head (num_foreign_regions m + 1)) |})
    end.

(** [df_attach_shm_region] *)
Definition df_attach_shm_region (st : state) (region : Z)
    (creator_id contact_info sz hint : Z) : option (Z * state) :=
  attach_with creator_id st region contact_info sz hint.

(** [df_attach_named_shm_region] *)
Definition df_attach_named_shm_region (st : state) (region : Z)
    (name name_size sz hint : Z) : option (Z * state) :=
  attach_with DF_SHM_UNKNOWN_PID st region name sz hint.

(** [df_detach_shm_region]: the return value and the state. *)
Definition df_detach_shm_region (fuel : nat) (st : state) (region : Z)
  : option (Z * state) :=
  if region =? NULL then None
  else
    _ ← regions st !! region;
    m ← method st;
    if negb (initialized m =? 1) then None
    else
      let rc := match detach_region_func (hooks m) with
                | Some f => f region
                | None => 0
                end in
      if negb (rc =? 0) then
        Some (-1, {| regions := delete region (regions st); method := Some m |})
      else
        '(_, h, head) ← remove_region_from_list fuel (regions st)
                          (foreign_regions m) region;
        Some (0, {| regions := delete region h;
                    method := Some (set_foreign m head (num_foreign_regions m - 1)) |}).

(** [df_destroy_shm_region]: the return value and the state. *)
Definition df_destroy_shm_region (fuel : nat) (st : state) (region : Z)
  : option (Z * state) :=
  if region =? NULL then None
  else
    reg ← regions st !! region;
    m ← method st;
    if negb (initialized m =? 1) then None
    else if creator_id reg =? pid then
      let rc := match destroy_region_func (hooks m) with
                | Some f => f region
                | None => 0
                end in
      if negb (rc =? 0) then
        Some (-1, {| regions := delete region (regions st); method := Some m |})
      else
        '(_, h, head) ← remove_region_from_list fuel (regions st)
                          (created_regions m) region;
        Some (0, {| regions := delete region h;
                    method := Some (set_created m head (num_created_regions m)) |})
    else df_detach_shm_region fuel st region.

(** What [df_shm_finalize] does, in order: the calls of
    [df_destroy_shm_region] and [df_detach_shm_region] with their return
    values, the call of the method's [finalize_func] with its return value,
    and the [free] of the method handle. *)
Inductive cleanup :=
| Destroyed (r rc : Z)
| Detached (r rc : Z)
| BackendFinalized (rc : Z)
| MethodFreed.

(** The two loops of [df_shm_finalize]:
    [while(r) { next = r->next; release(r); r = next; }]. *)
Fixpoint cleanup_loop (release : state -> Z -> option (Z * state))
    (record : Z -> Z -> cleanup) (fuel : nat) (st : state) (r : Z)
  : option (state * list cleanup) :=
  match fuel with
  | O => None
  | S fuel' =>
      if r =? NULL then Some (st, [])
      else
        reg ← regions st !! r;
        '(rc, st1) ← release st r;
        '(st2, log) ← cleanup_loop release record fuel' st1 (next reg);
        Some (st2, record r rc :: log)
  end.

(** [df_shm_finalize]: the return value, the state and what was done. *)
Definition df_shm_finalize (fuel : nat) (st : state)
  : option (Z * state * list cleanup) :=
  m ← method st;
  if negb (initialized m =? 1) then None
  else
    '(st1, log1) ← cleanup_loop (df_destroy_shm_region fuel) Destroyed fuel
                     st (created_regions m);
    m1 ← method st1;
    '(st2, log2) ← cleanup_loop (df_detach_shm_region fuel) Detached fuel
                     st1 (foreign_regions m1);
    m2 ← method st2;
    match finalize_func (hooks m2) with
    | Some rc =>
        if negb (rc =? 0) then
          Some (-1, st2, log1 ++ log2 ++ [BackendFinalized rc])
        else
          Some (0, {| regions := regions st2; method := None |},
                log1 ++ log2 ++ [BackendFinalized rc; MethodFreed])
    | None => Some (0, st2, log1 ++ log2)
    end.

(** ** Sequences of calls on a method handle *)

Inductive call :=
| CreateRegion (malloc sz hint : Z)
| CreateNamedRegion (malloc name name_size sz hint : Z)
| AttachRegion (malloc creator contact_info sz hint : Z)
| AttachNamedRegion (malloc name name_size sz hint : Z)
| DetachRegion (region : Z)
| DestroyRegion (region : Z).

Definition do_call (fuel : nat) (st : state) (c : call) : option state :=
  snd <$>
    match c with
    | CreateRegion r sz hint => df_create_shm_region st r sz hint
    | CreateNamedRegion r name name_size sz hint =>
        df_create_named_shm_region st r name name_size sz hint
    | AttachRegion r creator contact sz hint =>
        df_attach_shm_region st r creator contact sz hint
    | AttachNamedRegion r name name_size sz hint =>
        df_attach_named_shm_region st r name name_size sz hint
    | DetachRegion r => df_detach_shm_region fuel st r
    | DestroyRegion r => df_destroy_shm_region fuel st r
    end.

Fixpoint do_calls (fuel : nat) (st : state) (cs : list call) : option state :=
  match cs with
  | [] => Some st
  | c :: cs' => st' ← do_call fuel st c; do_calls fuel st' cs'
  end.

End Manager.

(** ** Reachability through the lists *)

(** The handles reachable through the created list and through the foreign
    list. *)
Definition created_list (st : state) : list Z :=
  match method st with
  | Some m => walk (S (base.size (regions st))) (regions st) (created_regions m)
  | None => []
  end.

Definition foreign_list (st : state) : list Z :=
  match method st with
  | Some m => walk (S (base.size (regions st))) (regions st) (foreign_regions m)
  | None => []
  end.

(** R1: every allocated region handle is reachable through exactly one of
    the two lists. *)
Definition on_exactly_one_list (st : state) : Prop :=
  forall r, is_Some (regions st !! r) ->
            ((r ∈ created_list st) /\ (r ∉ foreign_list st))
            \/ ((r ∉ created_list st) /\ (r ∈ foreign_list st)).

(** The claim that R1 holds after any sequence of calls on a method
    handle. *)
Definition region_lists_partition_handles : Prop :=
  forall pid hk fuel st0 cs st,
    df_shm_init hk true true 0 = Some st0 ->
    do_calls pid fuel st0 cs = Some st ->
    on_exactly_one_list st.

(** ** Well-formed lists *)

(** [head] starts a list that consists of the allocated handles [l]. *)
Fixpoint is_list (h : gmap Z df_shm_region) (head : Z) (l : list Z) : Prop :=
  match l with
  | [] => head = NULL
  | a :: l' =>
      head = a /\ a <> NULL
      /\ exists reg, h !! a = Some reg /\ is_list h (next reg) l'
  end.

(** The return code of a callback on a region; a callback that is not
    registered counts as success. *)
Definition answer (f : option (Z -> Z)) (r : Z) : Z :=
  match f with Some g => g r | None => 0 end.

(** The first failure code among return values, [0] when there is none. *)
Fixpoint first_failure (rcs : list Z) : Z :=
  match rcs with
  | [] => 0
  | rc :: rcs' => if rc =? 0 then first_failure rcs' else rc
  end.

Definition return_code (c : cleanup) : list Z :=
  match c with
  | Destroyed _ rc => [rc]
  | Detached _ rc => [rc]
  | BackendFinalized rc => [rc]
  | MethodFreed => []
  end.

(** The claim that [df_shm_finalize] returns the first failure code that it
    met. *)
Definition finalize_returns_first_failure : Prop :=
  forall pid fuel st rc st' log,
    df_shm_finalize pid fuel st = Some (rc, st', log) ->
    rc = first_failure (flat_map return_code log).

(** ** Vocabulary for [df_shm_finalize] *)

(** The state with heap [h] and method handle [m]. *)
Definition st_of (h : gmap Z df_shm_region) (m : df_shm_method) : state :=
  {| regions := h; method := Some m |}.

(** The backend's destroy, resp. detach, callback succeeds on the region
    handle [a]. *)
Definition destroy_ok (m : df_shm_method) (a : Z) : Prop :=
  answer (destroy_region_func (hooks m)) a = 0.

Definition detach_ok (m : df_shm_method) (a : Z) : Prop :=
  answer (detach_region_func (hooks m)) a = 0.

(** The handle [a] is allocated and records the process [pid] as its
    creator. *)
Definition own_region (pid : Z) (h : gmap Z df_shm_region) (a : Z) : Prop :=
  exists reg, h !! a = Some reg /\ creator_id reg = pid.

(** What a cleanup loop leaves of the method handle. *)
Definition keeps_foreign (m m' : df_shm_method) : Prop :=
  hooks m' = hooks m /\ foreign_regions m' = foreign_regions m.

Definition keeps_hooks (m m' : df_shm_method) : Prop :=
  hooks m' = hooks m.

(** The return value that [df_shm_finalize] computes: it depends on the
    method's finalize callback only. *)
Definition finalize_code (m : df_shm_method) : Z :=
  match finalize_func (hooks m) with
  | Some rc => if rc =? 0 then 0 else -1
  | None => 0
  end.

(** ** Disciplined use of the manager *)

(** The two lists are well formed, [lc] from the created head and [lf]
    from the foreign head; between them they hold every allocated handle
    once; the created list holds the handles that record this process as
    creator. *)
Definition lists_inv (pid : Z) (st : state) (lc lf : list Z) : Prop :=
  exists m,
    method st = Some m /\ initialized m = 1
    /\ is_list (regions st) (created_regions m) lc
    /\ is_list (regions st) (foreign_regions m) lf
    /\ NoDup (lc ++ lf)
    /\ (forall r, is_Some (regions st !! r) -> r ∈ lc ++ lf)
    /\ Forall (own_region pid (regions st)) lc
    /\ Forall (fun r => ~ own_region pid (regions st) r) lf.

(** A heap that differs from [h] at most by the [next] field of one handle
    of [l]. *)
Definition relinked (h h' : gmap Z df_shm_region) (l : list Z) : Prop :=
  h' = h
  \/ exists p preg nx,
       p ∈ l /\ h !! p = Some preg /\ h' = <[p := set_next preg nx]> h.

(** A call is disciplined when [malloc] answers [NULL] or a block that is
    not allocated, sizes and pointers satisfy the [assert]s, a region
    enters the foreign list with another creator than this process, the
    region released is allocated and the backend callback that releases it
    succeeds, and [df_detach_shm_region] is called on attached regions
    only. *)
Definition disciplined (pid : Z) (st : state) (c : call) : Prop :=
  exists m, method st = Some m /\
  match c with
  | CreateRegion r sz hint => 0 < sz /\ regions st !! r = None
  | CreateNamedRegion r name name_size sz hint =>
      0 < sz /\ regions st !! r = None
      /\ (is_Some (create_region_func (hooks m)) ->
          is_Some (create_named_region_func (hooks m)))
  | AttachRegion r creator contact sz hint =>
      contact <> NULL /\ regions st !! r = None /\ creator <> pid
  | AttachNamedRegion r name name_size sz hint =>
      name <> NULL /\ regions st !! r = None /\ pid <> DF_SHM_UNKNOWN_PID
  | DetachRegion r =>
      is_Some (regions st !! r) /\ ~ own_region pid (regions st) r
      /\ detach_ok m r
  | DestroyRegion r =>
      is_Some (regions st !! r)
      /\ (own_region pid (regions st) r -> destroy_ok m r)
      /\ (~ own_region pid (regions st) r -> detach_ok m r)
  end.

(** Every call of the sequence is disciplined in the state in which it is
    made, and [fuel] bounds the length of the lists. *)
Fixpoint disciplined_calls (pid : Z) (fuel : nat) (st : state) (cs : list call)
  : Prop :=
  match cs with
  | [] => True
  | c :: cs' =>
      disciplined pid st c /\ (base.size (regions st) < fuel)%nat
      /\ forall st', do_call pid fuel st c = Some st' ->
                     disciplined_calls pid fuel st' cs'
  end.

(** ** A backend for examples

    Create and attach succeed, detach succeeds, destroy fails with code 5 on
    the region handle at address 200 and succeeds on every other, finalize
    succeeds. *)
Definition flaky_backend : callbacks :=
  {| create_region_func := Some (fun _ _ => (0, 7, 4096));
     create_named_region_func := Some (fun _ _ _ _ => (0, 7, 4096));
     attach_region_func := Some (fun _ _ _ => (0, 8, 8192));
     destroy_region_func := Some (fun r => if r =? 200 then 5 else 0);
     detach_region_func := Some (fun _ => 0);
     finalize_func := Some 0 |}.

(** The state that [df_shm_init] returns for that backend. *)
Definition flaky_init : state :=
  {| regions := ∅;
     method := Some {| initialized := 1;
                       created_regions := NULL; num_created_regions := 0;
                       foreign_regions := NULL; num_foreign_regions := 0;
                       hooks := flaky_backend |} |}.

(** The heap and the method handle after this process, of pid 1, has
    created a region with its handle at 200 and then one with its handle
    at 100. *)
Definition two_regions : gmap Z df_shm_region :=
  <[100 := {| size := 64; starting_addr := 4096; creator_id := 1;
              method_data := 7; next := 200 |}]>
    (<[200 := {| size := 64; starting_addr := 4096; creator_id := 1;
                 method_data := 7; next := NULL |}]> ∅).

Definition two_regions_method : df_shm_method :=
  {| initialized := 1;
     created_regions := 100; num_created_regions := 2;
     foreign_regions := NULL; num_foreign_regions := 0;
     hooks := flaky_backend |}.

(** ** Another backend for examples

    Every create and attach fails with code 12. *)
Definition refusing_backend : callbacks :=
  {| create_region_func := Some (fun _ _ => (12, 0, 0));
     create_named_region_func := Some (fun _ _ _ _ => (12, 0, 0));
     attach_region_func := Some (fun _ _ _ => (12, 0, 0));
     destroy_region_func := Some (fun _ => 0);
     detach_region_func := Some (fun _ => 0);
     finalize_func := Some 0 |}.

(** The method handle of [two_regions] with that backend. *)
Definition two_regions_refusing : df_shm_method :=
  {| initialized := 1;
     created_regions := 100; num_created_regions := 2;
     foreign_regions := NULL; num_foreign_regions := 0;
     hooks := refusing_backend |}.


(** The counters of the method handle against two lists of handles:
    [num_foreign_regions] is the length of [lf] and at most [n], and
    [num_created_regions] lies between the length of [lc] and [n]. *)
Definition counters_track (st : state) (lc lf : list Z) (n : Z) : Prop :=
  exists m, method st = Some m
    /\ num_foreign_regions m = Z.of_nat (length lf) /\ Z.of_nat (length lf) <= n
    /\ Z.of_nat (length lc) <= num_created_regions m <= n.

(** The heap and the method handle after this process, of pid 1, has
    created a region with its handle at 100 and then one with its handle
    at 200: the created list starts with the handle at 200, on which the
    destroy callback of [flaky_backend] fails. *)
Definition failure_first : gmap Z df_shm_region :=
  <[200 := {| size := 64; starting_addr := 4096; creator_id := 1;
              method_data := 7; next := 100 |}]>
    (<[100 := {| size := 64; starting_addr := 4096; creator_id := 1;
                 method_data := 7; next := NULL |}]> ∅).

Definition failure_first_method : df_shm_method :=
  {| initialized := 1;
     created_regions := 200; num_created_regions := 2;
     foreign_regions := NULL; num_foreign_regions := 0;
     hooks := flaky_backend |}.

(** The claim that [df_shm_finalize] goes through all cleanups whichever of
    them fail: it returns in every state that disciplined calls on a new
    method handle have reached. *)
Definition finalize_completes_whatever_fails : Prop :=
  forall pid hk fuel st0 cs st,
    df_shm_init hk true true 0 = Some st0 ->
    disciplined_calls pid fuel st0 cs ->
    do_calls pid fuel st0 cs = Some st ->
    exists fuel', is_Some (df_shm_finalize pid fuel' st).
End Shm.

(** * The SysV backend ([df_shm_sysv.c]): anchor file and token counter *)
Module SysV.

(** [0600] *)
Definition DEFAULT_SYSV_SHM_FLAG : Z := 384.

(** [struct _shm_sysv_method_data] *)
Record shm_sysv_method_data := {
  default_flag : Z;
  path : string;
  token_id : Z;
  my_pid : Z
}.

(** [struct _shm_sysv_region_data] *)
Record shm_sysv_region_data := {
  key : Z;
  id : Z;
  attach_addr : Z
}.

(** [df_shm_method_sysv_init].  [block] is what the block returned by
    [malloc] holds, which [malloc] leaves indeterminate; [malloc_ok] tells
    whether the allocation succeeds, [pid] is what [getpid()] returns and
    [fd] what [open] returns.  The function stores [default_flag], [my_pid]
    and [path]; its local variable [token_id = 1] is stored nowhere.  The
    result is the return value and [*method_data]. *)
Definition df_shm_method_sysv_init (block : shm_sysv_method_data)
    (malloc_ok : bool) (pid fd : Z) : Z * option shm_sysv_method_data :=
  if negb malloc_ok then (-1, None)
  else
    let m_data := {| default_flag := DEFAULT_SYSV_SHM_FLAG;
                     path := "/tmp/df_shm_sysv." +:+ pretty pid;
                     token_id := token_id block;
                     my_pid := pid |} in
    let local_token_id := 1 in
    if negb (fd =? -1) then (0, Some m_data) else (-1, None).

(** [df_shm_method_sysv_create_region].  [ftok] is the library function,
    [shmget_id] and [shmat_addr] are what [shmget] and [shmat] return.  The
    result is the return value, the method data and [*return_data]; [None]
    when the increment of the [int] counter overflows. *)
Definition df_shm_method_sysv_create_region (ftok : string -> Z -> Z)
    (m_data : shm_sysv_method_data) (malloc_ok : bool)
    (shmget_id shmat_addr : Z) (sz starting_addr : Z)
  : option (Z * shm_sysv_method_data * option shm_sysv_region_data) :=
  if negb malloc_ok then Some (-1, m_data, None)
  else
    let k := ftok (path m_data) (token_id m_data) in
    if k =? -1 then Some (-1, m_data, None)
    else if INT_MAX <=? token_id m_data then None
    else
      let m_data' := {| default_flag := default_flag m_data;
                        path := path m_data;
                        token_id := token_id m_data + 1;
                        my_pid := my_pid m_data |} in
      if shmget_id =? -1 then Some (-1, m_data', None)
      else if shmat_addr =? -1 then Some (-1, m_data', None)
      else Some (0, m_data',
                 Some {| key := k; id := shmget_id; attach_addr := shmat_addr |}).

(** An [ftok] for examples, which shows in the key the token it was given;
    it fails on tokens below 0. *)
Definition echo_ftok (p : string) (token : Z) : Z :=
  if token <? 0 then -1 else token.

(** Two blocks as [malloc] may return them: what they hold is left over
    from earlier use. *)
Definition block_77 : shm_sysv_method_data :=
  {| default_flag := 0; path := "left over"; token_id := 77; my_pid := 0 |}.

Definition block_0 : shm_sysv_method_data :=
  {| default_flag := 0; path := "left over"; token_id := 0; my_pid := 0 |}.

End SysV.

(** * The mmap backend ([df_shm_mmap.c]): the contact descriptor *)
Module Mmap.

(** [struct _shm_mmap_region_data].  [file_name] holds the characters of the
    C string, without the terminating NUL. *)
Record shm_mmap_region_data := {
  file_name : list Z;
  file_length : Z;
  attach_addr : Z;
  mapped_length : Z
}.

(** Byte order of the machine. *)
Inductive byte_order := LittleEndian | BigEndian.

(** The [n] low-order bytes of [x], least significant first. *)
Fixpoint to_bytes (n : nat) (x : Z) : list Z :=
  match n with
  | O => []
  | S n' => x mod 256 :: to_bytes n' (x / 256)
  end.

Fixpoint of_bytes (bs : list Z) : Z :=
  match bs with
  | [] => 0
  | b :: bs' => b + 256 * of_bytes bs'
  end.

(** The object representation of a [size_t], and its value. *)
Definition store_size_t (bo : byte_order) (x : Z) : list Z :=
  match bo with
  | LittleEndian => to_bytes (Z.to_nat sizeof_size_t) x
  | BigEndian => rev (to_bytes (Z.to_nat sizeof_size_t) x)
  end.

Definition load_size_t (bo : byte_order) (bs : list Z) : Z :=
  match bo with
  | LittleEndian => of_bytes bs
  | BigEndian => of_bytes (rev bs)
  end.

(** [strlen] on a buffer: the number of bytes before the first NUL; [None]
    when the buffer holds no NUL, so that the scan leaves it. *)
Fixpoint strlen (buf : list Z) : option nat :=
  match buf with
  | [] => None
  | c :: buf' => if c =? 0 then Some O else S <$> strlen buf'
  end.

(** [df_shm_method_mmap_region_contact].  [junk] is what the block returned
    by [malloc] holds.  The result is the buffer with [*length], or [None]
    for [NULL].  The function faults when [strcpy] or [memcpy] would store
    outside the [len] bytes allocated. *)
Definition df_shm_method_mmap_region_contact (bo : byte_order) (junk : Z -> Z)
    (region_data : shm_mmap_region_data) (malloc_ok : bool)
  : outcome (option (list Z * Z)) :=
  let name := file_name region_data ++ [0] in
  let file_name_len := int (size_t (Z.of_nat (length (file_name region_data)) + 1)) in
  let len := int (size_t (file_name_len + sizeof_size_t)) in
  if negb malloc_ok then Returns None
  else if (Z.of_nat (length name) <=? size_t len)
          && (0 <=? file_name_len)
          && (file_name_len + sizeof_size_t <=? size_t len)
  then
    Returns (Some (splice (splice (read_bytes junk 0 (size_t len)) 0 name)
                          (Z.to_nat file_name_len)
                          (store_size_t bo (file_length region_data)),
                   len))
  else Faults.

(** [df_shm_method_mmap_attach_region].  [contact_info] is the buffer
    behind the pointer; [fd], [mmap_addr] and [close_rc] are what [open],
    [mmap] and [close] return.  The result is the return value and
    [*return_data]. *)
Definition df_shm_method_mmap_attach_region (bo : byte_order)
    (contact_info : list Z) (malloc_ok : bool) (fd mmap_addr close_rc : Z)
    (sz starting_addr : Z)
  : outcome (Z * option shm_mmap_region_data) :=
  if negb malloc_ok then Returns (-1, None)
  else
    match strlen contact_info with
    | None => Faults
    | Some n =>
        if fd =? -1 then Returns (-1, None)
        else
          let name := take n contact_info in
          let field := take (Z.to_nat sizeof_size_t) (drop (S n) contact_info) in
          if negb (Z.of_nat (length field) =? sizeof_size_t) then Faults
          else if mmap_addr =? NULL then Returns (-1, None)
          else if close_rc =? -1 then Returns (-1, None)
          else
            Returns (0, Some {| file_name := name;
                                file_length := load_size_t bo field;
                                attach_addr := mmap_addr;
                                mapped_length := sz |})
    end.

(** A region for examples: the file [/tmp/a] of 4096 bytes. *)
Definition example_region : shm_mmap_region_data :=
  {| file_name := [47; 116; 109; 112; 47; 97];
     file_length := 4096;
     attach_addr := 65536;
     mapped_length := 4096 |}.

End Mmap.

(** * Cacheline placement of the slots *)
Module Placement.

(** [struct _df_queue] with a padding that subtracts [k] times
    [sizeof(size_t)]; the source has [k = 2]. *)
Definition df_queue_members_with (k w : Z) : list Layout.member :=
  [ Layout.scalar 4; Layout.scalar 4;
    Layout.scalar w; Layout.scalar w; Layout.scalar w;
    Layout.char_array (CACHE_LINE_SIZE - 4 - 4 - k * w);
    Layout.char_array 0 ].

(** The claim: the header's size is a multiple of [CACHE_LINE_SIZE], so that
    the first slot of a queue placed on a cacheline starts a cacheline. *)
Definition header_fills_cachelines : Prop :=
  sizeof_df_queue mod CACHE_LINE_SIZE = 0.

End Placement.

(** * The SysV backend ([df_shm_sysv.c]): the other callbacks

    The callbacks are given what the system calls return, and report the
    system calls they make, in order, with their arguments. *)
Module SysVCalls.
Import SysV.

(** [key_t] is an [int]. *)
Definition sizeof_key_t : Z := 4.

(** The values of the flags on Linux: [IPC_CREAT] is [01000], [O_EXCL] is
    [0200], [SHM_RND] is [020000]. *)
Definition IPC_CREAT : Z := 512.
Definition O_EXCL : Z := 128.
Definition SHM_RND : Z := 8192.

(** Calls into the system and the C library that change something outside
    the function. *)
Inductive os_call :=
| call_shmget (key size shmflg : Z)
| call_shmat (shmid shmaddr shmflg : Z)
| call_shmdt (shmaddr : Z)
| call_shmctl_rmid (shmid : Z)
| call_unlink (pathname : string)
| call_free_region_data
| call_free_method_data.

(** The object representation of an [int], and its value. *)
Definition store_int (bo : Mmap.byte_order) (x : Z) : list Z :=
  match bo with
  | Mmap.LittleEndian => Mmap.to_bytes (Z.to_nat sizeof_key_t) (uint32_t x)
  | Mmap.BigEndian => rev (Mmap.to_bytes (Z.to_nat sizeof_key_t) (uint32_t x))
  end.

Definition load_int (bo : Mmap.byte_order) (bs : list Z) : Z :=
  match bo with
  | Mmap.LittleEndian => int (Mmap.of_bytes bs)
  | Mmap.BigEndian => int (Mmap.of_bytes (rev bs))
  end.

(** The [key_t] read through a pointer to the buffer [buf]; [None] when
    the buffer is shorter than a [key_t]. *)
Definition read_key (bo : Mmap.byte_order) (buf : list Z) : option Z :=
  let field := take (Z.to_nat sizeof_key_t) buf in
  if Z.of_nat (length field) =? sizeof_key_t then Some (load_int bo field)
  else None.

(** The tail shared by create-named and attach: [shmget] with the key,
    then [shmat].  [shmget_id] and [shmat_addr] are what the two calls
    return. *)
Definition get_and_attach (k shmflg : Z) (shmget_id shmat_addr : Z)
    (sz starting_addr : Z)
  : Z * option shm_sysv_region_data * list os_call :=
  if shmget_id =? -1 then
    (-1, None, [call_shmget k sz shmflg; call_free_region_data])
  else if shmat_addr =? -1 then
    (-1, None, [call_shmget k sz shmflg;
                call_shmat shmget_id starting_addr SHM_RND;
                call_free_region_data])
  else
    (0, Some {| key := k; id := shmget_id; attach_addr := shmat_addr |},
     [call_shmget k sz shmflg; call_shmat shmget_id starting_addr SHM_RND]).

(** [df_shm_method_sysv_create_named_region]: the key is read from
    [name]. *)
Definition df_shm_method_sysv_create_named_region (bo : Mmap.byte_order)
    (m_data : shm_sysv_method_data) (name : list Z) (name_size : Z)
    (malloc_ok : bool) (shmget_id shmat_addr : Z) (sz starting_addr : Z)
  : outcome (Z * option shm_sysv_region_data * list os_call) :=
  if negb malloc_ok then Returns (-1, None, [])
  else
    match read_key bo name with
    | None => Faults
    | Some k =>
        Returns (get_and_attach k
                   (Z.lor (Z.lor IPC_CREAT O_EXCL) (default_flag m_data))
                   shmget_id shmat_addr sz starting_addr)
    end.

(** [df_shm_method_sysv_region_contact]: the buffer and [*length], or
    [None] for [NULL]. *)
Definition df_shm_method_sysv_region_contact (bo : Mmap.byte_order)
    (region_data : shm_sysv_region_data) (malloc_ok : bool)
  : option (list Z * Z) :=
  if negb malloc_ok then None
  else Some (store_int bo (key region_data), sizeof_key_t).

(** [df_shm_method_sysv_attach_region]: the key is read from
    [contact_info]. *)
Definition df_shm_method_sysv_attach_region (bo : Mmap.byte_order)
    (m_data : shm_sysv_method_data) (contact_info : list Z)
    (malloc_ok : bool) (shmget_id shmat_addr : Z) (sz starting_addr : Z)
  : outcome (Z * option shm_sysv_region_data * list os_call) :=
  if negb malloc_ok then Returns (-1, None, [])
  else
    match read_key bo contact_info with
    | None => Faults
    | Some k =>
        Returns (get_and_attach k (default_flag m_data)
                   shmget_id shmat_addr sz starting_addr)
    end.

(** [df_shm_method_sysv_destroy_region].  [shmdt_rc] and [shmctl_rc] are
    what the two calls return. *)
Definition df_shm_method_sysv_destroy_region
    (region_data : shm_sysv_region_data) (shmdt_rc shmctl_rc : Z)
  : Z * list os_call :=
  if shmdt_rc =? -1 then (-1, [call_shmdt (attach_addr region_data)])
  else if shmctl_rc =? -1 then
    (-1, [call_shmdt (attach_addr region_data);
          call_shmctl_rmid (id region_data)])
  else
    (0, [call_shmdt (attach_addr region_data);
         call_shmctl_rmid (id region_data);
         call_free_region_data]).

(** [df_shm_method_sysv_detach_region] *)
Definition df_shm_method_sysv_detach_region
    (region_data : shm_sysv_region_data) (shmdt_rc : Z)
  : Z * list os_call :=
  if shmdt_rc =? -1 then (-1, [call_shmdt (attach_addr region_data)])
  else (0, [call_shmdt (attach_addr region_data); call_free_region_data]).

(** [df_shm_method_sysv_finalize].  [unlink_rc] is what [unlink]
    returns. *)
Definition df_shm_method_sysv_finalize (m_data : shm_sysv_method_data)
    (unlink_rc : Z) : Z * list os_call :=
  if unlink_rc =? -1 then (-1, [call_unlink (path m_data)])
  else (0, [call_unlink (path m_data); call_free_method_data]).

(** Successive calls of [df_shm_method_sysv_create_region] on the same
    method data, with [malloc] succeeding; each call is given what
    [shmget] and [shmat] return, the size and the address hint.  The
    result is the method data at the end and, per call, the return value
    and [*return_data]. *)
Fixpoint sysv_creates (ftok : string -> Z -> Z) (m_data : shm_sysv_method_data)
    (envs : list (Z * Z * Z * Z))
  : option (shm_sysv_method_data * list (Z * option shm_sysv_region_data)) :=
  match envs with
  | [] => Some (m_data, [])
  | (shmget_id, shmat_addr, sz, starting_addr) :: envs' =>
      '(rc, m1, r) ← df_shm_method_sysv_create_region ftok m_data true
                       shmget_id shmat_addr sz starting_addr;
      '(m2, rs) ← sysv_creates ftok m1 envs';
      Some (m2, (rc, r) :: rs)
  end.

(** A region for examples. *)
Definition example_segment : shm_sysv_region_data :=
  {| key := 16908545; id := 5; attach_addr := 65536 |}.

End SysVCalls.

(** * The mmap backend ([df_shm_mmap.c]): the other callbacks

    The callbacks are given what the system calls return, and report the
    system calls they make, in order, with their arguments.  File names
    are C strings, held as the list of their characters without the
    terminating NUL. *)
Module MmapCalls.
Import Mmap.

(** [0600] *)
Definition DEFAULT_OPEN_MODE : Z := 384.

(** [O_RDWR | O_CREAT | O_TRUNC] and [O_RDWR] on Linux. *)
Definition O_RDWR : Z := 2.
Definition O_CREAT : Z := 64.
Definition O_TRUNC : Z := 512.

(** [struct _shm_mmap_method_data] *)
Record shm_mmap_method_data := {
  base_path : list Z;
  my_pid : Z
}.

(** The character codes of a string. *)
Definition chars (s : string) : list Z :=
  map (fun a => Z.of_N (Ascii.N_of_ascii a)) (String.list_ascii_of_string s).

Inductive os_call :=
| call_mkstemp (template : list Z)
| call_open (pathname : list Z) (flags mode : Z)
| call_ftruncate (fd length : Z)
| call_mmap (addr length fd : Z)
| call_munmap (addr length : Z)
| call_close (fd : Z)
| call_unlink (pathname : list Z)
| call_free_file_name
| call_free_region_data
| call_free_method_data.

(** [df_shm_method_mmap_init]: the return value and [*method_data]. *)
Definition df_shm_method_mmap_init (malloc_ok : bool) (pid : Z)
  : Z * option shm_mmap_method_data :=
  if negb malloc_ok then (-1, None)
  else (0, Some {| base_path := chars ("/tmp/df_shm_mmap." +:+ pretty pid
                                       +:+ ".XXXXXX");
                   my_pid := pid |}).

(** What [df_shm_method_mmap_create_region] and
    [df_shm_method_mmap_create_named_region] do once the backstore file is
    open at [fd] under the name [file_name]: size the file, map it, close
    the descriptor.  [calls] are the calls made before. *)
Definition size_and_map (calls : list os_call) (file_name : list Z)
    (fd ftruncate_rc mmap_addr close_rc : Z) (sz starting_addr : Z)
  : Z * option shm_mmap_region_data * list os_call :=
  if ftruncate_rc =? -1 then
    (-1, None,
     calls ++ [call_ftruncate fd sz; call_free_file_name; call_free_region_data])
  else if mmap_addr =? NULL then
    (-1, None,
     calls ++ [call_ftruncate fd sz; call_mmap starting_addr sz fd;
               call_free_file_name; call_free_region_data])
  else if close_rc =? -1 then
    (-1, None,
     calls ++ [call_ftruncate fd sz; call_mmap starting_addr sz fd;
               call_close fd; call_munmap mmap_addr sz;
               call_free_file_name; call_free_region_data])
  else
    (0, Some {| file_name := file_name;
                file_length := sz;
                attach_addr := mmap_addr;
                mapped_length := sz |},
     calls ++ [call_ftruncate fd sz; call_mmap starting_addr sz fd;
               call_close fd]).

(** [df_shm_method_mmap_create_region].  [mkstemp] is given as what it
    returns for the template: the descriptor and the name that it has
    written over the template.  [strdup] is taken to succeed. *)
Definition df_shm_method_mmap_create_region (m_data : shm_mmap_method_data)
    (malloc_ok : bool) (mkstemp : list Z -> Z * list Z)
    (ftruncate_rc mmap_addr close_rc : Z) (sz starting_addr : Z)
  : Z * option shm_mmap_region_data * list os_call :=
  if negb malloc_ok then (-1, None, [])
  else
    let '(fd, file_name) := mkstemp (base_path m_data) in
    if fd =? -1 then
      (-1, None, [call_mkstemp (base_path m_data);
                  call_free_file_name; call_free_region_data])
    else
      size_and_map [call_mkstemp (base_path m_data)] file_name
        fd ftruncate_rc mmap_addr close_rc sz starting_addr.

(** [df_shm_method_mmap_create_named_region].  [name] is the buffer behind
    the pointer; [fd] is what [open] returns. *)
Definition df_shm_method_mmap_create_named_region
    (m_data : shm_mmap_method_data) (name : list Z) (name_size : Z)
    (malloc_ok : bool) (fd ftruncate_rc mmap_addr close_rc : Z)
    (sz starting_addr : Z)
  : outcome (Z * option shm_mmap_region_data * list os_call) :=
  if negb malloc_ok then Returns (-1, None, [])
  else
    match strlen name with
    | None => Faults
    | Some n =>
        let file_name := take n name in
        let opened :=
          call_open file_name (Z.lor (Z.lor O_RDWR O_CREAT) O_TRUNC)
            DEFAULT_OPEN_MODE in
        if fd =? -1 then
          Returns (-1, None,
                   [opened; call_free_file_name; call_free_region_data])
        else
          Returns (size_and_map [opened] file_name
                     fd ftruncate_rc mmap_addr close_rc sz starting_addr)
    end.

(** [df_shm_method_mmap_destroy_region].  [munmap_rc] and [unlink_rc] are
    what the two calls return. *)
Definition df_shm_method_mmap_destroy_region
    (region_data : shm_mmap_region_data) (munmap_rc unlink_rc : Z)
  : Z * list os_call :=
  let unmap := call_munmap (attach_addr region_data)
                 (mapped_length region_data) in
  if munmap_rc =? -1 then (-1, [unmap])
  else if unlink_rc =? -1 then
    (-1, [unmap; call_unlink (file_name region_data)])
  else
    (0, [unmap; call_unlink (file_name region_data);
         call_free_file_name; call_free_region_data]).

(** [df_shm_method_mmap_detach_region] *)
Definition df_shm_method_mmap_detach_region
    (region_data : shm_mmap_region_data) (munmap_rc : Z)
  : Z * list os_call :=
  let unmap := call_munmap (attach_addr region_data)
                 (mapped_length region_data) in
  if munmap_rc =? -1 then (-1, [unmap])
  else (0, [unmap; call_free_file_name; call_free_region_data]).

(** [df_shm_method_mmap_finalize] *)
Definition df_shm_method_mmap_finalize (m_data : shm_mmap_method_data)
  : Z * list os_call :=
  (0, [call_free_method_data]).

(** A [mkstemp] for examples: descriptor 3, and the template with its last
    six characters replaced by [abcdef]. *)
Definition example_mkstemp (template : list Z) : Z * list Z :=
  (3, take (length template - 6) template ++ [97; 98; 99; 100; 101; 102]).

End MmapCalls.

(** * The POSIX shm backend ([df_shm_posixshm.c]): object names *)
Module PosixShm.

(** [0600] *)
Definition DEFAULT_OPEN_MODE : Z := 384.

(** [O_CREAT] and [O_RDWR] on Linux. *)
Definition O_RDWR : Z := 2.
Definition O_CREAT : Z := 64.

(** [struct _shm_posixshm_method_data]; [base_path] holds the characters of
    the C string. *)
Record shm_posixshm_method_data := {
  base_path : list Z;
  my_pid : Z;
  counter : Z
}.

(** [struct _shm_posixshm_region_data] *)
Record shm_posixshm_region_data := {
  file_name : list Z;
  file_length : Z;
  attach_addr : Z;
  mapped_length : Z
}.

Inductive os_call :=
| call_shm_open (name : list Z) (oflag mode : Z)
| call_ftruncate (fd length : Z)
| call_mmap (addr length fd : Z)
| call_munmap (addr length : Z)
| call_close (fd : Z)
| call_shm_unlink (name : list Z)
| call_free_file_name
| call_free_region_data.

(** [df_shm_method_posixshm_init]: the return value and [*method_data]. *)
Definition df_shm_method_posixshm_init (malloc_ok : bool) (pid : Z)
  : Z * option shm_posixshm_method_data :=
  if negb malloc_ok then (-1, None)
  else (0, Some {| base_path := MmapCalls.chars ("/df_shm_posixshm."
                                                 +:+ pretty pid);
                   my_pid := pid;
                   counter := 0 |}).

(** The name that [df_shm_method_posixshm_create_region] builds with
    [sprintf], [strcpy] and [strcat]: the base path, a dot, the counter in
    decimal. *)
Definition object_name (m_data : shm_posixshm_method_data) : list Z :=
  base_path m_data ++ MmapCalls.chars "." ++ MmapCalls.chars (pretty (counter m_data)).

(** [df_shm_method_posixshm_create_region].  [fd], [ftruncate_rc],
    [mmap_addr] and [close_rc] are what [shm_open], [ftruncate], [mmap] and
    [close] return; the allocation of the name is taken to succeed.  The
    result is the return value, the method data after the call,
    [*return_data] and the calls made. *)
Definition df_shm_method_posixshm_create_region
    (m_data : shm_posixshm_method_data) (malloc_ok : bool)
    (fd ftruncate_rc mmap_addr close_rc : Z) (sz starting_addr : Z)
  : Z * shm_posixshm_method_data * option shm_posixshm_region_data
    * list os_call :=
  if negb malloc_ok then (-1, m_data, None, [])
  else
    let name := object_name m_data in
    let opened := call_shm_open name (Z.lor O_CREAT O_RDWR) DEFAULT_OPEN_MODE in
    if fd =? -1 then
      (-1, m_data, None, [opened; call_free_file_name; call_free_region_data])
    else if ftruncate_rc =? -1 then
      (-1, m_data, None,
       [opened; call_ftruncate fd sz; call_free_file_name;
        call_free_region_data])
    else if mmap_addr =? NULL then
      (-1, m_data, None,
       [opened; call_ftruncate fd sz; call_mmap starting_addr sz fd;
        call_free_file_name; call_free_region_data])
    else if close_rc =? -1 then
      (-1, m_data, None,
       [opened; call_ftruncate fd sz; call_mmap starting_addr sz fd;
        call_close fd; call_munmap mmap_addr sz; call_shm_unlink name;
        call_free_file_name; call_free_region_data])
    else
      (0, m_data,
       Some {| file_name := name; file_length := sz;
               attach_addr := mmap_addr; mapped_length := sz |},
       [opened; call_ftruncate fd sz; call_mmap starting_addr sz fd;
        call_close fd]).

(** Successive calls of [df_shm_method_posixshm_create_region] on the same
    method data, with [malloc] succeeding; each call is given what
    [shm_open], [ftruncate], [mmap] and [close] return, the size and the
    address hint. *)
Fixpoint posixshm_creates (m_data : shm_posixshm_method_data)
    (envs : list (Z * Z * Z * Z * Z * Z))
  : shm_posixshm_method_data
    * list (Z * option shm_posixshm_region_data * list os_call) :=
  match envs with
  | [] => (m_data, [])
  | (fd, ftruncate_rc, mmap_addr, close_rc, sz, starting_addr) :: envs' =>
      let '(rc, m1, r, calls) :=
        df_shm_method_posixshm_create_region m_data true
          fd ftruncate_rc mmap_addr close_rc sz starting_addr in
      let '(m2, rs) := posixshm_creates m1 envs' in
      (m2, (rc, r, calls) :: rs)
  end.

End PosixShm.

(** * Facts about the queue *)
Module QueueFacts.
Import Queue.

(** ** Arithmetic of the size computation *)

Lemma size_t_small x : 0 <= x <= SIZE_MAX -> size_t x = x.
Proof. unfold size_t, SIZE_MAX. intros H. apply Z.mod_small. lia. Qed.

Lemma size_t_range x : 0 <= size_t x <= SIZE_MAX.
Proof.
  unfold size_t, SIZE_MAX.
  pose proof (Z.mod_pos_bound x (2 ^ 64) ltac:(lia)). lia.
Qed.

Lemma uint32_t_small x : 0 <= x <= UINT32_MAX -> uint32_t x = x.
Proof. unfold uint32_t, UINT32_MAX. intros H. apply Z.mod_small. lia. Qed.

Lemma int_small x : - 2 ^ 31 <= x <= INT_MAX -> int x = x.
Proof.
  unfold int, INT_MAX. intros H.
  rewrite Z.mod_small by lia. lia.
Qed.

Lemma size_t_add_l x y : size_t (size_t x + y) = size_t (x + y).
Proof. unfold size_t. apply Zplus_mod_idemp_l. Qed.

Lemma size_t_add_r x y : size_t (x + size_t y) = size_t (x + y).
Proof. unfold size_t. apply Zplus_mod_idemp_r. Qed.

Lemma size_t_mul_r x y : size_t (x * size_t y) = size_t (x * y).
Proof. unfold size_t. apply Zmult_mod_idemp_r. Qed.

Lemma size_t_mod_cache_line x :
  size_t x mod CACHE_LINE_SIZE = x mod CACHE_LINE_SIZE.
Proof.
  unfold size_t, CACHE_LINE_SIZE.
  apply Z.mod_mod_divide. exists (2 ^ 58). reflexivity.
Qed.

Lemma roundup_aligned x a : 0 < a -> x mod a = 0 -> roundup x a = x.
Proof.
  intros Ha H. unfold roundup.
  pose proof (Z.div_mod x a ltac:(lia)) as E. rewrite H in E.
  replace (x + a - 1) with ((a - 1) + (x / a) * a) by lia.
  rewrite Z.div_add by lia.
  rewrite (Z.div_small (a - 1) a) by lia. lia.
Qed.

Lemma roundup_unaligned x a :
  0 < a -> x mod a <> 0 -> roundup x a = x + (a - x mod a).
Proof.
  intros Ha H. unfold roundup.
  pose proof (Z.div_mod x a ltac:(lia)) as E.
  pose proof (Z.mod_pos_bound x a Ha) as B.
  replace (x + a - 1) with ((x mod a - 1) + (x / a + 1) * a) by lia.
  rewrite Z.div_add by lia.
  rewrite (Z.div_small (x mod a - 1) a) by lia. lia.
Qed.

(** [roundup x a] is the least multiple of [a] that is at least [x]. *)
Lemma roundup_least x a :
  0 < a ->
  (a | roundup x a) /\ x <= roundup x a < x + a /\
  forall m, (a | m) -> x <= m -> roundup x a <= m.
Proof.
  intros Ha.
  assert (Hdiv : (a | roundup x a)) by (exists ((x + a - 1) / a); unfold roundup; lia).
  assert (Hrange : x <= roundup x a < x + a).
  { destruct (Z.eq_dec (x mod a) 0) as [E | E].
    - rewrite roundup_aligned by assumption. lia.
    - rewrite roundup_unaligned by assumption.
      pose proof (Z.mod_pos_bound x a Ha). lia. }
  repeat split; try tauto; try lia.
  intros m [k ->] Hm. destruct Hdiv as [j Hj]. rewrite Hj in *.
  assert (j < k + 1) by nia. nia.
Qed.

(** The slot size that the code computes is the rounded-up sum, as a
    [size_t]. *)
Lemma df_calculate_slot_size_roundup p :
  0 < p ->
  df_calculate_slot_size p
  = Returns (size_t (roundup (sizeof_df_queue_slot + p) CACHE_LINE_SIZE)).
Proof.
  intros Hp. unfold df_calculate_slot_size.
  destruct (0 <? p) eqn:E; [| lia].
  cbv zeta. rewrite size_t_mod_cache_line.
  destruct (_ =? 0) eqn:E0.
  - apply Z.eqb_eq in E0.
    rewrite roundup_aligned; [reflexivity | reflexivity | assumption].
  - apply Z.eqb_neq in E0.
    rewrite roundup_unaligned; [| reflexivity | assumption].
    rewrite size_t_add_l. reflexivity.
Qed.

Lemma df_calculate_queue_size_roundup n p :
  0 < n -> 0 < p ->
  df_calculate_queue_size n p
  = Returns (size_t (sizeof_df_queue
                     + n * roundup (sizeof_df_queue_slot + p) CACHE_LINE_SIZE)).
Proof.
  intros Hn Hp. unfold df_calculate_queue_size.
  destruct (0 <? n) eqn:E; [| lia].
  rewrite df_calculate_slot_size_roundup by assumption.
  rewrite size_t_mul_r, size_t_add_r. reflexivity.
Qed.

Lemma df_create_queue_fields raw addr n p q :
  df_create_queue raw addr n p = Returns q ->
  0 < n <= INT_MAX /\ 0 < p /\ addr <> NULL /\
  initialized q = 1 /\ max_num_slots q = n /\ max_payload_size q = p /\
  df_calculate_slot_size p = Returns (slot_size q) /\
  df_calculate_queue_size n p = Returns (total_size q) /\
  sizeof_df_queue_slot <= slot_size q /\
  sizeof_df_queue + n * slot_size q <= SIZE_MAX /\
  slots q = map (created_slot raw (slot_size q)) (seq 0 (Z.to_nat n)).
Proof.
  unfold df_create_queue. intros H.
  destruct ((0 <? n) && (0 <? p) && negb (addr =? NULL)) eqn:G; [| discriminate].
  apply andb_prop in G as [G G3]. apply andb_prop in G as [G1 G2].
  apply negb_true_iff, Z.eqb_neq in G3.
  destruct (df_calculate_queue_size n p) as [total | |] eqn:Et; try discriminate.
  destruct (df_calculate_slot_size p) as [ssz | |] eqn:Es; try discriminate.
  destruct ((n <=? INT_MAX) && (sizeof_df_queue_slot <=? ssz)
            && (sizeof_df_queue + n * ssz <=? SIZE_MAX)) eqn:U; [| discriminate].
  apply andb_prop in U as [U U3]. apply andb_prop in U as [U1 U2].
  inversion H; subst q; cbn.
  repeat split; try reflexivity; try assumption; lia.
Qed.

(** C5.  For [n > 0] and [p > 0], [df_calculate_queue_size n p] returns
    [sizeof(df_queue) + n * slot_size], with [slot_size] the sum of the slot
    overhead and [p] rounded up to the next multiple of [CACHE_LINE_SIZE];
    the value is returned as a [size_t], that is modulo [2^64], and is the
    exact sum whenever that fits a [size_t].  The [slot_size] and
    [total_size] fields of a queue that [df_create_queue] has built hold
    these two quantities. *)
Theorem queue_size_is_header_plus_slots n p :
  0 < n -> 0 < p ->
  let slot := roundup (sizeof_df_queue_slot + p) CACHE_LINE_SIZE in
  let total := sizeof_df_queue + n * slot in
  df_calculate_queue_size n p = Returns (size_t total)
  /\ (total <= SIZE_MAX -> df_calculate_queue_size n p = Returns total)
  /\ (forall raw addr q,
        df_create_queue raw addr n p = Returns q ->
        slot_size q = size_t slot /\ total_size q = size_t total /\
        (total <= SIZE_MAX -> slot_size q = slot /\ total_size q = total)).
Proof.
  intros Hn Hp slot total.
  assert (Hslot : 0 <= slot).
  { pose proof (roundup_least (sizeof_df_queue_slot + p) CACHE_LINE_SIZE
                  ltac:(reflexivity)) as (_ & R & _).
    fold slot in R. unfold sizeof_df_queue_slot in R. lia. }
  assert (Hexact : total <= SIZE_MAX -> size_t slot = slot /\ size_t total = total).
  { intros Hfit.
    assert (0 <= slot <= SIZE_MAX).
    { subst total. unfold sizeof_df_queue in Hfit. nia. }
    split; apply size_t_small; [assumption |].
    subst total. unfold sizeof_df_queue in *. nia. }
  split; [apply df_calculate_queue_size_roundup; assumption |].
  split.
  - intros Hfit. rewrite df_calculate_queue_size_roundup by assumption.
    fold slot. fold total. destruct (Hexact Hfit) as [_ ->]. reflexivity.
  - intros raw addr q Hq.
    apply df_create_queue_fields in Hq
      as (_ & _ & _ & _ & _ & _ & Hs & Ht & _).
    rewrite df_calculate_slot_size_roundup in Hs by assumption.
    rewrite df_calculate_queue_size_roundup in Ht by assumption.
    inversion Hs as [Hs']. inversion Ht as [Ht'].
    fold slot. fold total.
    split; [reflexivity |]. split; [reflexivity |].
    intros Hfit. destruct (Hexact Hfit) as [-> ->]. split; reflexivity.
Qed.

Lemma queue_size_is_header_plus_slots_witness :
  df_calculate_queue_size 5 2048 = Returns 10632
  /\ exists q, df_create_queue (fun _ => 0) 4096 5 2048 = Returns q
               /\ slot_size q = 2112 /\ total_size q = 10632.
Proof.
  pose proof (queue_size_is_header_plus_slots 5 2048 ltac:(lia) ltac:(lia))
    as (_ & Hexact & Hcreate).
  split.
  - apply Hexact. vm_compute. discriminate.
  - eexists. split; [reflexivity |].
    edestruct (Hcreate (fun _ => 0) 4096) as (_ & _ & Hq); [reflexivity |].
    apply Hq. vm_compute. discriminate.
Defined.

(** ** Endpoints and the slot under the cursor *)

Lemma slot_offset_small ssz n i :
  0 <= ssz -> sizeof_df_queue + n * ssz <= SIZE_MAX -> Z.of_nat i < n ->
  slot_offset ssz i = offsetof_df_queue_slots + Z.of_nat i * ssz.
Proof.
  intros Hs Hfit Hi. unfold slot_offset.
  rewrite size_t_small; [reflexivity |].
  unfold sizeof_df_queue in Hfit. nia.
Qed.

Lemma queue_wf_slot_size q : queue_wf q -> offsetof_df_queue_slot_data <= slot_size q.
Proof.
  intros (_ & _ & _ & _ & (Hc & _) & _). unfold data_capacity in Hc. lia.
Qed.

Lemma slot_at_slot_offset q addr i :
  queue_wf q -> Z.of_nat i < max_num_slots q ->
  slot_at q addr (addr + slot_offset (slot_size q) i) = Some i.
Proof.
  intros Hq Hi. pose proof (queue_wf_slot_size q Hq) as Hs.
  destruct Hq as (_ & Hn & _ & Hfit & _).
  unfold offsetof_df_queue_slot_data in Hs.
  unfold slot_at.
  rewrite (slot_offset_small _ (max_num_slots q)) by lia.
  replace (addr + (offsetof_df_queue_slots + Z.of_nat i * slot_size q)
           - (addr + offsetof_df_queue_slots))
    with (Z.of_nat i * slot_size q) by lia.
  rewrite Z.mod_mul by lia. rewrite Z.div_mul by lia.
  rewrite Nat2Z.id.
  replace (0 <=? Z.of_nat i * slot_size q) with true by (symmetry; apply Z.leb_le; nia).
  replace (0 <? slot_size q) with true by (symmetry; apply Z.ltb_lt; lia).
  reflexivity.
Qed.

(** With a well-formed endpoint, [ep->slots[ep->slot_index]] is the slot of
    the queue whose index is the cursor. *)
Lemma current_slot_wf q ep :
  queue_wf q -> ep_wf q ep ->
  exists s,
    slots q !! Z.to_nat (slot_index ep) = Some s
    /\ current_slot ep q
       = Some (ep_queue ep + slot_offset (slot_size q) (Z.to_nat (slot_index ep)),
               Z.to_nat (slot_index ep), s).
Proof.
  intros Hq (Ha & Hs & Hi).
  assert (Hlen : (Z.to_nat (slot_index ep) < length (slots q))%nat).
  { destruct Hq as (_ & _ & -> & _). lia. }
  destruct (lookup_lt_is_Some_2 _ _ Hlen) as [s Hsl].
  exists s. split; [assumption |].
  unfold current_slot.
  destruct (slot_index ep <? 0) eqn:E; [lia |].
  rewrite Hs, list_lookup_fmap, lookup_seq_lt by lia. cbn.
  rewrite slot_at_slot_offset by (try assumption; lia). cbn.
  rewrite Hsl. reflexivity.
Qed.

Lemma next_slot_index_wf q ep :
  queue_wf q -> ep_wf q ep ->
  next_slot_index ep q = Some ((slot_index ep + 1) mod max_num_slots q)
  /\ 0 <= (slot_index ep + 1) mod max_num_slots q < max_num_slots q.
Proof.
  intros (_ & Hn & _) (_ & _ & Hi).
  pose proof (Z.mod_pos_bound (slot_index ep + 1) (max_num_slots q) ltac:(lia)) as B.
  split; [| assumption].
  unfold next_slot_index, INT_MAX in *.
  replace (slot_index ep + 1 <=? 2 ^ 31 - 1) with true by (symmetry; apply Z.leb_le; lia).
  replace (max_num_slots q =? 0) with false by (symmetry; apply Z.eqb_neq; lia).
  cbn [andb negb]. f_equal.
  rewrite uint32_t_small by (unfold UINT32_MAX; lia).
  apply int_small. unfold INT_MAX. lia.
Qed.

(** ** Obtaining an endpoint *)

Lemma get_queue_ep_uninitialized malloc_ep malloc_slots addr q is_snd :
  addr <> NULL -> initialized q = 0 ->
  df_internal_get_queue_ep malloc_ep malloc_slots addr q is_snd = Returns (None, q).
Proof.
  intros Ha Hi. unfold df_internal_get_queue_ep.
  destruct (addr =? NULL) eqn:E; [apply Z.eqb_eq in E; contradiction |].
  rewrite Hi. reflexivity.
Qed.

Lemma get_queue_ep_some malloc_ep malloc_slots addr q is_snd ep q' :
  df_internal_get_queue_ep malloc_ep malloc_slots addr q is_snd
  = Returns (Some ep, q') ->
  initialized q <> 0 /\ malloc_ep = true /\ malloc_slots = true
  /\ max_num_slots q <= INT_MAX /\ q' = q
  /\ ep = {| slot_index := 0;
             ep_queue := addr;
             ep_slots := map (fun i => addr + slot_offset (slot_size q) i)
                             (seq 0 (Z.to_nat (max_num_slots q)));
             is_sender := is_snd |}.
Proof.
  unfold df_internal_get_queue_ep. intros H.
  destruct (addr =? NULL); [discriminate |].
  destruct (initialized q =? 0) eqn:Ei; [discriminate |].
  destruct malloc_ep; [| discriminate].
  destruct malloc_slots; [| discriminate].
  destruct (max_num_slots q <=? INT_MAX) eqn:En; [| discriminate].
  cbn in H. inversion H; subst.
  apply Z.eqb_neq in Ei. apply Z.leb_le in En. auto 10.
Qed.

Lemma get_queue_ep_returns addr q is_snd :
  addr <> NULL -> initialized q <> 0 -> max_num_slots q <= INT_MAX ->
  df_internal_get_queue_ep true true addr q is_snd
  = Returns (Some {| slot_index := 0;
                     ep_queue := addr;
                     ep_slots := map (fun i => addr + slot_offset (slot_size q) i)
                                     (seq 0 (Z.to_nat (max_num_slots q)));
                     is_sender := is_snd |}, q).
Proof.
  intros Ha Hi Hn. unfold df_internal_get_queue_ep.
  destruct (addr =? NULL) eqn:E; [apply Z.eqb_eq in E; contradiction |].
  destruct (initialized q =? 0) eqn:Ei; [apply Z.eqb_eq in Ei; contradiction |].
  destruct (max_num_slots q <=? INT_MAX) eqn:En; [reflexivity | lia].
Qed.

Lemma sender_ep_unfold malloc_ep malloc_slots addr q :
  addr <> NULL ->
  df_get_queue_sender_ep malloc_ep malloc_slots addr q
  = df_internal_get_queue_ep malloc_ep malloc_slots addr q 1.
Proof.
  intros Ha. unfold df_get_queue_sender_ep.
  destruct (addr =? NULL) eqn:E; [apply Z.eqb_eq in E; contradiction | reflexivity].
Qed.

Lemma receiver_ep_unfold malloc_ep malloc_slots addr q :
  addr <> NULL ->
  df_get_queue_receiver_ep malloc_ep malloc_slots addr q
  = df_internal_get_queue_ep malloc_ep malloc_slots addr q 0.
Proof.
  intros Ha. unfold df_get_queue_receiver_ep.
  destruct (addr =? NULL) eqn:E; [apply Z.eqb_eq in E; contradiction | reflexivity].
Qed.

(** C10.  On a queue whose [initialized] flag is 0, [df_get_queue_sender_ep]
    and [df_get_queue_receiver_ep] return [NULL] and leave the queue as it
    is.  An endpoint is returned only when the flag is set and both
    allocations succeed; it has [slot_index = 0], and the queue is left as
    it is.  With the flag set and both allocations succeeding, an endpoint
    is returned. *)
Theorem endpoint_only_for_initialized_queue malloc_ep malloc_slots addr q :
  addr <> NULL ->
  (initialized q = 0 ->
     df_get_queue_sender_ep malloc_ep malloc_slots addr q = Returns (None, q)
     /\ df_get_queue_receiver_ep malloc_ep malloc_slots addr q = Returns (None, q))
  /\ (forall ep q',
        df_get_queue_sender_ep malloc_ep malloc_slots addr q = Returns (Some ep, q')
        \/ df_get_queue_receiver_ep malloc_ep malloc_slots addr q = Returns (Some ep, q') ->
        initialized q <> 0 /\ malloc_ep = true /\ malloc_slots = true
        /\ slot_index ep = 0 /\ q' = q)
  /\ (initialized q <> 0 -> malloc_ep = true -> malloc_slots = true ->
      max_num_slots q <= INT_MAX ->
      exists eps epr,
        df_get_queue_sender_ep malloc_ep malloc_slots addr q = Returns (Some eps, q)
        /\ df_get_queue_receiver_ep malloc_ep malloc_slots addr q = Returns (Some epr, q)
        /\ slot_index eps = 0 /\ slot_index epr = 0
        /\ is_sender eps = 1 /\ is_sender epr = 0).
Proof.
  intros Ha.
  rewrite sender_ep_unfold, receiver_ep_unfold by assumption.
  split; [| split].
  - intros Hi. split; apply get_queue_ep_uninitialized; assumption.
  - intros ep q' [H | H];
      apply get_queue_ep_some in H as (Hi & Hm1 & Hm2 & _ & Hq & ->);
      cbn; auto.
  - intros Hi -> -> Hn.
    rewrite !get_queue_ep_returns by assumption.
    do 2 eexists. repeat split.
Qed.

Lemma endpoint_only_for_initialized_queue_witness :
  let q0 := {| initialized := 0; max_num_slots := 4; max_payload_size := 16;
               slot_size := 64; total_size := 328; slots := [] |} in
  df_get_queue_sender_ep true true 4096 q0 = Returns (None, q0)
  /\ df_get_queue_receiver_ep true true 4096 q0 = Returns (None, q0).
Proof.
  intros q0.
  apply (endpoint_only_for_initialized_queue true true 4096 q0); [discriminate | reflexivity].
Defined.

(** ** Payloads that are too large *)

Lemma vec_length_cons v vec : vec_length (v :: vec) = iov_len v + vec_length vec.
Proof. reflexivity. Qed.

Lemma vec_length_nonneg vec : vec_wf vec -> 0 <= vec_length vec.
Proof.
  induction 1 as [| v vec Hv _ IH]; [cbn; lia |].
  rewrite vec_length_cons. lia.
Qed.

Lemma iov_total_from vec : forall acc,
  vec_wf vec -> 0 <= acc -> acc + vec_length vec <= SIZE_MAX ->
  fold_left (fun size v => size_t (size + iov_len v)) vec acc
  = acc + vec_length vec.
Proof.
  induction vec as [| v vec IH]; intros acc Hwf Hacc Hfit.
  - cbn. lia.
  - inversion Hwf as [| ? ? Hv Hwf']; subst.
    pose proof (vec_length_nonneg vec Hwf').
    rewrite vec_length_cons in *. cbn [fold_left].
    rewrite size_t_small by lia.
    rewrite IH by (try assumption; lia). lia.
Qed.

(** Without wrap-around, the accumulated size is the total length. *)
Lemma iov_total_exact vec :
  vec_wf vec -> vec_length vec <= SIZE_MAX -> iov_total vec = vec_length vec.
Proof.
  intros Hwf Hfit. unfold iov_total.
  rewrite iov_total_from by (try assumption; lia). lia.
Qed.

(** The accumulated size is the total length modulo [2^64]. *)
Lemma iov_total_wraps vec : iov_total vec = size_t (vec_length vec).
Proof.
  unfold iov_total.
  assert (H : forall acc,
            size_t acc = acc ->
            fold_left (fun size v => size_t (size + iov_len v)) vec acc
            = size_t (acc + vec_length vec)).
  { induction vec as [| v vec IH]; intros acc Hacc.
    - cbn. rewrite Z.add_0_r. symmetry. exact Hacc.
    - cbn [fold_left]. rewrite IH.
      + rewrite size_t_add_l, vec_length_cons. f_equal. lia.
      + unfold size_t. apply Z.mod_mod. lia. }
  apply (H 0). reflexivity.
Qed.

Lemma enqueue_vector_with_too_large busy too_large mem ep q vec :
  ep_queue ep <> NULL -> initialized q <> 0 -> is_sender ep <> 0 ->
  max_payload_size q < iov_total vec ->
  enqueue_vector_with busy too_large mem ep q vec = Returns (too_large, ep, q).
Proof.
  intros Ha Hi Hs Hbig. unfold enqueue_vector_with.
  apply Z.eqb_neq in Ha, Hi, Hs. rewrite Ha, Hi, Hs. cbn [orb].
  destruct (iov_total vec <=? max_payload_size q) eqn:E; [lia | reflexivity].
Qed.

(** When the accumulated size is within the limit, the enqueue returns
    what it does on a slot that is not empty, or 0, and nothing else. *)
Lemma enqueue_vector_with_within busy too_large mem ep q vec rc ep' q' :
  iov_total vec <= max_payload_size q ->
  enqueue_vector_with busy too_large mem ep q vec = Returns (rc, ep', q') ->
  busy = Returns (rc, ep', q') \/ rc = 0.
Proof.
  intros Hfit. unfold enqueue_vector_with.
  destruct ((ep_queue ep =? NULL) || (initialized q =? 0) || (is_sender ep =? 0));
    [discriminate |].
  replace (iov_total vec <=? max_payload_size q) with true
    by (symmetry; apply Z.leb_le; exact Hfit).
  destruct (current_slot ep q) as [[[a i] s] |]; [| discriminate].
  destruct (negb (status s =? SLOT_EMPTY)); [intros H; left; exact H |].
  cbv zeta.
  destruct (copy_vector _ _ _ vec); [| discriminate].
  destruct (next_slot_index ep q); [| discriminate].
  intros H. inversion H; subst. right. reflexivity.
Qed.

(** C3, amended.  A payload whose total length exceeds [max_payload_size]
    makes the blocking enqueue return its error code [-1] and the
    non-blocking enqueue return [1]; the endpoint (and with it the cursor)
    and the queue (every slot's status, size and data) come back as they
    were.  This holds whatever the state of the slot under the cursor, so
    the blocking call does not spin.  For a vector the total length is the
    one that the code computes, the sum of the lengths in [size_t], that is
    modulo [2^64]: it is the sum itself when that is at most [SIZE_MAX].
    The two error codes are returned in no other case. *)
Theorem oversized_payload_is_rejected mem ep q :
  ep_queue ep <> NULL -> initialized q <> 0 -> is_sender ep <> 0 ->
  (forall vec,
     max_payload_size q < size_t (vec_length vec) ->
     df_enqueue_vector mem ep q vec = Returns (-1, ep, q)
     /\ df_try_enqueue_vector mem ep q vec = Returns (1, ep, q))
  /\ (forall vec,
        vec_wf vec -> vec_length vec <= SIZE_MAX ->
        max_payload_size q < vec_length vec ->
        df_enqueue_vector mem ep q vec = Returns (-1, ep, q)
        /\ df_try_enqueue_vector mem ep q vec = Returns (1, ep, q))
  /\ (forall data length,
        0 <= length <= SIZE_MAX ->
        max_payload_size q < length ->
        df_enqueue mem ep q data length = Returns (-1, ep, q)
        /\ df_try_enqueue mem ep q data length = Returns (1, ep, q))
  /\ (forall vec rc ep' q',
        (df_enqueue_vector mem ep q vec = Returns (rc, ep', q') -> rc = -1 ->
         max_payload_size q < size_t (vec_length vec))
        /\ (df_try_enqueue_vector mem ep q vec = Returns (rc, ep', q') -> rc = 1 ->
            max_payload_size q < size_t (vec_length vec))).
Proof.
  intros Ha Hi Hs.
  assert (Hmod : forall vec,
    max_payload_size q < size_t (vec_length vec) ->
    df_enqueue_vector mem ep q vec = Returns (-1, ep, q)
    /\ df_try_enqueue_vector mem ep q vec = Returns (1, ep, q)).
  { intros vec Hbig.
    unfold df_enqueue_vector, df_try_enqueue_vector.
    split; apply enqueue_vector_with_too_large; try assumption;
      rewrite iov_total_wraps; exact Hbig. }
  assert (Hvec : forall vec,
    vec_wf vec -> vec_length vec <= SIZE_MAX ->
    max_payload_size q < vec_length vec ->
    df_enqueue_vector mem ep q vec = Returns (-1, ep, q)
    /\ df_try_enqueue_vector mem ep q vec = Returns (1, ep, q)).
  { intros vec Hwf Hfit Hbig. apply Hmod.
    rewrite <- iov_total_wraps, iov_total_exact by assumption. exact Hbig. }
  split; [exact Hmod |]. split; [exact Hvec |]. split.
  - intros data length Hl Hbig. unfold df_enqueue, df_try_enqueue.
    apply Hvec.
    + constructor; [cbn; lia | constructor].
    + cbn. lia.
    + cbn. lia.
  - intros vec rc ep' q'.
    destruct (Z_lt_le_dec (max_payload_size q) (size_t (vec_length vec)))
      as [Hbig | Hfit]; [split; intros; exact Hbig |].
    rewrite <- iov_total_wraps in Hfit.
    split; intros Hrun Hrc; exfalso.
    + destruct (enqueue_vector_with_within _ _ _ _ _ _ _ _ _ Hfit Hrun)
        as [Hbusy | H0]; [discriminate | lia].
    + destruct (enqueue_vector_with_within _ _ _ _ _ _ _ _ _ Hfit Hrun)
        as [Hbusy | H0]; [| lia].
      inversion Hbusy. lia.
Qed.

(** ** The copy into the slot *)

Lemma length_read_bytes mem base len :
  length (read_bytes mem base len) = Z.to_nat len.
Proof. unfold read_bytes. rewrite length_map, length_seq. reflexivity. Qed.

Lemma length_splice d off src :
  (off + length src <= length d)%nat -> length (splice d off src) = length d.
Proof.
  intros H. unfold splice.
  rewrite !length_app, length_take, length_drop. lia.
Qed.

Lemma splice_splice d off a b :
  (off + length a <= length d)%nat ->
  splice (splice d off a) (off + length a) b = splice d off (a ++ b).
Proof.
  intros H. unfold splice.
  assert (Ht : length (take off d) = off) by (rewrite length_take; lia).
  rewrite (app_assoc (take off d) a).
  rewrite take_app_length' by (rewrite length_app; lia).
  rewrite drop_app_ge by (rewrite length_app; lia).
  rewrite length_app, Ht.
  rewrite drop_drop, length_app.
  rewrite <- !app_assoc. do 3 f_equal. f_equal. lia.
Qed.

Lemma splice_nil d off : splice d off [] = d.
Proof.
  unfold splice. cbn. rewrite Nat.add_0_r. apply take_drop.
Qed.

Lemma take_splice_0 d src : take (length src) (splice d 0 src) = src.
Proof. unfold splice. rewrite take_0. cbn [app]. apply take_app_length. Qed.

Lemma length_gather mem vec :
  vec_wf vec -> Z.of_nat (length (gather mem vec)) = vec_length vec.
Proof.
  induction 1 as [| v vec Hv _ IH]; [reflexivity |].
  unfold gather in *. cbn [flat_map].
  rewrite length_app, length_read_bytes, vec_length_cons. lia.
Qed.

(** In bounds, the copy loop stores the gathered payload at [dest]. *)
Lemma copy_vector_splice mem vec : forall d dest,
  vec_wf vec -> 0 <= dest ->
  dest + vec_length vec <= Z.of_nat (length d) ->
  copy_vector mem d dest vec = Some (splice d (Z.to_nat dest) (gather mem vec)).
Proof.
  induction vec as [| v vec IH]; intros d dest Hwf Hdest Hfit.
  - cbn. rewrite splice_nil. reflexivity.
  - inversion Hwf as [| ? ? Hv Hwf']; subst.
    pose proof (vec_length_nonneg vec Hwf') as Hnn.
    rewrite vec_length_cons in Hfit.
    cbn [copy_vector].
    replace (0 <=? iov_len v) with true by (symmetry; apply Z.leb_le; lia).
    replace (dest + iov_len v <=? Z.of_nat (length d)) with true
      by (symmetry; apply Z.leb_le; lia).
    cbn [andb].
    set (R := read_bytes mem (iov_base v) (iov_len v)).
    assert (HR : length R = Z.to_nat (iov_len v)) by apply length_read_bytes.
    replace (Z.to_nat (dest + iov_len v)) with (Z.to_nat dest + length R)%nat by lia.
    change (take (Z.to_nat dest) d ++ R ++ drop (Z.to_nat dest + length R) d)
      with (splice d (Z.to_nat dest) R).
    rewrite IH; try assumption; try lia.
    + replace (Z.to_nat (dest + iov_len v)) with (Z.to_nat dest + length R)%nat by lia.
      rewrite splice_splice by lia. reflexivity.
    + rewrite length_splice by lia. lia.
Qed.

(** ** The slots as bytes *)

Lemma length_store_le n x : length (store_le n x) = n.
Proof. revert x. induction n as [| n IH]; intros x; cbn; [| rewrite IH]; reflexivity. Qed.

Lemma load_store_le n : forall x,
  0 <= x < 256 ^ Z.of_nat n -> load_le (store_le n x) = x.
Proof.
  induction n as [| n IH]; intros x Hx.
  - cbn in *. lia.
  - rewrite Nat2Z.inj_succ, Z.pow_succ_r in Hx by lia.
    cbn [store_le load_le]. rewrite IH.
    + pose proof (Z.div_mod x 256 ltac:(lia)). lia.
    + split; [apply Z.div_pos; lia | apply Z.div_lt_upper_bound; lia].
Qed.

Lemma slots_bytes_cons s l : slots_bytes (s :: l) = slot_bytes s ++ slots_bytes l.
Proof. reflexivity. Qed.

Lemma slots_bytes_app l1 l2 :
  slots_bytes (l1 ++ l2) = slots_bytes l1 ++ slots_bytes l2.
Proof. unfold slots_bytes. rewrite map_app, concat_app. reflexivity. Qed.

(** The header of a slot: the bytes before its data area. *)
Lemma slot_bytes_header s :
  length (pad s) = pad_width ->
  exists hdr,
    length hdr = Z.to_nat offsetof_df_queue_slot_data
    /\ forall d,
         slot_bytes {| status := status s; pad := pad s; size := size s;
                       data := d |} = hdr ++ d.
Proof.
  intros Hpad.
  exists (store_le status_width (status s) ++ pad s
          ++ store_le size_width (size s)).
  split.
  - rewrite !length_app, !length_store_le, Hpad. reflexivity.
  - intros d. unfold slot_bytes. cbn [status pad size data].
    rewrite <- !app_assoc. reflexivity.
Qed.

Lemma slot_eta s :
  {| status := status s; pad := pad s; size := size s; data := data s |} = s.
Proof. destruct s. reflexivity. Qed.

Lemma length_slot_bytes s :
  length (pad s) = pad_width ->
  length (slot_bytes s)
  = (Z.to_nat offsetof_df_queue_slot_data + length (data s))%nat.
Proof.
  intros Hpad. destruct (slot_bytes_header s Hpad) as (hdr & Hlen & Hhdr).
  rewrite <- (slot_eta s) at 1. rewrite Hhdr, length_app, Hlen. reflexivity.
Qed.

Lemma slot_of_bytes_layout (A P S D : list Z) :
  length A = status_width -> length P = pad_width -> length S = size_width ->
  slot_of_bytes (A ++ P ++ S ++ D)
  = {| status := load_le A; pad := P; size := load_le S; data := D |}.
Proof.
  intros HA HP HS. unfold slot_of_bytes. f_equal.
  - rewrite take_app_length' by (symmetry; exact HA). reflexivity.
  - rewrite drop_app_length' by (symmetry; exact HA).
    apply take_app_length'. symmetry. exact HP.
  - rewrite (app_assoc A P).
    rewrite drop_app_length' by (rewrite length_app; lia).
    rewrite take_app_length' by (symmetry; exact HS). reflexivity.
  - rewrite (app_assoc A P), (app_assoc (A ++ P) S).
    apply drop_app_length'. rewrite !length_app. lia.
Qed.

Lemma slot_of_bytes_slot_bytes s :
  slot_header_wf s -> slot_of_bytes (slot_bytes s) = s.
Proof.
  intros (Hst & Hpad & Hsize). unfold slot_bytes.
  rewrite slot_of_bytes_layout by (try apply length_store_le; exact Hpad).
  rewrite !load_store_le.
  - apply slot_eta.
  - change (256 ^ Z.of_nat size_width) with 18446744073709551616.
    unfold SIZE_MAX in Hsize. lia.
  - change (256 ^ Z.of_nat status_width) with 4294967296.
    unfold SLOT_FULL, SLOT_EMPTY in Hst. lia.
Qed.

Lemma length_slots_bytes ssz ss :
  Forall (fun s => length (slot_bytes s) = ssz) ss ->
  length (slots_bytes ss) = (length ss * ssz)%nat.
Proof.
  induction 1 as [| s l Hs _ IH]; [reflexivity |].
  rewrite slots_bytes_cons, length_app, Hs, IH. cbn. lia.
Qed.

Lemma slots_of_bytes_slots_bytes ssz ss :
  Forall slot_header_wf ss ->
  Forall (fun s => length (slot_bytes s) = ssz) ss ->
  slots_of_bytes (length ss) ssz (slots_bytes ss) = ss.
Proof.
  intros Hhdr Hlen. induction ss as [| s l IH]; [reflexivity |].
  apply Forall_cons in Hhdr as [Hs Hhdr]. apply Forall_cons in Hlen as [Hl Hlen].
  rewrite slots_bytes_cons. cbn [length slots_of_bytes].
  rewrite take_app_length' by (symmetry; exact Hl).
  rewrite drop_app_length' by (symmetry; exact Hl).
  rewrite slot_of_bytes_slot_bytes by exact Hs.
  rewrite IH by assumption. reflexivity.
Qed.

Lemma splice_middle (P D B x : list Z) :
  (length x <= length D)%nat ->
  splice (P ++ D ++ B) (length P) x = P ++ splice D 0 x ++ B.
Proof.
  intros Hx. unfold splice.
  rewrite take_app_length, take_0. cbn [app Nat.add].
  rewrite drop_app_ge by lia.
  replace (length P + length x - length P)%nat with (length x) by lia.
  rewrite drop_app_le by lia. rewrite <- !app_assoc. reflexivity.
Qed.

(** The slots of a well-formed queue have [slot_size] bytes each. *)
Lemma queue_wf_slot_bytes q :
  queue_wf q ->
  Forall (fun s => length (slot_bytes s) = Z.to_nat (slot_size q)) (slots q).
Proof.
  intros (_ & _ & _ & _ & (Hcap & _) & Hdata & Hhdr).
  rewrite Forall_lookup in *. intros i s Hs.
  destruct (Hhdr _ _ Hs) as (_ & Hpad & _).
  rewrite length_slot_bytes by exact Hpad.
  specialize (Hdata _ _ Hs). cbn beta in Hdata.
  unfold data_capacity, offsetof_df_queue_slot_data in *. lia.
Qed.

(** Slot [i] within the bytes of the slots: what lies before it, its
    header, its data area, what lies behind it. *)
Lemma slots_bytes_at ssz ss i s :
  Forall slot_header_wf ss ->
  Forall (fun s => length (slot_bytes s) = ssz) ss ->
  ss !! i = Some s ->
  exists P B,
    length P = (i * ssz + Z.to_nat offsetof_df_queue_slot_data)%nat
    /\ forall d,
         slots_bytes (<[i := {| status := status s; pad := pad s;
                                size := size s; data := d |}]> ss)
         = P ++ d ++ B.
Proof.
  intros Hhdr Hlen Hs.
  assert (Hpad : length (pad s) = pad_width).
  { rewrite Forall_lookup in Hhdr. destruct (Hhdr _ _ Hs) as (_ & Hpad & _).
    exact Hpad. }
  destruct (slot_bytes_header s Hpad) as (hdr & Hhl & Hhd).
  exists (slots_bytes (take i ss) ++ hdr), (slots_bytes (drop (S i) ss)).
  split.
  - rewrite length_app, Hhl.
    rewrite (length_slots_bytes ssz) by (apply Forall_take; exact Hlen).
    rewrite length_take. apply lookup_lt_Some in Hs. f_equal. 
    replace (i `min` length ss)%nat with i by lia. reflexivity.
  - intros d. rewrite insert_take_drop by (apply lookup_lt_Some in Hs; exact Hs).
    rewrite slots_bytes_app, slots_bytes_cons, Hhd, <- !app_assoc. reflexivity.
Qed.

(** A store that stays within the data area of slot [i] changes that data
    area only. *)
Lemma store_in_data_area ssz ss i s x :
  Forall slot_header_wf ss ->
  Forall (fun s => length (slot_bytes s) = ssz) ss ->
  ss !! i = Some s -> (length x <= length (data s))%nat ->
  slots_of_bytes (length ss) ssz
    (splice (slots_bytes ss)
       (i * ssz + Z.to_nat offsetof_df_queue_slot_data) x)
  = <[i := {| status := status s; pad := pad s; size := size s;
              data := splice (data s) 0 x |}]> ss.
Proof.
  intros Hhdr Hlen Hs Hx.
  destruct (slots_bytes_at ssz ss i s Hhdr Hlen Hs) as (P & B & HP & Hat).
  pose proof (Hat (data s)) as Hold.
  rewrite slot_eta, list_insert_id in Hold by exact Hs.
  rewrite Hold, <- HP, splice_middle by exact Hx.
  rewrite <- Hat.
  set (s' := {| status := status s; pad := pad s; size := size s;
                data := splice (data s) 0 x |}).
  assert (Hs' : slot_header_wf s').
  { rewrite Forall_lookup in Hhdr. exact (Hhdr _ _ Hs). }
  assert (Hl' : length (slot_bytes s') = ssz).
  { rewrite Forall_lookup in Hlen. rewrite <- (Hlen _ _ Hs).
    destruct Hs' as (_ & Hpad & _).
    rewrite !length_slot_bytes by exact Hpad.
    cbn [data s']. rewrite length_splice by (cbn; lia). reflexivity. }
  rewrite <- (length_insert ss i s').
  apply slots_of_bytes_slots_bytes; apply Forall_insert; assumption.
Qed.

(** A read that stays within the data area of slot [i] finds the bytes of
    that data area. *)
Lemma read_in_data_area ssz ss i s len :
  Forall slot_header_wf ss ->
  Forall (fun s => length (slot_bytes s) = ssz) ss ->
  ss !! i = Some s -> (len <= length (data s))%nat ->
  take len (drop (i * ssz + Z.to_nat offsetof_df_queue_slot_data)
              (slots_bytes ss))
  = take len (data s).
Proof.
  intros Hhdr Hlen Hs Hl.
  destruct (slots_bytes_at ssz ss i s Hhdr Hlen Hs) as (P & B & HP & Hat).
  pose proof (Hat (data s)) as Hold.
  rewrite slot_eta, list_insert_id in Hold by exact Hs.
  rewrite Hold, <- HP, drop_app_length, take_app_le by exact Hl. reflexivity.
Qed.

(** ** The enqueue on an empty and on a full slot *)

Lemma enqueue_asserts ep q :
  queue_wf q -> ep_wf q ep -> is_sender ep <> 0 ->
  (ep_queue ep =? NULL) || (initialized q =? 0) || (is_sender ep =? 0) = false.
Proof.
  intros (Hi & _) (Ha & _) Hs.
  apply Z.eqb_neq in Hi, Ha, Hs. rewrite Hi, Ha, Hs. reflexivity.
Qed.

Lemma enqueue_vector_with_full busy too_large mem ep q vec s :
  queue_wf q -> ep_wf q ep -> is_sender ep <> 0 ->
  iov_total vec <= max_payload_size q ->
  slots q !! Z.to_nat (slot_index ep) = Some s -> status s = SLOT_FULL ->
  enqueue_vector_with busy too_large mem ep q vec = busy.
Proof.
  intros Hq Hep Hs Hfit Hsl Hst. unfold enqueue_vector_with.
  rewrite enqueue_asserts by assumption.
  replace (iov_total vec <=? max_payload_size q) with true
    by (symmetry; apply Z.leb_le; lia).
  destruct (current_slot_wf q ep Hq Hep) as (s' & Hsl' & ->).
  rewrite Hsl in Hsl'. inversion Hsl'; subst s'.
  rewrite Hst. reflexivity.
Qed.

(** The offset, from the first slot, of the data area of the slot under the
    cursor. *)
Lemma data_offset_of_cursor q ep :
  queue_wf q -> ep_wf q ep ->
  ep_queue ep + slot_offset (slot_size q) (Z.to_nat (slot_index ep))
    + offsetof_df_queue_slot_data - (ep_queue ep + offsetof_df_queue_slots)
  = Z.of_nat (Z.to_nat (slot_index ep) * Z.to_nat (slot_size q)
              + Z.to_nat offsetof_df_queue_slot_data).
Proof.
  intros Hq (_ & _ & Hi). pose proof (queue_wf_slot_size q Hq) as Hs.
  destruct Hq as (_ & Hn & _ & Hfit & _).
  unfold offsetof_df_queue_slot_data in *.
  rewrite (slot_offset_small _ (max_num_slots q)) by lia. nia.
Qed.

(** On an empty slot the enqueue of a payload that fits the data area
    stores the payload there, the size and the status. *)
Lemma enqueue_vector_with_empty busy too_large mem ep q vec s :
  queue_wf q -> ep_wf q ep -> is_sender ep <> 0 ->
  vec_wf vec -> vec_length vec <= max_payload_size q ->
  vec_length vec <= data_capacity q ->
  slots q !! Z.to_nat (slot_index ep) = Some s -> status s = SLOT_EMPTY ->
  enqueue_vector_with busy too_large mem ep q vec
  = Returns (0,
             set_slot_index ep ((slot_index ep + 1) mod max_num_slots q),
             set_slots q
               (<[Z.to_nat (slot_index ep) :=
                    {| status := SLOT_FULL;
                       pad := pad s;
                       size := vec_length vec;
                       data := splice (data s) 0 (gather mem vec) |}]> (slots q))).
Proof.
  intros Hq Hep Hs Hwf Hfit Hroom Hsl Hst. unfold enqueue_vector_with.
  rewrite enqueue_asserts by assumption.
  assert (Hcap : Z.of_nat (length (data s)) = data_capacity q).
  { destruct Hq as (_ & _ & _ & _ & _ & Hall & _).
    rewrite Forall_lookup in Hall. exact (Hall _ _ Hsl). }
  assert (Hp : max_payload_size q <= SIZE_MAX)
    by (destruct Hq as (_ & _ & _ & _ & (_ & Hp) & _); lia).
  pose proof (queue_wf_slot_bytes q Hq) as Hbytes.
  pose proof Hq as (_ & Hn & Hlen & _ & (Hcap0 & _) & _ & Hhdr).
  pose proof (length_gather mem vec Hwf) as Hg.
  pose proof (vec_length_nonneg vec Hwf) as Hnn.
  rewrite iov_total_exact by (try assumption; lia).
  replace (vec_length vec <=? max_payload_size q) with true
    by (symmetry; apply Z.leb_le; lia).
  destruct (current_slot_wf q ep Hq Hep) as (s' & Hsl' & ->).
  rewrite Hsl in Hsl'. inversion Hsl'; subst s'.
  rewrite Hst. cbn [Z.eqb SLOT_EMPTY negb Pos.eqb]. cbv zeta.
  destruct (next_slot_index_wf q ep Hq Hep) as [-> _].
  rewrite data_offset_of_cursor by assumption.
  set (i := Z.to_nat (slot_index ep)) in *.
  set (ssz := Z.to_nat (slot_size q)) in *.
  assert (Hi : (i < length (slots q))%nat) by (apply lookup_lt_Some in Hsl; exact Hsl).
  rewrite copy_vector_splice; [| assumption | lia |].
  2:{ rewrite (length_slots_bytes ssz) by exact Hbytes.
      unfold data_capacity, offsetof_df_queue_slot_data in *.
      assert (Hssz : Z.of_nat ssz = slot_size q) by (unfold ssz; lia).
      assert (Hi' : (i + 1 <= length (slots q))%nat) by lia.
      nia. }
  rewrite Nat2Z.id.
  rewrite (store_in_data_area ssz (slots q) i s) by (try assumption; lia).
  rewrite (list_insert_alter (slots q)), list_alter_alter_eq.
  rewrite list_insert_alter. reflexivity.
Qed.

(** ** The dequeue on an empty and on a full slot *)

Lemma dequeue_asserts ep q :
  queue_wf q -> ep_wf q ep -> is_sender ep = 0 ->
  (ep_queue ep =? NULL) || (initialized q =? 0) || negb (is_sender ep =? 0)
  = false.
Proof.
  intros (Hi & _) (Ha & _) Hs.
  apply Z.eqb_neq in Hi, Ha. rewrite Hi, Ha, Hs. reflexivity.
Qed.

Lemma dequeue_with_empty idle ep q s :
  queue_wf q -> ep_wf q ep -> is_sender ep = 0 ->
  slots q !! Z.to_nat (slot_index ep) = Some s -> status s = SLOT_EMPTY ->
  dequeue_with idle ep q = idle.
Proof.
  intros Hq Hep Hs Hsl Hst. unfold dequeue_with.
  rewrite dequeue_asserts by assumption.
  destruct (current_slot_wf q ep Hq Hep) as (s' & Hsl' & ->).
  rewrite Hsl in Hsl'. inversion Hsl'; subst s'.
  rewrite Hst. reflexivity.
Qed.

(** Behind the data pointer of slot [i], a process finds the first bytes of
    that slot's data area. *)
Lemma payload_at_data q addr i s len :
  queue_wf q -> slots q !! i = Some s ->
  0 <= len <= Z.of_nat (length (data s)) ->
  payload_at q addr
    (addr + slot_offset (slot_size q) i + offsetof_df_queue_slot_data) len
  = Some (take (Z.to_nat len) (data s)).
Proof.
  intros Hq Hs Hlen.
  pose proof (queue_wf_slot_bytes q Hq) as Hbytes.
  pose proof (queue_wf_slot_size q Hq) as Hssz.
  pose proof Hq as (_ & Hn & Hl & Hfit & (Hcap0 & _) & Hdata & Hhdr).
  assert (Hi : (i < length (slots q))%nat) by (apply lookup_lt_Some in Hs; exact Hs).
  assert (Hd : Z.of_nat (length (data s)) = data_capacity q).
  { rewrite Forall_lookup in Hdata. exact (Hdata _ _ Hs). }
  unfold payload_at. cbv zeta.
  unfold offsetof_df_queue_slot_data in *.
  rewrite (slot_offset_small _ (max_num_slots q)) by lia.
  replace (addr + (offsetof_df_queue_slots + Z.of_nat i * slot_size q) + 16
           - (addr + offsetof_df_queue_slots))
    with (Z.of_nat (i * Z.to_nat (slot_size q) + 16)) by nia.
  rewrite (length_slots_bytes (Z.to_nat (slot_size q))) by exact Hbytes.
  replace (0 <=? Z.of_nat (i * Z.to_nat (slot_size q) + 16)) with true
    by (symmetry; apply Z.leb_le; lia).
  replace (0 <=? len) with true by (symmetry; apply Z.leb_le; lia).
  replace (Z.of_nat (i * Z.to_nat (slot_size q) + 16) + len
           <=? Z.of_nat (length (slots q) * Z.to_nat (slot_size q))) with true.
  2:{ symmetry. apply Z.leb_le.
      unfold data_capacity, offsetof_df_queue_slot_data in *.
      assert (Hk : Z.of_nat (Z.to_nat (slot_size q)) = slot_size q) by lia.
      assert (Hi' : Z.of_nat i + 1 <= Z.of_nat (length (slots q))) by lia.
      rewrite Nat2Z.inj_add, !Nat2Z.inj_mul, Hk. nia. }
  cbn [andb]. rewrite Nat2Z.id. f_equal.
  change 16%nat with (Z.to_nat offsetof_df_queue_slot_data).
  apply (read_in_data_area (Z.to_nat (slot_size q)) (slots q) i s);
    try assumption. lia.
Qed.

Lemma dequeue_with_full idle ep q s :
  queue_wf q -> ep_wf q ep -> is_sender ep = 0 ->
  slots q !! Z.to_nat (slot_index ep) = Some s -> status s = SLOT_FULL ->
  dequeue_with idle ep q
  = Returns (0, Some (ep_queue ep
                      + slot_offset (slot_size q) (Z.to_nat (slot_index ep))
                      + offsetof_df_queue_slot_data,
                      size s)).
Proof.
  intros Hq Hep Hs Hsl Hst. unfold dequeue_with.
  rewrite dequeue_asserts by assumption.
  destruct (current_slot_wf q ep Hq Hep) as (s' & Hsl' & ->).
  rewrite Hsl in Hsl'. inversion Hsl'; subst s'.
  rewrite Hst. reflexivity.
Qed.

(** ** Return codes of the non-blocking calls *)

(** The headers of the slots of a queue that is given slot by slot. *)
Ltac slot_headers :=
  repeat first
    [ apply Forall_nil_2
    | apply Forall_cons_2;
      [ split; [first [left; reflexivity | right; reflexivity]
               | split; [reflexivity | split; vm_compute; discriminate]] | ] ].

Lemma tiny_queue_full_wf :
  queue_wf tiny_queue_full /\ slots_hold_max_payload tiny_queue_full
  /\ ep_wf tiny_queue_full tiny_sender.
Proof.
  unfold queue_wf, slots_hold_max_payload, ep_wf. cbn.
  repeat split; try discriminate; try reflexivity;
    [repeat constructor | slot_headers].
Qed.

Lemma tiny_queue_wf :
  queue_wf tiny_queue /\ slots_hold_max_payload tiny_queue
  /\ ep_wf tiny_queue tiny_sender /\ ep_wf tiny_queue tiny_receiver.
Proof.
  unfold queue_wf, slots_hold_max_payload, ep_wf. cbn.
  repeat split; try discriminate; try reflexivity;
    [repeat constructor | slot_headers].
Qed.




(** C3, the claim as stated fails: two buffers of [2^63] bytes each add
    up to more than the limit of 16 bytes, yet on a full slot the blocking
    enqueue of that vector spins and the non-blocking one returns [-1]: the
    sum that the code compares with the limit is 0. *)
Lemma wrapped_sum_is_not_rejected :
  ~ oversized_vector_is_rejected.
Proof.
  intros H.
  assert (Hwf : vec_wf wrapping_vector)
    by (repeat constructor; cbn; unfold SIZE_MAX; lia).
  assert (Hbig : max_payload_size tiny_queue_full < vec_length wrapping_vector)
    by (vm_compute; reflexivity).
  destruct (H zero_memory tiny_sender tiny_queue_full wrapping_vector
              ltac:(discriminate) ltac:(discriminate) ltac:(discriminate)
              Hwf Hbig) as [Hblock _].
  vm_compute in Hblock. discriminate.
Qed.

Lemma oversized_payload_is_rejected_witness :
  df_enqueue zero_memory tiny_sender tiny_queue_full 0 200
  = Returns (-1, tiny_sender, tiny_queue_full)
  /\ df_try_enqueue zero_memory tiny_sender tiny_queue 0 200
     = Returns (1, tiny_sender, tiny_queue).
Proof.
  split.
  - apply (oversized_payload_is_rejected zero_memory tiny_sender tiny_queue_full);
      try discriminate; try reflexivity; vm_compute; split; discriminate.
  - apply (oversized_payload_is_rejected zero_memory tiny_sender tiny_queue);
      try discriminate; try reflexivity; vm_compute; split; discriminate.
Defined.

(** ** FIFO delivery *)

Lemma mod_window_inj (n k1 k2 : nat) :
  (0 < n)%nat -> (k1 mod n = k2 mod n)%nat -> (k1 <= k2 < k1 + n)%nat -> k1 = k2.
Proof.
  intros Hn Hm Hk.
  pose proof (Nat.div_mod_eq k1 n) as E1.
  pose proof (Nat.div_mod_eq k2 n) as E2.
  rewrite Hm in E1.
  assert (Hq : (k1 / n <= k2 / n)%nat) by (apply Nat.Div0.div_le_mono; lia).
  revert E1 E2 Hq.
  generalize (k1 / n)%nat (k2 / n)%nat (k2 mod n)%nat. intros q1 q2 r E1 E2 Hq.
  assert (q2 < q1 + 1)%nat by nia.
  assert (q1 = q2) by lia. subst. lia.
Qed.

Lemma cursor_advance (n k : nat) :
  (0 < n)%nat ->
  (Z.of_nat (k mod n) + 1) mod Z.of_nat n = Z.of_nat (S k mod n).
Proof.
  intros Hn.
  rewrite !Nat2Z.inj_mod.
  rewrite Z.add_mod_idemp_l by lia.
  f_equal. lia.
Qed.

Lemma queue_wf_set_slots q ss :
  queue_wf q ->
  length ss = length (slots q) ->
  Forall (fun s => Z.of_nat (length (data s)) = data_capacity q) ss ->
  Forall slot_header_wf ss ->
  queue_wf (set_slots q ss).
Proof.
  intros (Hi & Hn & Hl & Hfit & Hp & Hall & Hhdr) Hlen Hss Hhs.
  unfold queue_wf, data_capacity in *. cbn.
  repeat split; try assumption; try lia.
Qed.

(** Storing into the slot under a cursor keeps the queue well formed when
    the slot keeps its padding and the size of its data area, and receives
    one of the two status values and a [size_t] size. *)
Lemma queue_wf_update q i s s' :
  queue_wf q -> slots q !! i = Some s ->
  (status s' = SLOT_FULL \/ status s' = SLOT_EMPTY) ->
  pad s' = pad s -> 0 <= size s' <= SIZE_MAX ->
  length (data s') = length (data s) ->
  queue_wf (set_slots q (<[i := s']> (slots q))).
Proof.
  intros Hq Hs Hst Hpad Hsize Hdata.
  pose proof Hq as (_ & _ & _ & _ & _ & Hall & Hhdr).
  rewrite Forall_lookup in Hall, Hhdr.
  apply queue_wf_set_slots; [assumption | apply length_insert | |].
  - apply Forall_insert; [apply Forall_lookup; exact Hall |].
    cbn beta. rewrite Hdata. apply (Hall _ _ Hs).
  - apply Forall_insert; [apply Forall_lookup; exact Hhdr |].
    destruct (Hhdr _ _ Hs) as (_ & Hp & _).
    split; [exact Hst |]. split; [rewrite Hpad; exact Hp | exact Hsize].
Qed.

Lemma ep_wf_set q ss ep j :
  ep_wf q ep -> 0 <= j < max_num_slots q ->
  ep_wf (set_slots q ss) (set_slot_index ep j).
Proof.
  intros (Ha & Hs & Hi) Hj. unfold ep_wf. cbn. auto.
Qed.

(** A queue that [df_create_queue] has built is well-formed, with every
    slot empty; its slots hold a maximal payload when the payload limit
    leaves room for the slot overhead and the rounding. *)
Lemma created_queue_wf raw addr n p q :
  df_create_queue raw addr n p = Returns q ->
  p <= SIZE_MAX ->
  queue_wf q
  /\ Forall (fun s => status s = SLOT_EMPTY /\ size s = 0) (slots q)
  /\ (p + sizeof_df_queue_slot + CACHE_LINE_SIZE <= SIZE_MAX ->
      slots_hold_max_payload q).
Proof.
  intros Hq Hp.
  apply df_create_queue_fields in Hq
    as (Hn & Hp0 & Ha & Hi & Hmax & Hpay & Hs & Ht & Hhdr & Hfit & Hsl).
  rewrite df_calculate_slot_size_roundup in Hs by assumption.
  unfold queue_wf, slots_hold_max_payload, data_capacity.
  rewrite Hi, Hmax, Hpay, Hsl.
  unfold offsetof_df_queue_slot_data, sizeof_df_queue_slot in *.
  split; [| split].
  - repeat split; try lia.
    + rewrite length_map, length_seq. reflexivity.
    + apply Forall_forall. intros s Hin.
      apply list_elem_of_In, in_map_iff in Hin. destruct Hin as (i & <- & _).
      cbn. rewrite length_read_bytes.
      unfold offsetof_df_queue_slot_data. lia.
    + apply Forall_forall. intros s Hin.
      apply list_elem_of_In, in_map_iff in Hin. destruct Hin as (i & <- & _).
      split; [right; reflexivity |].
      split; [cbn; rewrite length_read_bytes; reflexivity |].
      cbn. unfold SIZE_MAX. lia.
  - apply Forall_forall. intros s Hin.
    apply list_elem_of_In, in_map_iff in Hin.
    destruct Hin as (i & <- & _). split; reflexivity.
  - intros Hrange.
    pose proof (roundup_least (16 + p) CACHE_LINE_SIZE ltac:(reflexivity))
      as (_ & R & _).
    rewrite size_t_small in Hs
      by (unfold CACHE_LINE_SIZE, SIZE_MAX in *; lia).
    inversion Hs as [Hs']. lia.
Qed.

Lemma fifo_inv_initial raw addr n p q addr_s addr_r eps epr :
  df_create_queue raw addr n p = Returns q ->
  p <= SIZE_MAX ->
  df_get_queue_sender_ep true true addr_s q = Returns (Some eps, q) ->
  df_get_queue_receiver_ep true true addr_r q = Returns (Some epr, q) ->
  fifo_inv (Z.to_nat n) p (data_capacity q)
    {| queue := q; sender := eps; receiver := epr |} 0 0 [].
Proof.
  intros Hq Hp Hs Hr.
  destruct (created_queue_wf _ _ _ _ _ Hq Hp) as (Hwf & Hempty & _).
  apply df_create_queue_fields in Hq
    as (Hn & Hp0 & Ha & Hi & Hmax & Hpay & _ & _ & _ & _ & Hsl).
  assert (Has : addr_s <> NULL).
  { intros ->. unfold df_get_queue_sender_ep, NULL in Hs. cbn in Hs. discriminate. }
  assert (Har : addr_r <> NULL).
  { intros ->. unfold df_get_queue_receiver_ep, NULL in Hr. cbn in Hr. discriminate. }
  rewrite sender_ep_unfold in Hs by assumption.
  rewrite receiver_ep_unfold in Hr by assumption.
  apply get_queue_ep_some in Hs as (_ & _ & _ & _ & _ & ->).
  apply get_queue_ep_some in Hr as (_ & _ & _ & _ & _ & ->).
  unfold fifo_inv. cbn [queue sender receiver].
  assert (Hnn : (0 < Z.to_nat n)%nat) by lia.
  rewrite Nat.Div0.mod_0_l.
  split; [exact Hwf |].
  split; [split; [lia | split; [assumption | reflexivity]] |].
  split; [unfold ep_wf; cbn; repeat split; try assumption; try lia; discriminate |].
  split; [unfold ep_wf; cbn; repeat split; try assumption; lia |].
  split; [lia |]. split; [reflexivity |].
  intros k Hk.
  assert (Hlt : (k mod Z.to_nat n < length (slots q))%nat).
  { destruct Hwf as (_ & _ & -> & _). rewrite Hmax.
    apply Nat.mod_upper_bound. lia. }
  destruct (lookup_lt_is_Some_2 _ _ Hlt) as [s Hsk].
  exists s. split; [assumption |].
  rewrite Forall_lookup in Hempty. destruct (Hempty _ _ Hsk) as [Hst _].
  exact Hst.
Qed.

Lemma fifo_inv_positive n p cap sys E D X :
  fifo_inv n p cap sys E D X -> (0 < n)%nat.
Proof.
  intros ((_ & Hn & _) & (Hmax & _) & _). lia.
Qed.

Lemma fifo_inv_payload_limit n p cap sys E D X :
  fifo_inv n p cap sys E D X -> 0 <= p <= SIZE_MAX.
Proof.
  intros ((_ & _ & _ & _ & (_ & Hp) & _) & (_ & Hpay & _) & _). lia.
Qed.

(** With [n] payloads unreleased, the slot under the producer's cursor is
    full and the blocking enqueue spins. *)
Lemma fifo_enqueue_full n p cap sys E D X mem vec :
  fifo_inv n p cap sys E D X -> E = (D + n)%nat ->
  vec_wf vec -> vec_length vec <= p ->
  df_enqueue_vector mem (sender sys) (queue sys) vec = Spins.
Proof.
  intros Hinv HE Hwf Hlen.
  pose proof (fifo_inv_positive _ _ _ _ _ _ _ Hinv) as Hn.
  pose proof (fifo_inv_payload_limit _ _ _ _ _ _ _ Hinv) as Hp.
  destruct Hinv as (Hq & (Hmax & Hpay & Hcap) & (Hs & Hsnd & His) & _
                    & HDE & HX & Hslots).
  destruct (Hslots D ltac:(lia)) as (s & Hsl & Hst).
  replace (D <? E)%nat with true in Hst by (symmetry; apply Nat.ltb_lt; lia).
  destruct Hst as (x & _ & Hfull & _).
  unfold df_enqueue_vector.
  apply (enqueue_vector_with_full _ _ _ _ _ _ s); try assumption.
  - rewrite iov_total_exact by (try assumption; lia). lia.
  - rewrite His, Nat2Z.id, HE.
    replace ((D + n) mod n)%nat with (D mod n)%nat
      by (rewrite <- (Nat.Div0.mod_add D 1 n); f_equal; lia).
    exact Hsl.
Qed.

(** With room, the enqueue stores the payload and keeps the invariant,
    on a queue whose slots hold a maximal payload. *)
Lemma fifo_enqueue n p cap sys E D X mem vec :
  fifo_inv n p cap sys E D X -> p <= cap -> (E < D + n)%nat ->
  vec_wf vec -> vec_length vec <= p ->
  exists ep' q',
    df_enqueue_vector mem (sender sys) (queue sys) vec = Returns (0, ep', q')
    /\ fifo_inv n p cap {| queue := q'; sender := ep'; receiver := receiver sys |}
         (S E) D (X ++ [gather mem vec]).
Proof.
  intros Hinv Hhold Hroom Hwf Hlen.
  pose proof (fifo_inv_positive _ _ _ _ _ _ _ Hinv) as Hn.
  pose proof (fifo_inv_payload_limit _ _ _ _ _ _ _ Hinv) as Hplim.
  destruct Hinv as (Hq & (Hmax & Hpay & Hcap) & (Hs & Hsnd & His)
                    & (Hr & Hrcv & Hir) & HDE & HX & Hslots).
  destruct (Hslots E ltac:(lia)) as (s & Hsl & Hst).
  rewrite Nat.ltb_irrefl in Hst.
  assert (Hidx : Z.to_nat (slot_index (sender sys)) = (E mod n)%nat)
    by (rewrite His; apply Nat2Z.id).
  assert (Hdata : Z.of_nat (length (data s)) = cap).
  { destruct Hq as (_ & _ & _ & _ & _ & Hall & _).
    rewrite Forall_lookup in Hall. rewrite (Hall _ _ Hsl). exact Hcap. }
  pose proof (length_gather mem vec Hwf) as Hglen.
  pose proof (vec_length_nonneg vec Hwf) as Hnn.
  do 2 eexists. split.
  - unfold df_enqueue_vector.
    rewrite (enqueue_vector_with_empty _ _ _ _ _ _ s); try assumption; try lia.
    + reflexivity.
    + rewrite Hidx. exact Hsl.
  - assert (Hg : (length (gather mem vec) <= length (data s))%nat) by lia.
    rewrite Hidx. unfold fifo_inv. cbn [queue sender receiver].
    split.
    { apply (queue_wf_update _ _ s); try assumption; cbn.
      - left. reflexivity.
      - reflexivity.
      - lia.
      - apply length_splice. cbn. lia. }
    split; [split; [exact Hmax | split; [exact Hpay | exact Hcap]] |].
    split.
    { split; [| split; [exact Hsnd |]].
      - apply ep_wf_set; [assumption |].
        apply Z.mod_pos_bound. lia.
      - cbn. rewrite His, Hmax. apply cursor_advance. assumption. }
    split; [split; [exact Hr | split; assumption] |].
    split; [lia |].
    split; [rewrite length_app; cbn; lia |].
    intros k Hk. cbn [set_slots slots].
    destruct (Nat.eq_dec k E) as [-> | Hne].
    + eexists. split.
      * apply list_lookup_insert_eq. apply lookup_lt_Some in Hsl. exact Hsl.
      * replace (E <? S E)%nat with true by (symmetry; apply Nat.ltb_lt; lia).
        exists (gather mem vec). split.
        -- rewrite lookup_app_r by lia. rewrite HX, Nat.sub_diag. reflexivity.
        -- unfold slot_holds. cbn.
           split; [reflexivity |]. split.
           ++ symmetry. apply length_gather. assumption.
           ++ apply take_splice_0.
    + destruct (Hslots k Hk) as (s' & Hsl' & Hst').
      exists s'. split.
      * rewrite list_lookup_insert_ne; [exact Hsl' |].
        intros Heq.
        destruct (Nat.lt_ge_cases k E).
        -- apply Hne. apply (mod_window_inj n); try lia.
        -- apply Hne. symmetry. apply (mod_window_inj n); try lia.
      * destruct (k <? E)%nat eqn:EkE.
        -- apply Nat.ltb_lt in EkE.
           replace (k <? S E)%nat with true by (symmetry; apply Nat.ltb_lt; lia).
           destruct Hst' as (x & Hx & Hh). exists x. split; [| exact Hh].
           rewrite lookup_app_l by lia. exact Hx.
        -- apply Nat.ltb_ge in EkE.
           replace (k <? S E)%nat with false by (symmetry; apply Nat.ltb_ge; lia).
           exact Hst'.
Qed.

(** With nothing pending, the slot under the consumer's cursor is empty and
    the blocking dequeue spins. *)
Lemma fifo_dequeue_empty n p cap sys E D X :
  fifo_inv n p cap sys E D X -> D = E ->
  df_dequeue (receiver sys) (queue sys) = Spins.
Proof.
  intros Hinv HDE'.
  pose proof (fifo_inv_positive _ _ _ _ _ _ _ Hinv) as Hn.
  destruct Hinv as (Hq & _ & _ & (Hr & Hrcv & Hir) & HDE & HX & Hslots).
  destruct (Hslots D ltac:(lia)) as (s & Hsl & Hst).
  replace (D <? E)%nat with false in Hst by (symmetry; apply Nat.ltb_ge; lia).
  unfold df_dequeue.
  apply (dequeue_with_empty _ _ _ s); try assumption.
  rewrite Hir, Nat2Z.id. exact Hsl.
Qed.

(** A dequeue with a payload pending returns the oldest unreleased payload. *)
Lemma fifo_dequeue n p cap sys E D X :
  fifo_inv n p cap sys E D X -> (D < E)%nat ->
  exists x ptr len,
    X !! D = Some x
    /\ df_dequeue (receiver sys) (queue sys) = Returns (0, Some (ptr, len))
    /\ payload_at (queue sys) (ep_queue (receiver sys)) ptr len = Some x
    /\ len = Z.of_nat (length x).
Proof.
  intros Hinv Hpending.
  pose proof (fifo_inv_positive _ _ _ _ _ _ _ Hinv) as Hn.
  destruct Hinv as (Hq & _ & (Hs & Hsnd & His) & (Hr & Hrcv & Hir)
                    & HDE & HX & Hslots).
  destruct (Hslots D ltac:(lia)) as (s & Hsl & Hst).
  replace (D <? E)%nat with true in Hst by (symmetry; apply Nat.ltb_lt; lia).
  destruct Hst as (x & Hx & Hfull & Hsize & Htake).
  assert (Hidx : Z.to_nat (slot_index (receiver sys)) = (D mod n)%nat)
    by (rewrite Hir; apply Nat2Z.id).
  assert (Hxlen : (length x <= length (data s))%nat).
  { rewrite <- Htake at 1. rewrite length_take. lia. }
  exists x. do 2 eexists. split; [exact Hx |]. split.
  - unfold df_dequeue.
    apply (dequeue_with_full _ _ _ s); try assumption.
    rewrite Hidx. exact Hsl.
  - split; [| exact Hsize].
    rewrite Hidx.
    rewrite (payload_at_data _ _ _ s) by (try assumption; lia).
    rewrite Hsize, Nat2Z.id, Htake. reflexivity.
Qed.

(** A release with a payload pending completes and keeps the invariant. *)
Lemma fifo_release n p cap sys E D X :
  fifo_inv n p cap sys E D X -> (D < E)%nat ->
  exists ep' q',
    df_release (receiver sys) (queue sys) = Returns (ep', q')
    /\ fifo_inv n p cap {| queue := q'; sender := sender sys; receiver := ep' |}
         E (S D) X.
Proof.
  intros Hinv Hpending.
  pose proof (fifo_inv_positive _ _ _ _ _ _ _ Hinv) as Hn.
  destruct Hinv as (Hq & (Hmax & Hpay & Hcap) & (Hs & Hsnd & His)
                    & (Hr & Hrcv & Hir) & HDE & HX & Hslots).
  destruct (Hslots D ltac:(lia)) as (s & Hsl & Hst).
  assert (Hidx : Z.to_nat (slot_index (receiver sys)) = (D mod n)%nat)
    by (rewrite Hir; apply Nat2Z.id).
  destruct (current_slot_wf _ _ Hq Hr) as (s' & Hsl' & Hcur).
  rewrite Hidx, Hsl in Hsl'. inversion Hsl'; subst s'.
  destruct (next_slot_index_wf _ _ Hq Hr) as [Hnext Hrange].
  do 2 eexists. split.
  - unfold df_release. rewrite dequeue_asserts by assumption.
    rewrite Hcur, Hnext. reflexivity.
  - rewrite Hidx. unfold fifo_inv. cbn [queue sender receiver].
    split.
    { apply (queue_wf_update _ _ s); try assumption; cbn;
        [right; reflexivity | reflexivity | unfold SIZE_MAX; lia | reflexivity]. }
    split; [split; [exact Hmax | split; [exact Hpay | exact Hcap]] |].
    split; [split; [exact Hs | split; assumption] |].
    split.
    { split; [| split; [exact Hrcv |]].
      - apply ep_wf_set; assumption.
      - cbn. rewrite Hir, Hmax. apply cursor_advance. assumption. }
    split; [lia |]. split; [exact HX |].
    intros k Hk. cbn [set_slots slots].
    destruct (Nat.eq_dec k (D + n)%nat) as [-> | Hne].
    + eexists. split.
      * replace ((D + n) mod n)%nat with (D mod n)%nat
          by (rewrite <- (Nat.Div0.mod_add D 1 n); f_equal; lia).
        apply list_lookup_insert_eq. apply lookup_lt_Some in Hsl. exact Hsl.
      * replace (D + n <? E)%nat with false by (symmetry; apply Nat.ltb_ge; lia).
        reflexivity.
    + destruct (Hslots k ltac:(lia)) as (s1 & Hsl1 & Hst1).
      exists s1. split; [| exact Hst1].
      rewrite list_lookup_insert_ne; [exact Hsl1 |].
      intros Heq. assert (D = k) by (apply (mod_window_inj n); lia). lia.
Qed.

Lemma payloads_fit_tail p o ops : payloads_fit p (o :: ops) -> payloads_fit p ops.
Proof. intros H mem vec Hin. exact (H mem vec (or_intror Hin)). Qed.

(** Every call of an admissible schedule completes, provided the slots hold
    a maximal payload.  [holding] tells whether the consumer has dequeued,
    and not yet released, payload number [D]. *)
Lemma run_schedule n p cap ops : forall sys E D X (holding : bool),
  fifo_inv n p cap sys E D X ->
  p <= cap ->
  payloads_fit p ops ->
  schedule_ok n (E - D) holding ops = true ->
  exists sys' outs, run sys ops = Some (sys', outs).
Proof.
  induction ops as [| o ops IH]; intros sys E D X holding Hinv Hcap Hfit Hok.
  - exists sys, []. reflexivity.
  - pose proof Hinv as (_ & _ & _ & _ & HDE & HX & _).
    pose proof (payloads_fit_tail _ _ _ Hfit) as Hfit'.
    destruct o as [mem vec | |]; cbn [schedule_ok] in Hok.
    + apply andb_prop in Hok as [Hroom Hok]. apply Nat.ltb_lt in Hroom.
      destruct (Hfit mem vec (or_introl eq_refl)) as [Hwf Hlen].
      destruct (fifo_enqueue n p cap sys E D X mem vec Hinv Hcap ltac:(lia) Hwf Hlen)
        as (ep' & q' & Henq & Hinv').
      replace (S (E - D)) with (S E - D)%nat in Hok by lia.
      destruct (IH _ _ _ _ _ Hinv' Hcap Hfit' Hok)
        as (sys' & outs & Hrun).
      exists sys', outs. cbn [run]. rewrite Henq. exact Hrun.
    + apply andb_prop in Hok as [Hok1 Hok]. apply andb_prop in Hok1 as [Hh Hpend].
      apply Nat.ltb_lt in Hpend.
      destruct (fifo_dequeue n p cap sys E D X Hinv ltac:(lia))
        as (x & ptr & len & Hx & Hdeq & Hpay & _).
      destruct (IH _ _ _ _ true Hinv Hcap Hfit' Hok) as (sys' & outs & Hrun).
      exists sys', (x :: outs). cbn [run].
      rewrite Hdeq. cbn. rewrite Hpay, Hrun. reflexivity.
    + apply andb_prop in Hok as [Hok1 Hok]. apply andb_prop in Hok1 as [Hh Hpend].
      apply Nat.ltb_lt in Hpend.
      destruct (fifo_release n p cap sys E D X Hinv ltac:(lia))
        as (ep' & q' & Hrel & Hinv').
      replace (Nat.pred (E - D)) with (E - S D)%nat in Hok by lia.
      destruct (IH _ _ _ _ false Hinv' Hcap Hfit' Hok) as (sys' & outs & Hrun).
      exists sys', outs. cbn [run]. rewrite Hrel. exact Hrun.
Qed.

(** When every call of a schedule has completed, the schedule was
    admissible, and the dequeues have seen the payloads in the order of
    their enqueues. *)
Lemma run_completed n p cap ops : forall sys E D X (holding : bool) sys' outs,
  fifo_inv n p cap sys E D X ->
  p <= cap ->
  payloads_fit p ops ->
  pairs_ok holding ops = true ->
  (holding = true -> (D < E)%nat) ->
  run sys ops = Some (sys', outs) ->
  schedule_ok n (E - D) holding ops = true
  /\ length outs = dequeues ops
  /\ outs = take (dequeues ops)
              (drop (D + (if holding then 1 else 0))%nat (X ++ enqueued ops)).
Proof.
  induction ops as [| o ops IH];
    intros sys E D X holding sys' outs Hinv Hcap Hfit Hpairs Hhold Hrun.
  - cbn in Hrun. inversion Hrun; subst. cbn. repeat split.
  - pose proof Hinv as (_ & _ & _ & _ & HDE & HX & _).
    pose proof (payloads_fit_tail _ _ _ Hfit) as Hfit'.
    destruct o as [mem vec | |]; cbn [pairs_ok] in Hpairs;
      cbn [run schedule_ok dequeues enqueued] in *.
    + destruct (Hfit mem vec (or_introl eq_refl)) as [Hwf Hlen].
      destruct (Nat.eq_dec E (D + n)%nat) as [Hfull | Hroom].
      { rewrite (fifo_enqueue_full n p cap sys E D X mem vec Hinv Hfull Hwf Hlen)
          in Hrun. discriminate. }
      destruct (fifo_enqueue n p cap sys E D X mem vec Hinv Hcap ltac:(lia) Hwf Hlen)
        as (ep' & q' & Henq & Hinv').
      rewrite Henq in Hrun. cbn in Hrun.
      destruct (IH _ _ _ _ holding _ _ Hinv' Hcap Hfit' Hpairs
                  ltac:(intros Hh; specialize (Hhold Hh); lia) Hrun)
        as (Hok & Hlen' & Houts).
      replace (S E - D)%nat with (S (E - D)) in Hok by lia.
      split; [| split; [exact Hlen' |]].
      * apply andb_true_intro. split; [apply Nat.ltb_lt; lia | exact Hok].
      * rewrite Houts, <- app_assoc. reflexivity.
    + apply andb_prop in Hpairs as [Hh Hpairs].
      apply negb_true_iff in Hh. subst holding.
      destruct (Nat.eq_dec D E) as [Hnone | Hsome].
      { rewrite (fifo_dequeue_empty n p cap sys E D X Hinv Hnone) in Hrun.
        discriminate. }
      destruct (fifo_dequeue n p cap sys E D X Hinv ltac:(lia))
        as (x & ptr & len & Hx & Hdeq & Hpay & _).
      rewrite Hdeq in Hrun. cbn in Hrun. rewrite Hpay in Hrun.
      destruct (run sys ops) as [[sys1 outs1] |] eqn:Hrun1; [| discriminate].
      inversion Hrun; subst sys' outs.
      destruct (IH _ _ _ _ true _ _ Hinv Hcap Hfit' Hpairs ltac:(lia) Hrun1)
        as (Hok & Hlen' & Houts).
      split; [| split; [cbn; lia |]].
      * apply andb_true_intro. split; [| exact Hok].
        apply andb_true_intro. split; [reflexivity | apply Nat.ltb_lt; lia].
      * rewrite Nat.add_0_r.
        rewrite (drop_S _ x D) by (rewrite lookup_app_l by lia; exact Hx).
        cbn. rewrite Houts. do 3 f_equal. lia.
    + apply andb_prop in Hpairs as [Hh Hpairs]. subst holding.
      specialize (Hhold eq_refl).
      destruct (fifo_release n p cap sys E D X Hinv Hhold)
        as (ep' & q' & Hrel & Hinv').
      rewrite Hrel in Hrun.
      destruct (IH _ _ _ _ false _ _ Hinv' Hcap Hfit' Hpairs
                  ltac:(discriminate) Hrun)
        as (Hok & Hlen' & Houts).
      replace (E - S D)%nat with (Nat.pred (E - D)) in Hok by lia.
      split; [| split; [exact Hlen' |]].
      * apply andb_true_intro. split; [| exact Hok].
        apply andb_true_intro. split; [reflexivity | apply Nat.ltb_lt; lia].
      * rewrite Houts. do 2 f_equal. lia.
Qed.

Lemma get_queue_ep_allocated (get : bool -> bool -> Z -> df_queue ->
                                    outcome (option df_queue_ep * df_queue))
    is_snd :
  (forall m1 m2 addr q, addr <> NULL ->
     get m1 m2 addr q = df_internal_get_queue_ep m1 m2 addr q is_snd) ->
  (forall m1 m2 q, get m1 m2 NULL q = Faults) ->
  forall m1 m2 addr q ep,
    get m1 m2 addr q = Returns (Some ep, q) ->
    get true true addr q = Returns (Some ep, q).
Proof.
  intros Hunfold Hnull m1 m2 addr q ep H.
  assert (Ha : addr <> NULL).
  { intros ->. rewrite Hnull in H. discriminate. }
  rewrite Hunfold in * by assumption.
  apply get_queue_ep_some in H as (Hi & _ & _ & Hn & _ & ->).
  apply get_queue_ep_returns; assumption.
Qed.

(** A payload limit that the slots of a created queue hold is a [size_t]
    value. *)
Lemma created_limit_fits raw addr n p q :
  df_create_queue raw addr n p = Returns q ->
  slots_hold_max_payload q -> p <= SIZE_MAX.
Proof.
  intros Hq Hhold.
  apply df_create_queue_fields in Hq
    as (Hn & _ & _ & _ & _ & Hpay & _ & _ & _ & Hfit & _).
  unfold slots_hold_max_payload, data_capacity, offsetof_df_queue_slot_data,
    sizeof_df_queue in *.
  rewrite Hpay in Hhold.
  destruct (Z_lt_le_dec (slot_size q) 0); [unfold SIZE_MAX; lia | nia].
Qed.

(** The invariant on a new queue with new endpoints, whatever the
    allocations of the endpoints were. *)
Lemma fifo_inv_created raw addr n p q m1 m2 m3 m4 addr_s addr_r eps epr :
  df_create_queue raw addr n p = Returns q ->
  slots_hold_max_payload q ->
  df_get_queue_sender_ep m1 m2 addr_s q = Returns (Some eps, q) ->
  df_get_queue_receiver_ep m3 m4 addr_r q = Returns (Some epr, q) ->
  fifo_inv (Z.to_nat n) p (data_capacity q)
    {| queue := q; sender := eps; receiver := epr |} 0 0 []
  /\ p <= data_capacity q.
Proof.
  intros Hq Hhold Hs Hr.
  pose proof (created_limit_fits _ _ _ _ _ Hq Hhold) as Hp.
  assert (Hs' : df_get_queue_sender_ep true true addr_s q = Returns (Some eps, q)).
  { apply (get_queue_ep_allocated df_get_queue_sender_ep 1) with (m1 := m1) (m2 := m2);
      [intros; apply sender_ep_unfold; assumption | reflexivity | exact Hs]. }
  assert (Hr' : df_get_queue_receiver_ep true true addr_r q = Returns (Some epr, q)).
  { apply (get_queue_ep_allocated df_get_queue_receiver_ep 0) with (m1 := m3) (m2 := m4);
      [intros; apply receiver_ep_unfold; assumption | reflexivity | exact Hr]. }
  split; [exact (fifo_inv_initial _ _ _ _ _ _ _ _ _ Hq Hp Hs' Hr') |].
  apply df_create_queue_fields in Hq as (_ & _ & _ & _ & _ & Hpay & _).
  unfold slots_hold_max_payload in Hhold. rewrite Hpay in Hhold. exact Hhold.
Qed.

(** C1, the claim as stated fails.  On the two-slot queue created with
    [max_payload_size = SIZE_MAX], whose slots have 64 bytes, the enqueue of 52
    bytes passes the size test and its copy runs over the 48 bytes of the
    data area into the status word of the next slot, which still reads
    empty; the enqueue of one more byte marks that slot full; the dequeue
    then returns length 52 and a pointer behind which bytes 48 to 51 are the
    status word of the next slot, not the payload. *)
Lemma fifo_fails_when_slot_size_wraps :
  ~ fifo_delivery_for_every_limit.
Proof.
  intros H.
  assert (Hfit : payloads_fit SIZE_MAX spill_schedule).
  { intros mem vec Hin. unfold spill_schedule in Hin. cbn in Hin.
    repeat match goal with
           | H : _ \/ _ |- _ => destruct H as [H | H]
           | H : Enqueue _ _ = Enqueue _ _ |- _ => inversion H; subst; clear H
           | H : Dequeue = _ |- _ => discriminate H
           | H : False |- _ => contradiction
           end;
      (split; [repeat constructor; cbn; unfold SIZE_MAX; lia
              | cbn; unfold SIZE_MAX; lia]). }
  destruct (run {| queue := wrapped_queue; sender := wrapped_sender;
                   receiver := wrapped_receiver |} spill_schedule)
    as [[sys' outs] |] eqn:Hrun; [| vm_compute in Hrun; discriminate].
  specialize (H zero_memory 4096 2 SIZE_MAX wrapped_queue true true true true
                4096 8192 wrapped_sender wrapped_receiver spill_schedule
                sys' outs eq_refl ltac:(lia) eq_refl eq_refl Hfit eq_refl Hrun).
  vm_compute in Hrun. injection Hrun as _ Houts.
  rewrite <- Houts in H. vm_compute in H. discriminate H.
Qed.

(** C1, amended.  FIFO delivery.  Take a queue created with [n] slots and
    payload limit [p] whose slots hold [p] bytes (as they do whenever [p]
    leaves room in [size_t] for the slot overhead and the rounding:
    [created_queue_wf]), a sender and a receiver endpoint on it (which may
    map the queue at different addresses), and a schedule of enqueues,
    dequeues and releases in which every enqueue carries at most [p] bytes
    and the consumer alternates dequeue and release.  If every call of the
    schedule completes, each enqueue and dequeue returning 0, then the bytes
    behind the pointers and lengths that the dequeues return are the
    enqueued payloads, in the order of the enqueues, with the same lengths
    and contents.  The calls do complete on every schedule in which each
    dequeue comes after the matching enqueue and at most [n] payloads are
    unreleased.  Calls are atomic steps of a sequentially consistent
    interleaving. *)
Theorem fifo_delivery raw addr n p q m1 m2 m3 m4 addr_s addr_r eps epr ops :
  df_create_queue raw addr n p = Returns q ->
  slots_hold_max_payload q ->
  df_get_queue_sender_ep m1 m2 addr_s q = Returns (Some eps, q) ->
  df_get_queue_receiver_ep m3 m4 addr_r q = Returns (Some epr, q) ->
  payloads_fit p ops ->
  let sys := {| queue := q; sender := eps; receiver := epr |} in
  (pairs_ok false ops = true ->
   forall sys' outs,
     run sys ops = Some (sys', outs) ->
     length outs = dequeues ops
     /\ outs = take (dequeues ops) (enqueued ops))
  /\ (schedule_ok (Z.to_nat n) 0 false ops = true ->
      exists sys' outs, run sys ops = Some (sys', outs)).
Proof.
  intros Hq Hhold Hs Hr Hfit sys.
  destruct (fifo_inv_created _ _ _ _ _ _ _ _ _ _ _ _ _ Hq Hhold Hs Hr)
    as [Hinv Hcap].
  split.
  - intros Hpairs sys' outs Hrun.
    destruct (run_completed _ _ _ ops _ 0%nat 0%nat [] false sys' outs
                Hinv Hcap Hfit Hpairs ltac:(discriminate) Hrun)
      as (_ & Hlen & Houts).
    split; [exact Hlen | exact Houts].
  - intros Hok.
    exact (run_schedule _ _ _ ops _ 0%nat 0%nat [] false Hinv Hcap Hfit Hok).
Qed.

(** The slots of the two-slot queue of the examples hold its payload
    limit. *)
Lemma pair_queue_holds : slots_hold_max_payload pair_queue.
Proof.
  destruct (created_queue_wf zero_memory 4096 2 16 pair_queue eq_refl)
    as (_ & _ & Hhold); [vm_compute; discriminate |].
  apply Hhold. vm_compute. discriminate.
Qed.

Lemma fifo_delivery_witness :
  exists sys' outs,
    run {| queue := pair_queue; sender := pair_sender; receiver := pair_receiver |}
        pair_schedule = Some (sys', outs)
    /\ length outs = 3%nat
    /\ outs = [ [1; 2; 3]; [10; 11; 20; 21]; [] ].
Proof.
  assert (Hfit : payloads_fit 16 pair_schedule).
  { intros mem vec Hin. unfold pair_schedule in Hin. cbn in Hin.
    repeat match goal with
           | H : _ \/ _ |- _ => destruct H as [H | H]
           | H : Enqueue _ _ = Enqueue _ _ |- _ => inversion H; subst; clear H
           | H : Dequeue = _ |- _ => discriminate H
           | H : Release = _ |- _ => discriminate H
           | H : False |- _ => contradiction
           end;
      (split; [repeat constructor; cbn; unfold SIZE_MAX; lia | cbn; lia]). }
  destruct (fifo_delivery zero_memory 4096 2 16 pair_queue true true true true
              4096 8192 pair_sender pair_receiver pair_schedule
              eq_refl pair_queue_holds eq_refl eq_refl Hfit)
    as [Hcompleted Hcompletes].
  destruct (Hcompletes eq_refl) as (sys' & outs & Hrun).
  exists sys', outs. split; [exact Hrun |].
  exact (Hcompleted eq_refl sys' outs Hrun).
Defined.

(** ** Occupancy of the queue after a schedule *)

Lemma run_keeps_fifo_inv n p cap ops : forall sys E D X (holding : bool) sys' outs,
  fifo_inv n p cap sys E D X ->
  p <= cap ->
  payloads_fit p ops ->
  pairs_ok holding ops = true ->
  (holding = true -> (D < E)%nat) ->
  run sys ops = Some (sys', outs) ->
  fifo_inv n p cap sys' (E + enqueues ops) (D + releases ops) (X ++ enqueued ops).
Proof.
  induction ops as [| o ops IH];
    intros sys E D X holding sys' outs Hinv Hcap Hfit Hpairs Hhold Hrun.
  - cbn in Hrun. inversion Hrun; subst. cbn.
    rewrite !Nat.add_0_r, app_nil_r. exact Hinv.
  - pose proof (payloads_fit_tail _ _ _ Hfit) as Hfit'.
    destruct o as [mem vec | |]; cbn [pairs_ok] in Hpairs;
      cbn [run enqueues releases enqueued] in *.
    + destruct (Hfit mem vec (or_introl eq_refl)) as [Hwf Hlen].
      destruct (Nat.eq_dec E (D + n)%nat) as [Hfull | Hroom].
      { rewrite (fifo_enqueue_full n p cap sys E D X mem vec Hinv Hfull Hwf Hlen)
          in Hrun. discriminate. }
      pose proof Hinv as (_ & _ & _ & _ & HDE & _).
      destruct (fifo_enqueue n p cap sys E D X mem vec Hinv Hcap ltac:(lia) Hwf Hlen)
        as (ep' & q' & Henq & Hinv').
      rewrite Henq in Hrun. cbn in Hrun.
      pose proof (IH _ _ _ _ holding _ _ Hinv' Hcap Hfit' Hpairs
                  ltac:(intros Hh; specialize (Hhold Hh); lia) Hrun) as Hend.
      rewrite <- app_assoc in Hend. cbn in Hend.
      replace (E + S (enqueues ops))%nat with (S E + enqueues ops)%nat by lia.
      exact Hend.
    + apply andb_prop in Hpairs as [Hh Hpairs].
      apply negb_true_iff in Hh. subst holding.
      destruct (Nat.eq_dec D E) as [Hnone | Hsome].
      { rewrite (fifo_dequeue_empty n p cap sys E D X Hinv Hnone) in Hrun.
        discriminate. }
      pose proof Hinv as (_ & _ & _ & _ & HDE & _).
      destruct (fifo_dequeue n p cap sys E D X Hinv ltac:(lia))
        as (x & ptr & len & Hx & Hdeq & Hpay & _).
      rewrite Hdeq in Hrun. cbn in Hrun. rewrite Hpay in Hrun.
      destruct (run sys ops) as [[sys1 outs1] |] eqn:Hrun1; [| discriminate].
      inversion Hrun; subst sys' outs.
      apply (IH _ _ _ _ true _ _ Hinv Hcap Hfit' Hpairs ltac:(lia) Hrun1).
    + apply andb_prop in Hpairs as [Hh Hpairs]. subst holding.
      specialize (Hhold eq_refl).
      destruct (fifo_release n p cap sys E D X Hinv Hhold)
        as (ep' & q' & Hrel & Hinv').
      rewrite Hrel in Hrun.
      pose proof (IH _ _ _ _ false _ _ Hinv' Hcap Hfit' Hpairs
                  ltac:(discriminate) Hrun) as Hend.
      replace (D + S (releases ops))%nat with (S D + releases ops)%nat by lia.
      exact Hend.
Qed.

(** The slot under the producer's cursor is empty exactly when fewer than
    [n] payloads are unreleased; the slot under the consumer's cursor is
    full exactly when some payload is unreleased. *)
Lemma fifo_inv_sender_slot n p cap sys E D X :
  fifo_inv n p cap sys E D X ->
  exists s,
    slots (queue sys) !! Z.to_nat (slot_index (sender sys)) = Some s
    /\ status s = (if (E <? D + n)%nat then SLOT_EMPTY else SLOT_FULL).
Proof.
  intros Hinv. pose proof (fifo_inv_positive _ _ _ _ _ _ _ Hinv) as Hn.
  destruct Hinv as (_ & _ & (_ & _ & Hidx) & _ & HDE & _ & Hslots).
  rewrite Hidx, Nat2Z.id.
  destruct (E <? D + n)%nat eqn:Hroom.
  - apply Nat.ltb_lt in Hroom.
    destruct (Hslots E ltac:(lia)) as (s & Hs & Hst).
    rewrite Nat.ltb_irrefl in Hst. exists s. split; assumption.
  - apply Nat.ltb_ge in Hroom. assert (E = (D + n)%nat) by lia. subst E.
    destruct (Hslots D ltac:(lia)) as (s & Hs & Hst).
    replace (D <? D + n)%nat with true in Hst by (symmetry; apply Nat.ltb_lt; lia).
    destruct Hst as (x & _ & Hfull & _).
    exists s. split; [| exact Hfull].
    replace ((D + n) mod n)%nat with (D mod n)%nat; [exact Hs |].
    rewrite <- (Nat.Div0.add_mod_idemp_r D n n), Nat.Div0.mod_same, Nat.add_0_r.
    reflexivity.
Qed.

Lemma fifo_inv_receiver_slot n p cap sys E D X :
  fifo_inv n p cap sys E D X ->
  exists s,
    slots (queue sys) !! Z.to_nat (slot_index (receiver sys)) = Some s
    /\ status s = (if (D <? E)%nat then SLOT_FULL else SLOT_EMPTY).
Proof.
  intros Hinv. pose proof (fifo_inv_positive _ _ _ _ _ _ _ Hinv) as Hn.
  destruct Hinv as (_ & _ & _ & (_ & _ & Hidx) & HDE & _ & Hslots).
  rewrite Hidx, Nat2Z.id.
  destruct (Hslots D ltac:(lia)) as (s & Hs & Hst).
  exists s. split; [exact Hs |].
  destruct (D <? E)%nat; [| exact Hst].
  destruct Hst as (x & _ & Hfull & _). exact Hfull.
Qed.

Lemma is_enqueue_possible_wf q ep s :
  queue_wf q -> ep_wf q ep ->
  slots q !! Z.to_nat (slot_index ep) = Some s ->
  df_is_enqueue_possible ep q
  = Returns (if status s =? SLOT_EMPTY then 1 else 0).
Proof.
  intros Hq Hep Hs.
  destruct (current_slot_wf q ep Hq Hep) as (s' & Hs' & Hcur).
  rewrite Hs in Hs'. inversion Hs'; subst s'.
  unfold df_is_enqueue_possible. rewrite Hcur.
  destruct Hq as (Hinit & _). destruct Hep as (Hnull & _).
  apply Z.eqb_neq in Hinit, Hnull. rewrite Hinit, Hnull. reflexivity.
Qed.

Lemma is_dequeue_possible_wf q ep s :
  queue_wf q -> ep_wf q ep -> is_sender ep = 0 ->
  slots q !! Z.to_nat (slot_index ep) = Some s ->
  df_is_dequeue_possible ep q
  = Returns (if status s =? SLOT_FULL then 1 else 0).
Proof.
  intros Hq Hep Hrecv Hs.
  destruct (current_slot_wf q ep Hq Hep) as (s' & Hs' & Hcur).
  rewrite Hs in Hs'. inversion Hs'; subst s'.
  unfold df_is_dequeue_possible. rewrite Hcur.
  rewrite (dequeue_asserts ep q Hq Hep Hrecv). reflexivity.
Qed.

(** The state that a schedule reaches from a new queue with new
    endpoints. *)
Lemma reached_state raw addr n p q m1 m2 m3 m4 addr_s addr_r eps epr ops sys' outs :
  df_create_queue raw addr n p = Returns q ->
  slots_hold_max_payload q ->
  df_get_queue_sender_ep m1 m2 addr_s q = Returns (Some eps, q) ->
  df_get_queue_receiver_ep m3 m4 addr_r q = Returns (Some epr, q) ->
  payloads_fit p ops ->
  pairs_ok false ops = true ->
  run {| queue := q; sender := eps; receiver := epr |} ops = Some (sys', outs) ->
  fifo_inv (Z.to_nat n) p (data_capacity q) sys'
    (enqueues ops) (releases ops) (enqueued ops).
Proof.
  intros Hq Hp Hs Hr Hfit Hpairs Hrun.
  destruct (fifo_inv_created _ _ _ _ _ _ _ _ _ _ _ _ _ Hq Hp Hs Hr)
    as [Hinv Hcap].
  exact (run_keeps_fifo_inv _ _ _ ops _ 0%nat 0%nat [] false sys' outs
           Hinv Hcap Hfit Hpairs ltac:(discriminate) Hrun).
Qed.


Lemma example_schedules_fit :
  payloads_fit 16 filling_schedule /\ payloads_fit 16 draining_schedule.
Proof.
  split; intros mem vec Hin; cbn in Hin;
    repeat match goal with
           | H : _ \/ _ |- _ => destruct H as [H | H]
           | H : Enqueue _ _ = Enqueue _ _ |- _ => inversion H; subst; clear H
           | H : Dequeue = _ |- _ => discriminate H
           | H : Release = _ |- _ => discriminate H
           | H : False |- _ => contradiction
           end;
    (split; [repeat constructor; cbn; unfold SIZE_MAX; lia | cbn; lia]).
Qed.




(** Without that proviso the probes can misreport.  On the two-slot queue
    created with [max_payload_size = SIZE_MAX], whose slots have 64 bytes,
    the enqueue of 52 zero bytes runs over the data area and clears the
    status word of the next slot; after the dequeue and the release of that
    payload nothing is unreleased, and yet [df_is_dequeue_possible] returns
    1 and [df_try_dequeue] returns 0 on the next slot. *)
Lemma overrun_makes_the_probes_misreport :
  exists sys' outs,
    run {| queue := wrapped_queue; sender := wrapped_sender;
           receiver := wrapped_receiver |}
      [ Enqueue zero_memory [ {| iov_base := 0; iov_len := 52 |} ];
        Dequeue; Release ] = Some (sys', outs)
    /\ df_is_dequeue_possible (receiver sys') (queue sys') = Returns 1
    /\ df_try_dequeue (receiver sys') (queue sys') = Returns (0, Some (8344, 0)).
Proof. do 2 eexists. split; [vm_compute; reflexivity |]. split; reflexivity. Qed.

(** ** Where the slots lie *)

Lemma get_queue_ep_either m1 m2 base q ep q' :
  df_get_queue_sender_ep m1 m2 base q = Returns (Some ep, q')
  \/ df_get_queue_receiver_ep m1 m2 base q = Returns (Some ep, q') ->
  base <> NULL
  /\ exists is_snd,
       df_internal_get_queue_ep m1 m2 base q is_snd = Returns (Some ep, q').
Proof.
  unfold df_get_queue_sender_ep, df_get_queue_receiver_ep.
  destruct (base =? NULL) eqn:Hnull.
  - intros [H | H]; discriminate.
  - apply Z.eqb_neq in Hnull. intros [H | H]; (split; [exact Hnull |]); eauto.
Qed.

(** X3.  For a payload limit that leaves room in [size_t] for the slot
    overhead and the rounding, the queue that [df_create_queue] builds has a
    slot size that is a multiple of [CACHE_LINE_SIZE], holds the slot
    overhead and the payload limit, and wastes less than one cacheline;
    its total size is what [df_calculate_queue_size] reports; and the
    slot addresses that an endpoint caches are [slot_size] apart, start
    behind the header and end within [total_size] bytes of the address at
    which the endpoint's process sees the queue. *)
Theorem slots_tile_the_queue_buffer raw addr n p q :
  df_create_queue raw addr n p = Returns q ->
  p + sizeof_df_queue_slot + CACHE_LINE_SIZE <= SIZE_MAX ->
  slot_size q mod CACHE_LINE_SIZE = 0
  /\ sizeof_df_queue_slot + p <= slot_size q
       < sizeof_df_queue_slot + p + CACHE_LINE_SIZE
  /\ total_size q = sizeof_df_queue + n * slot_size q
  /\ df_calculate_queue_size n p = Returns (total_size q)
  /\ forall m1 m2 base ep q',
       df_get_queue_sender_ep m1 m2 base q = Returns (Some ep, q')
       \/ df_get_queue_receiver_ep m1 m2 base q = Returns (Some ep, q') ->
       Z.of_nat (length (ep_slots ep)) = n
       /\ forall i a,
            ep_slots ep !! i = Some a ->
            a = base + sizeof_df_queue + Z.of_nat i * slot_size q
            /\ base + sizeof_df_queue <= a
            /\ a + slot_size q <= base + total_size q.
Proof.
  intros Hq Hrange.
  destruct (df_create_queue_fields _ _ _ _ _ Hq)
    as (Hn & Hp & Haddr & Hinit & Hmax & Hpay & Hslot & Htotal & Hmin & Hfit & Hslots).
  rewrite df_calculate_slot_size_roundup in Hslot by assumption.
  rewrite df_calculate_queue_size_roundup in Htotal by lia.
  assert (Hs : size_t (roundup (sizeof_df_queue_slot + p) CACHE_LINE_SIZE)
               = slot_size q) by congruence.
  assert (Ht : size_t (sizeof_df_queue
                       + n * roundup (sizeof_df_queue_slot + p) CACHE_LINE_SIZE)
               = total_size q) by congruence.
  clear Hslot Htotal.
  destruct (roundup_least (sizeof_df_queue_slot + p) CACHE_LINE_SIZE)
    as (Hdiv & Hbounds & _); [reflexivity |].
  assert (Hsmall : size_t (roundup (sizeof_df_queue_slot + p) CACHE_LINE_SIZE)
                   = roundup (sizeof_df_queue_slot + p) CACHE_LINE_SIZE).
  { apply size_t_small. unfold sizeof_df_queue_slot in *. lia. }
  rewrite Hsmall in Hs.
  assert (Htot : total_size q = sizeof_df_queue + n * slot_size q).
  { rewrite <- Ht. rewrite <- Hs. apply size_t_small.
    rewrite <- Hs in Hfit. unfold sizeof_df_queue, sizeof_df_queue_slot in *.
    nia. }
  split.
  { rewrite <- Hs. destruct Hdiv as [k ->]. apply Z_mod_mult. }
  split; [rewrite <- Hs; lia |].
  split; [exact Htot |].
  split.
  { rewrite df_calculate_queue_size_roundup by lia. rewrite Ht. reflexivity. }
  intros m1 m2 base ep q' Hep.
  destruct (get_queue_ep_either _ _ _ _ _ _ Hep) as (Hbase & is_snd & Hget).
  destruct (get_queue_ep_some _ _ _ _ _ _ _ Hget)
    as (_ & _ & _ & _ & _ & ->).
  cbn [ep_slots]. rewrite Hmax.
  split; [rewrite length_map, length_seq; lia |].
  intros i a Ha.
  rewrite list_lookup_fmap in Ha.
  destruct (seq 0 (Z.to_nat n) !! i) as [j |] eqn:Hj; [| discriminate].
  apply lookup_seq in Hj as [-> Hi]. cbn in Ha. inversion Ha as [Ha'].
  rewrite slot_offset_small with (n := n);
    [| unfold sizeof_df_queue_slot in *; lia | exact Hfit | lia].
  unfold offsetof_df_queue_slots, sizeof_df_queue, sizeof_df_queue_slot in *.
  split; [lia |]. split; [nia |]. rewrite Htot. nia.
Qed.

Lemma slots_tile_the_queue_buffer_witness :
  slot_size pair_queue = 64
  /\ total_size pair_queue = 200
  /\ ep_slots pair_receiver = [8264; 8328].
Proof.
  destruct (slots_tile_the_queue_buffer zero_memory 4096 2 16 pair_queue
              eq_refl ltac:(vm_compute; discriminate))
    as (_ & _ & Htot & _ & Hep).
  destruct (Hep true true 8192 pair_receiver pair_queue (or_intror eq_refl))
    as (_ & Hslots).
  split; [reflexivity |]. split; [exact Htot |].
  pose proof (Hslots 0%nat 8264 eq_refl) as (H0 & _).
  pose proof (Hslots 1%nat 8328 eq_refl) as (H1 & _).
  reflexivity.
Defined.

(** ** One enqueue, one release, and a destroyed queue *)

Lemma drop_splice_0 d src :
  (length src <= length d)%nat ->
  drop (length src) (splice d 0 src) = drop (length src) d.
Proof.
  intros Hlen. unfold splice. rewrite take_0. cbn [app Nat.add].
  rewrite drop_app_length. reflexivity.
Qed.

(** X4.  On a well-formed queue whose slot under the producer's cursor is
    empty, [df_enqueue_vector] and [df_try_enqueue_vector] of a vector
    within the payload limit return 0; the cursor moves on by one modulo the
    number of slots; the header and every other slot stay as they were; the
    slot under the cursor becomes full, its padding stays as it was, its
    size is the total length, its data holds the buffers of the vector back
    to back and, behind them, the bytes it held before; queue and endpoint
    stay well formed.
    [df_enqueue] of one buffer with the same bytes has the same result. *)
Theorem enqueue_fills_only_the_cursor_slot mem ep q vec s :
  queue_wf q -> slots_hold_max_payload q -> ep_wf q ep -> is_sender ep <> 0 ->
  vec_wf vec -> vec_length vec <= max_payload_size q ->
  slots q !! Z.to_nat (slot_index ep) = Some s -> status s = SLOT_EMPTY ->
  exists ep' q' s',
    df_enqueue_vector mem ep q vec = Returns (0, ep', q')
    /\ df_try_enqueue_vector mem ep q vec = Returns (0, ep', q')
    /\ slot_index ep' = (slot_index ep + 1) mod max_num_slots q
    /\ ep_queue ep' = ep_queue ep /\ ep_slots ep' = ep_slots ep
    /\ same_header q q'
    /\ (forall j, j <> Z.to_nat (slot_index ep) -> slots q' !! j = slots q !! j)
    /\ slots q' !! Z.to_nat (slot_index ep) = Some s'
    /\ status s' = SLOT_FULL
    /\ pad s' = pad s
    /\ size s' = vec_length vec
    /\ take (Z.to_nat (vec_length vec)) (data s') = gather mem vec
    /\ drop (Z.to_nat (vec_length vec)) (data s')
       = drop (Z.to_nat (vec_length vec)) (data s)
    /\ queue_wf q' /\ ep_wf q' ep'
    /\ (forall mem2 b,
          read_bytes mem2 b (vec_length vec) = gather mem vec ->
          df_enqueue mem2 ep q b (vec_length vec) = Returns (0, ep', q')).
Proof.
  intros Hq Hhold Hep Hsnd Hvec Hlen Hs Hst.
  pose proof (length_gather mem vec Hvec) as Hg.
  pose proof (vec_length_nonneg vec Hvec) as Hnn.
  assert (Hdata : Z.of_nat (length (data s)) = data_capacity q).
  { destruct Hq as (_ & _ & _ & _ & _ & Hall & _).
    rewrite Forall_lookup in Hall. apply (Hall _ _ Hs). }
  unfold slots_hold_max_payload in Hhold.
  assert (Hcap : vec_length vec <= data_capacity q) by lia.
  assert (Hglen : Z.to_nat (vec_length vec) = length (gather mem vec)) by lia.
  pose proof (next_slot_index_wf q ep Hq Hep) as (_ & Hnext).
  exists (set_slot_index ep ((slot_index ep + 1) mod max_num_slots q)),
    (set_slots q
       (<[Z.to_nat (slot_index ep) :=
            {| status := SLOT_FULL;
               pad := pad s;
               size := vec_length vec;
               data := splice (data s) 0 (gather mem vec) |}]> (slots q))),
    {| status := SLOT_FULL;
       pad := pad s;
       size := vec_length vec;
       data := splice (data s) 0 (gather mem vec) |}.
  split.
  { unfold df_enqueue_vector.
    rewrite (enqueue_vector_with_empty _ _ _ _ _ _ s) by assumption.
    reflexivity. }
  split.
  { unfold df_try_enqueue_vector.
    rewrite (enqueue_vector_with_empty _ _ _ _ _ _ s) by assumption.
    reflexivity. }
  split; [reflexivity |]. split; [reflexivity |]. split; [reflexivity |].
  split; [repeat split |].
  split.
  { intros j Hj. cbn [set_slots slots].
    apply list_lookup_insert_ne. congruence. }
  split.
  { cbn [set_slots slots]. apply list_lookup_insert_eq.
    apply lookup_lt_Some in Hs. exact Hs. }
  split; [reflexivity |]. split; [reflexivity |]. split; [reflexivity |].
  cbn [data].
  split; [rewrite Hglen; apply take_splice_0 |].
  split; [rewrite Hglen; apply drop_splice_0; lia |].
  split.
  { apply (queue_wf_update _ _ s); try assumption; cbn.
    - left. reflexivity.
    - reflexivity.
    - destruct Hq as (_ & _ & _ & _ & (_ & _ & Hmax) & _). lia.
    - apply length_splice. cbn. lia. }
  split; [apply ep_wf_set; assumption |].
  intros mem2 b Hbytes.
  unfold df_enqueue, df_enqueue_vector.
  assert (Hvec1 : vec_wf [ {| iov_base := b; iov_len := vec_length vec |} ]).
  { repeat constructor; cbn; [lia |].
    destruct Hq as (_ & _ & _ & _ & (_ & _ & Hmax) & _). lia. }
  rewrite (enqueue_vector_with_empty _ _ _ _ _ _ s); try assumption.
  2, 3: cbn; lia.
  cbn [vec_length fold_right iov_len gather flat_map iov_base].
  rewrite Z.add_0_r, app_nil_r, Hbytes. reflexivity.
Qed.

Lemma enqueue_fills_only_the_cursor_slot_witness :
  exists ep' q' s',
    df_enqueue_vector ramp_memory pair_sender pair_queue
      [ {| iov_base := 10; iov_len := 2 |}; {| iov_base := 20; iov_len := 2 |} ]
    = Returns (0, ep', q')
    /\ slot_index ep' = 1
    /\ slots q' !! 0%nat = Some s'
    /\ size s' = 4
    /\ take 4 (data s') = [10; 11; 20; 21]
    /\ slots q' !! 1%nat = slots pair_queue !! 1%nat.
Proof.
  assert (Hwf : queue_wf pair_queue /\ slots_hold_max_payload pair_queue).
  { destruct (created_queue_wf zero_memory 4096 2 16 pair_queue eq_refl)
      as (Hwf & _ & Hhold); [vm_compute; discriminate |].
    split; [exact Hwf | apply Hhold; vm_compute; discriminate]. }
  destruct Hwf as [Hwf Hhold].
  destruct (enqueue_fills_only_the_cursor_slot ramp_memory pair_sender pair_queue
              [ {| iov_base := 10; iov_len := 2 |};
                {| iov_base := 20; iov_len := 2 |} ]
              {| status := SLOT_EMPTY; pad := read_bytes zero_memory 76 4;
                 size := 0; data := read_bytes zero_memory 88 48 |}
              Hwf Hhold)
    as (ep' & q' & s' & Hrun & _ & Hidx & _ & _ & _ & Hframe & Hs' & _ & _
        & Hsize & Htake & _).
  - split; [discriminate |]. split; [reflexivity |]. cbn. lia.
  - discriminate.
  - repeat constructor; cbn; unfold SIZE_MAX; lia.
  - cbn. lia.
  - reflexivity.
  - reflexivity.
  - exists ep', q', s'. split; [exact Hrun |]. split; [exact Hidx |].
    split; [exact Hs' |]. split; [exact Hsize |]. split; [exact Htake |].
    apply Hframe. discriminate.
Defined.

(** X5.  On a well-formed queue, [df_release] through a receiver endpoint
    returns whatever the status of the slot under the cursor, full or
    empty: it marks that slot empty with size 0, keeps the slot's padding
    and data bytes, leaves the header and every other slot as they were,
    and moves
    the cursor on by one modulo the number of slots; queue and endpoint stay
    well formed. *)
Theorem release_frees_the_cursor_slot ep q s :
  queue_wf q -> ep_wf q ep -> is_sender ep = 0 ->
  slots q !! Z.to_nat (slot_index ep) = Some s ->
  exists ep' q',
    df_release ep q = Returns (ep', q')
    /\ slot_index ep' = (slot_index ep + 1) mod max_num_slots q
    /\ ep_queue ep' = ep_queue ep /\ ep_slots ep' = ep_slots ep
    /\ same_header q q'
    /\ (forall j, j <> Z.to_nat (slot_index ep) -> slots q' !! j = slots q !! j)
    /\ slots q' !! Z.to_nat (slot_index ep)
       = Some {| status := SLOT_EMPTY; pad := pad s; size := 0; data := data s |}
    /\ queue_wf q' /\ ep_wf q' ep'.
Proof.
  intros Hq Hep Hrecv Hs.
  destruct (current_slot_wf q ep Hq Hep) as (s0 & Hs0 & Hcur).
  rewrite Hs in Hs0. inversion Hs0; subst s0.
  destruct (next_slot_index_wf q ep Hq Hep) as (Hnext & Hrange).
  exists (set_slot_index ep ((slot_index ep + 1) mod max_num_slots q)),
    (set_slots q
       (<[Z.to_nat (slot_index ep) :=
            {| status := SLOT_EMPTY; pad := pad s; size := 0;
               data := data s |}]> (slots q))).
  split.
  { unfold df_release.
    rewrite (dequeue_asserts ep q Hq Hep Hrecv), Hcur, Hnext. reflexivity. }
  split; [reflexivity |]. split; [reflexivity |]. split; [reflexivity |].
  split; [repeat split |].
  split.
  { intros j Hj. cbn [set_slots slots].
    apply list_lookup_insert_ne. congruence. }
  split.
  { cbn [set_slots slots]. apply list_lookup_insert_eq.
    apply lookup_lt_Some in Hs. exact Hs. }
  split; [| apply ep_wf_set; assumption].
  apply (queue_wf_update _ _ s); try assumption; cbn;
    [right; reflexivity | reflexivity | unfold SIZE_MAX; lia | reflexivity].
Qed.

Lemma release_frees_the_cursor_slot_witness :
  exists ep' q',
    df_release pair_receiver pair_queue = Returns (ep', q')
    /\ slot_index ep' = 1
    /\ slots q' = slots pair_queue.
Proof.
  assert (Hwf : queue_wf pair_queue).
  { destruct (created_queue_wf zero_memory 4096 2 16 pair_queue eq_refl)
      as (Hwf & _); [vm_compute; discriminate | exact Hwf]. }
  destruct (release_frees_the_cursor_slot pair_receiver pair_queue
              {| status := SLOT_EMPTY; pad := read_bytes zero_memory 76 4;
                 size := 0; data := read_bytes zero_memory 88 48 |} Hwf)
    as (ep' & q' & Hrun & Hidx & _).
  - split; [discriminate |]. split; [reflexivity |]. cbn. lia.
  - reflexivity.
  - reflexivity.
  - exists ep', q'. split; [exact Hrun |]. split; [exact Hidx |].
    vm_compute in Hrun. inversion Hrun. reflexivity.
Defined.

(** X6.  [df_destroy_queue] returns [-1] and changes nothing for [NULL];
    otherwise it returns 0 and clears the [initialized] flag only, leaving
    the other header fields and every slot with its payload.  On the
    destroyed queue [df_get_queue_sender_ep] and [df_get_queue_receiver_ep]
    return [NULL], and every call through an endpoint that already exists
    stops at its [assert]. *)
Theorem destroyed_queue_refuses_endpoints_and_calls addr q :
  df_destroy_queue NULL q = (-1, q)
  /\ (addr <> NULL ->
      exists q',
        df_destroy_queue addr q = (0, q')
        /\ initialized q' = 0
        /\ max_num_slots q' = max_num_slots q
        /\ max_payload_size q' = max_payload_size q
        /\ slot_size q' = slot_size q
        /\ total_size q' = total_size q
        /\ slots q' = slots q
        /\ (forall m1 m2,
              df_get_queue_sender_ep m1 m2 addr q' = Returns (None, q')
              /\ df_get_queue_receiver_ep m1 m2 addr q' = Returns (None, q'))
        /\ (forall mem ep vec buf len,
              df_enqueue_vector mem ep q' vec = Faults
              /\ df_enqueue mem ep q' buf len = Faults
              /\ df_try_enqueue_vector mem ep q' vec = Faults
              /\ df_try_enqueue mem ep q' buf len = Faults
              /\ df_is_enqueue_possible ep q' = Faults
              /\ df_dequeue ep q' = Faults
              /\ df_try_dequeue ep q' = Faults
              /\ df_is_dequeue_possible ep q' = Faults
              /\ df_release ep q' = Faults)).
Proof.
  split; [reflexivity |].
  intros Haddr. unfold df_destroy_queue.
  pose proof Haddr as Haddr'. apply Z.eqb_neq in Haddr'. rewrite Haddr'.
  cbn [negb]. eexists. split; [reflexivity |]. cbn.
  do 6 (split; [reflexivity |]).
  split.
  - intros m1 m2.
    rewrite sender_ep_unfold, receiver_ep_unfold by assumption.
    split; apply get_queue_ep_uninitialized; try assumption; reflexivity.
  - intros mem ep vec buf len.
    unfold df_enqueue, df_try_enqueue, df_enqueue_vector, df_try_enqueue_vector,
      enqueue_vector_with, df_is_enqueue_possible, df_dequeue, df_try_dequeue,
      dequeue_with, df_is_dequeue_possible, df_release.
    cbn [initialized]. rewrite Z.eqb_refl, !orb_true_r. cbn [orb].
    repeat split; reflexivity.
Qed.

Lemma destroyed_queue_refuses_endpoints_and_calls_witness :
  exists q',
    df_destroy_queue 4096 pair_queue = (0, q')
    /\ slots q' = slots pair_queue
    /\ df_get_queue_sender_ep true true 4096 q' = Returns (None, q')
    /\ df_dequeue pair_receiver q' = Faults.
Proof.
  destruct (destroyed_queue_refuses_endpoints_and_calls 4096 pair_queue)
    as (_ & Hdestroy).
  destruct (Hdestroy ltac:(discriminate))
    as (q' & Hrun & _ & _ & _ & _ & _ & Hslots & Hget & Hcalls).
  exists q'. split; [exact Hrun |]. split; [exact Hslots |].
  split; [apply (Hget true true) |].
  apply (Hcalls zero_memory pair_receiver [] 0 0).
Defined.

(** ** The pointer that a dequeue hands out *)

Lemma created_total_size raw addr n p q :
  df_create_queue raw addr n p = Returns q ->
  total_size q = sizeof_df_queue + n * slot_size q.
Proof.
  intros Hq.
  destruct (df_create_queue_fields _ _ _ _ _ Hq)
    as (Hn & Hp & _ & _ & _ & _ & Hslot & Htotal & Hmin & Hfit & _).
  unfold df_calculate_queue_size in Htotal. rewrite Hslot in Htotal.
  destruct (0 <? n); [| discriminate].
  assert (Ht : size_t (sizeof_df_queue + size_t (n * slot_size q)) = total_size q)
    by congruence.
  rewrite <- Ht, size_t_add_r. apply size_t_small.
  unfold sizeof_df_queue, sizeof_df_queue_slot in *. nia.
Qed.

Lemma enqueue_vector_keeps_addresses mem ep q vec rc ep' q' :
  df_enqueue_vector mem ep q vec = Returns (rc, ep', q') ->
  ep_queue ep' = ep_queue ep /\ same_header q q'.
Proof.
  unfold df_enqueue_vector, enqueue_vector_with.
  destruct ((ep_queue ep =? NULL) || (initialized q =? 0) || (is_sender ep =? 0));
    [discriminate |].
  destruct (iov_total vec <=? max_payload_size q).
  - destruct (current_slot ep q) as [[[a i] s] |]; [| discriminate].
    destruct (negb (status s =? SLOT_EMPTY)); [discriminate |]. cbv zeta.
    destruct (copy_vector _ _ _ vec); [| discriminate].
    destruct (next_slot_index ep q); [| discriminate].
    intros H. inversion H; subst. repeat split.
  - intros H. inversion H; subst. repeat split.
Qed.

Lemma release_keeps_addresses ep q ep' q' :
  df_release ep q = Returns (ep', q') ->
  ep_queue ep' = ep_queue ep /\ same_header q q'.
Proof.
  unfold df_release.
  destruct ((ep_queue ep =? NULL) || (initialized q =? 0)
            || negb (is_sender ep =? 0)); [discriminate |].
  destruct (current_slot ep q) as [[[a i] s] |]; [| discriminate].
  destruct (next_slot_index ep q); [| discriminate].
  intros H. inversion H; subst. repeat split.
Qed.

Lemma same_header_trans q1 q2 q3 :
  same_header q1 q2 -> same_header q2 q3 -> same_header q1 q3.
Proof.
  unfold same_header. intros (? & ? & ? & ? & ?) (? & ? & ? & ? & ?).
  repeat split; congruence.
Qed.

(** A schedule leaves the mapping addresses of the two endpoints and the
    header of the queue as they were. *)
Lemma run_keeps_addresses ops : forall sys sys' outs,
  run sys ops = Some (sys', outs) ->
  ep_queue (sender sys') = ep_queue (sender sys)
  /\ ep_queue (receiver sys') = ep_queue (receiver sys)
  /\ same_header (queue sys) (queue sys').
Proof.
  induction ops as [| o ops IH]; intros sys sys' outs Hrun.
  - cbn in Hrun. inversion Hrun; subst. repeat split.
  - destruct o as [mem vec | |]; cbn [run] in Hrun.
    + destruct (df_enqueue_vector mem (sender sys) (queue sys) vec)
        as [[[rc ep] q] | |] eqn:Henq; try discriminate.
      destruct (rc =? 0); [| discriminate].
      destruct (enqueue_vector_keeps_addresses _ _ _ _ _ _ _ Henq) as [Ha Hh].
      destruct (IH _ _ _ Hrun) as (Hs & Hr & Hh'). cbn in Hs, Hr, Hh'.
      split; [congruence |]. split; [exact Hr |].
      exact (same_header_trans _ _ _ Hh Hh').
    + destruct (df_dequeue (receiver sys) (queue sys))
        as [[rc [[ptr len] |]] | |]; try discriminate.
      destruct (rc =? 0); [| discriminate].
      destruct (payload_at (queue sys) (ep_queue (receiver sys)) ptr len);
        [| discriminate].
      destruct (run sys ops) as [[sys1 outs1] |] eqn:Hrun1; [| discriminate].
      inversion Hrun; subst. apply (IH _ _ _ Hrun1).
    + destruct (df_release (receiver sys) (queue sys)) as [[ep q] | |] eqn:Hrel;
        try discriminate.
      destruct (release_keeps_addresses _ _ _ _ Hrel) as [Ha Hh].
      destruct (IH _ _ _ Hrun) as (Hs & Hr & Hh'). cbn in Hs, Hr, Hh'.
      split; [exact Hs |]. split; [congruence |].
      exact (same_header_trans _ _ _ Hh Hh').
Qed.


End QueueFacts.

(** * Facts about the region manager *)
Module ShmFacts.
Import Shm.

(** ** The two lists after a failed destroy *)

(** The process has pid 1.  It creates a region (handle at 100), creates a
    second one (handle at 200), and destroys the second; the backend's
    destroy callback fails.  The handle at 200 is freed and stays linked:
    the created list starts with a freed handle, and the first region,
    still allocated, is linked only from freed memory. *)
Lemma failed_destroy_strands_region :
  exists st,
    do_calls 1 10 flaky_init
      [CreateRegion 100 64 0; CreateRegion 200 64 0; DestroyRegion 200] = Some st
    /\ is_Some (regions st !! 100)
    /\ regions st !! 200 = None
    /\ created_list st = [200]
    /\ foreign_list st = [].
Proof.
  eexists. split; [vm_compute; reflexivity |].
  split; [eexists; vm_compute; reflexivity |].
  repeat split; vm_compute; reflexivity.
Qed.

(** The process creates a region (handle at 200) and destroys it; the
    backend's destroy callback fails.  [malloc] then hands the freed block
    out again, to an attach: the new handle is linked in both lists. *)
Lemma failed_destroy_then_attach_aliases :
  exists st,
    do_calls 1 10 flaky_init
      [CreateRegion 200 64 0; DestroyRegion 200; AttachRegion 200 2 1 64 0] = Some st
    /\ is_Some (regions st !! 200)
    /\ created_list st = [200]
    /\ foreign_list st = [200].
Proof.
  eexists. split; [vm_compute; reflexivity |].
  split; [eexists; vm_compute; reflexivity |].
  repeat split; vm_compute; reflexivity.
Qed.

(** No callback fails here.  The process creates two regions (handles at
    100 and 300) and calls [df_detach_shm_region] on the second, which the
    header allows to the creator.  The function unlinks from the foreign
    list only: the handle at 300 is freed and stays linked in the created
    list, and the first region is linked only from freed memory. *)
Lemma detach_by_creator_strands_region :
  exists st,
    do_calls 1 10 flaky_init
      [CreateRegion 100 64 0; CreateRegion 300 64 0; DetachRegion 300] = Some st
    /\ is_Some (regions st !! 100)
    /\ regions st !! 300 = None
    /\ created_list st = [300]
    /\ foreign_list st = [].
Proof.
  eexists. split; [vm_compute; reflexivity |].
  split; [eexists; vm_compute; reflexivity |].
  repeat split; vm_compute; reflexivity.
Qed.

(** C6, at three failing inputs.  When the backend's destroy callback
    fails, [df_destroy_shm_region] frees the handle without unlinking it.
    After create, create, destroy (failing) the older region is allocated
    and reachable through neither list; after create, destroy (failing),
    attach into the reused block the handle is reachable through both
    lists.  With no failing callback, create, create, detach leaves the
    older region reachable through neither list, because
    [df_detach_shm_region] unlinks from the foreign list only.  So the two
    lists do not partition the allocated handles after every sequence of
    calls. *)
Theorem region_lists_are_not_a_partition :
  (exists st,
     do_calls 1 10 flaky_init
       [CreateRegion 100 64 0; CreateRegion 200 64 0; DestroyRegion 200] = Some st
     /\ is_Some (regions st !! 100)
     /\ (100 ∉ created_list st) /\ (100 ∉ foreign_list st))
  /\ (exists st,
        do_calls 1 10 flaky_init
          [CreateRegion 200 64 0; DestroyRegion 200; AttachRegion 200 2 1 64 0]
        = Some st
        /\ is_Some (regions st !! 200)
        /\ (200 ∈ created_list st) /\ (200 ∈ foreign_list st))
  /\ (exists st,
        do_calls 1 10 flaky_init
          [CreateRegion 100 64 0; CreateRegion 300 64 0; DetachRegion 300] = Some st
        /\ is_Some (regions st !! 100)
        /\ (100 ∉ created_list st) /\ (100 ∉ foreign_list st))
  /\ ~ region_lists_partition_handles.
Proof.
  destruct failed_destroy_strands_region as (st1 & Hrun1 & Hlive1 & _ & Hc1 & Hf1).
  destruct failed_destroy_then_attach_aliases as (st2 & Hrun2 & Hlive2 & Hc2 & Hf2).
  destruct detach_by_creator_strands_region as (st3 & Hrun3 & Hlive3 & _ & Hc3 & Hf3).
  assert (Hsingle : forall a : Z, a <> 100 -> 100 ∉ [a]).
  { intros a Ha H. apply list_elem_of_In in H. cbn in H.
    destruct H as [H | []]. contradiction. }
  assert (Hnil : 100 ∉ @nil Z).
  { intros H. apply list_elem_of_In in H. exact H. }
  assert (Hnot_c : 100 ∉ created_list st1) by (rewrite Hc1; apply Hsingle; discriminate).
  assert (Hnot_f : 100 ∉ foreign_list st1) by (rewrite Hf1; exact Hnil).
  split; [| split; [| split]].
  - exists st1. auto.
  - exists st2. rewrite Hc2, Hf2.
    repeat split; try assumption; apply list_elem_of_In; left; reflexivity.
  - exists st3. rewrite Hc3, Hf3.
    split; [exact Hrun3 |]. split; [exact Hlive3 |].
    split; [apply Hsingle; discriminate | exact Hnil].
  - intros H.
    specialize (H 1 flaky_backend 10%nat flaky_init _ st1 eq_refl Hrun1 100 Hlive1).
    destruct H as [[H _] | [_ H]]; contradiction.
Qed.

(** ** Lists of allocated handles *)

Lemma is_list_delete h a : forall l head,
  is_list h head l -> a ∉ l -> is_list (delete a h) head l.
Proof.
  induction l as [| b l IH]; intros head Hl Hnotin; cbn in *.
  - exact Hl.
  - destruct Hl as (-> & Hnull & reg & Hreg & Hrest).
    apply not_elem_of_cons in Hnotin as [Hne Hnotin].
    split; [reflexivity |]. split; [assumption |].
    exists reg. split; [| apply IH; assumption].
    rewrite lookup_delete_ne by congruence. exact Hreg.
Qed.

Lemma is_list_head_lookup h head a l :
  is_list h head (a :: l) ->
  head = a /\ a <> NULL /\ exists reg, h !! a = Some reg /\ is_list h (next reg) l.
Proof. intros H. exact H. Qed.

(** Removing the first handle of a list takes one iteration and changes the
    list head only. *)
Lemma remove_first fuel h head a reg l :
  is_list h head (a :: l) -> h !! a = Some reg ->
  remove_region_from_list (S fuel) h head a = Some (0, h, next reg).
Proof.
  intros (-> & Hnull & reg' & Hreg' & _) Hreg.
  unfold remove_region_from_list.
  apply Z.eqb_neq in Hnull. rewrite Hnull. cbn [remove_loop].
  rewrite Hnull, Hreg, Z.eqb_refl. reflexivity.
Qed.

Lemma foldr_delete_lookup_notin (h : gmap Z df_shm_region) l a :
  a ∉ l -> foldr delete h l !! a = h !! a.
Proof.
  induction l as [| b l IH]; intros Hnotin; cbn; [reflexivity |].
  apply not_elem_of_cons in Hnotin as [Hne Hnotin].
  rewrite lookup_delete_ne by congruence. apply IH. assumption.
Qed.

Lemma foldr_delete_lookup_in (h : gmap Z df_shm_region) l a :
  a ∈ l -> foldr delete h l !! a = None.
Proof.
  induction l as [| b l IH]; intros Hin; cbn.
  - apply elem_of_nil in Hin. contradiction.
  - destruct (decide (b = a)) as [-> | Hne].
    + apply lookup_delete_eq.
    + rewrite lookup_delete_ne by assumption.
      apply IH. apply elem_of_cons in Hin as [-> | Hin]; [contradiction | assumption].
Qed.

Lemma foldr_delete_comm (h : gmap Z df_shm_region) l a :
  foldr delete (delete a h) l = delete a (foldr delete h l).
Proof.
  induction l as [| b l IH]; cbn; [reflexivity |].
  rewrite IH. apply delete_delete.
Qed.

Lemma foldr_delete_app (h : gmap Z df_shm_region) l1 l2 :
  foldr delete (foldr delete h l1) l2 = foldr delete h (l1 ++ l2).
Proof.
  induction l1 as [| a l1 IH]; cbn; [reflexivity |].
  rewrite foldr_delete_comm, IH. reflexivity.
Qed.

Section ManagerFacts.

Variable pid : Z.

(** ** One cleanup *)

Lemma destroy_succeeds fuel h m a reg l :
  initialized m = 1 ->
  is_list h (created_regions m) (a :: l) ->
  h !! a = Some reg -> creator_id reg = pid ->
  answer (destroy_region_func (hooks m)) a = 0 ->
  df_destroy_shm_region pid (S fuel) (st_of h m) a
  = Some (0, st_of (delete a h)
               (set_created m (next reg) (num_created_regions m))).
Proof.
  intros Hi Hl Hreg Hc Hans.
  pose proof Hl as (_ & Hnull & _).
  unfold df_destroy_shm_region, st_of. cbn [regions method].
  apply Z.eqb_neq in Hnull. rewrite Hnull, Hreg. cbn.
  rewrite Hi, Hc, !Z.eqb_refl. cbn.
  unfold answer in Hans. rewrite Hans. cbn.
  rewrite (remove_first fuel h _ a reg l Hl Hreg). reflexivity.
Qed.

Lemma destroy_fails fuel h m a reg :
  initialized m = 1 -> a <> NULL ->
  h !! a = Some reg -> creator_id reg = pid ->
  answer (destroy_region_func (hooks m)) a <> 0 ->
  df_destroy_shm_region pid fuel (st_of h m) a
  = Some (-1, st_of (delete a h) m).
Proof.
  intros Hi Hnull Hreg Hc Hans.
  unfold df_destroy_shm_region, st_of. cbn [regions method].
  apply Z.eqb_neq in Hnull. rewrite Hnull, Hreg. cbn.
  rewrite Hi, Hc, !Z.eqb_refl. cbn.
  unfold answer in Hans. apply Z.eqb_neq in Hans. rewrite Hans. reflexivity.
Qed.

Lemma detach_succeeds fuel h m a reg l :
  initialized m = 1 ->
  is_list h (foreign_regions m) (a :: l) ->
  h !! a = Some reg ->
  answer (detach_region_func (hooks m)) a = 0 ->
  df_detach_shm_region (S fuel) (st_of h m) a
  = Some (0, st_of (delete a h)
               (set_foreign m (next reg) (num_foreign_regions m - 1))).
Proof.
  intros Hi Hl Hreg Hans.
  pose proof Hl as (_ & Hnull & _).
  unfold df_detach_shm_region, st_of. cbn [regions method].
  apply Z.eqb_neq in Hnull. rewrite Hnull, Hreg. cbn.
  rewrite Hi. cbn.
  unfold answer in Hans. rewrite Hans. cbn.
  rewrite (remove_first fuel h _ a reg l Hl Hreg). reflexivity.
Qed.

Lemma detach_fails fuel h m a reg :
  initialized m = 1 -> a <> NULL ->
  h !! a = Some reg ->
  answer (detach_region_func (hooks m)) a <> 0 ->
  df_detach_shm_region fuel (st_of h m) a
  = Some (-1, st_of (delete a h) m).
Proof.
  intros Hi Hnull Hreg Hans.
  unfold df_detach_shm_region, st_of. cbn [regions method].
  apply Z.eqb_neq in Hnull. rewrite Hnull, Hreg. cbn.
  rewrite Hi. cbn.
  unfold answer in Hans. apply Z.eqb_neq in Hans. rewrite Hans. reflexivity.
Qed.

(** ** The cleanup loops

    The two loops of [df_shm_finalize] differ in the function they call and
    in the list they walk.  What the proofs need of either is collected
    here. *)
Section CleanupLoop.

Variable release : state -> Z -> option (Z * state).
Variable record : Z -> Z -> cleanup.
Variable head_of : df_shm_method -> Z.
Variable unlinked : df_shm_method -> Z -> df_shm_method.
Variable succeeds : df_shm_method -> Z -> Prop.
Variable eligible : gmap Z df_shm_region -> Z -> Prop.

Variable kept : df_shm_method -> df_shm_method -> Prop.

Hypothesis kept_refl : forall m, kept m m.
Hypothesis kept_trans : forall m1 m2 m3, kept m1 m2 -> kept m2 m3 -> kept m1 m3.
Hypothesis kept_unlinked : forall m x, kept m (unlinked m x).
Hypothesis head_unlinked : forall m x, head_of (unlinked m x) = x.
Hypothesis initialized_unlinked :
  forall m x, initialized (unlinked m x) = initialized m.
Hypothesis succeeds_unlinked :
  forall m x a, succeeds (unlinked m x) a <-> succeeds m a.
Hypothesis eligible_delete :
  forall h a b, eligible h b -> a <> b -> eligible (delete a h) b.
Hypothesis release_succeeds :
  forall h m a reg l,
    initialized m = 1 -> is_list h (head_of m) (a :: l) ->
    h !! a = Some reg -> eligible h a -> succeeds m a ->
    release (st_of h m) a
    = Some (0, st_of (delete a h) (unlinked m (next reg))).
Hypothesis release_fails :
  forall h m a reg,
    initialized m = 1 -> a <> NULL ->
    h !! a = Some reg -> eligible h a -> ~ succeeds m a ->
    release (st_of h m) a = Some (-1, st_of (delete a h) m).

Lemma Forall_eligible_delete h a l :
  Forall (eligible h) l -> a ∉ l -> Forall (eligible (delete a h)) l.
Proof.
  rewrite !Forall_forall. intros H Hnotin b Hb.
  apply eligible_delete; [apply H; assumption |].
  intros ->. contradiction.
Qed.

(** Cleanups that fail: every handle is freed and stays linked; the method
    handle does not change. *)
Lemma cleanup_loop_failures : forall fc k h m r,
  initialized m = 1 ->
  is_list h r fc -> NoDup fc ->
  Forall (eligible h) fc -> Forall (fun a => ~ succeeds m a) fc ->
  cleanup_loop release record (length fc + S k) (st_of h m) r
  = Some (st_of (foldr delete h fc) m, map (fun a => record a (-1)) fc).
Proof.
  induction fc as [| a fc IH]; intros k h m r Hi Hl Hnd Hel Hfail.
  - cbn in Hl. subst r. reflexivity.
  - destruct Hl as (-> & Hnull & reg & Hreg & Hrest).
    apply NoDup_cons in Hnd as [Hnotin Hnd].
    apply Forall_cons in Hel as [Hela Hel'].
    apply Forall_cons in Hfail as [Hfa Hfail'].
    cbn [length Nat.add cleanup_loop].
    pose proof Hnull as Hnull'. apply Z.eqb_neq in Hnull'. rewrite Hnull'.
    cbn [st_of regions]. rewrite Hreg. cbn.
    rewrite (release_fails h m a reg Hi Hnull Hreg Hela Hfa). cbn.
    rewrite IH; try assumption.
    + cbn. rewrite foldr_delete_comm. reflexivity.
    + apply is_list_delete; assumption.
    + apply Forall_eligible_delete; assumption.
Qed.

(** Cleanups that succeed on the front of the list: every handle is
    unlinked and freed, and the loop goes on with the rest. *)
Lemma cleanup_loop_successes : forall sc k h m rest,
  initialized m = 1 ->
  is_list h (head_of m) (sc ++ rest) -> NoDup (sc ++ rest) ->
  Forall (eligible h) (sc ++ rest) -> Forall (succeeds m) sc ->
  exists m',
    kept m m'
    /\ initialized m' = 1
    /\ (forall a, succeeds m' a <-> succeeds m a)
    /\ is_list (foldr delete h sc) (head_of m') rest
    /\ Forall (eligible (foldr delete h sc)) rest
    /\ cleanup_loop release record (length sc + k) (st_of h m) (head_of m)
       = '(st, log) ← cleanup_loop release record k
                        (st_of (foldr delete h sc) m') (head_of m');
         Some (st, map (fun a => record a 0) sc ++ log).
Proof.
  induction sc as [| a sc IH]; intros k h m rest Hi Hl Hnd Hel Hok.
  - exists m. cbn. repeat split; try assumption; try tauto.
    + apply kept_refl.
    + destruct (cleanup_loop release record k (st_of h m) (head_of m))
        as [[st log] |]; reflexivity.
  - cbn [app] in Hl, Hnd, Hel.
    pose proof Hl as (Hhead & Hnull & reg & Hreg & Hrest).
    apply NoDup_cons in Hnd as [Hnotin Hnd].
    apply Forall_cons in Hel as [Hela Hel'].
    apply Forall_cons in Hok as [Hoka Hok'].
    set (m1 := unlinked m (next reg)).
    assert (Hi1 : initialized m1 = 1)
      by (unfold m1; rewrite initialized_unlinked; exact Hi).
    assert (Hl1 : is_list (delete a h) (head_of m1) (sc ++ rest)).
    { unfold m1. rewrite head_unlinked. apply is_list_delete; assumption. }
    assert (Hel1 : Forall (eligible (delete a h)) (sc ++ rest))
      by (apply Forall_eligible_delete; assumption).
    assert (Hok1 : Forall (succeeds m1) sc).
    { eapply Forall_impl; [exact Hok' |].
      intros b Hb. apply succeeds_unlinked. exact Hb. }
    destruct (IH k (delete a h) m1 rest Hi1 Hl1 Hnd Hel1 Hok1)
      as (m' & Hk & Hi' & Hs' & Hlr & Helr & Hrun).
    exists m'.
    split; [eapply kept_trans; [apply kept_unlinked | exact Hk] |].
    split; [exact Hi' |].
    split; [intros b; rewrite Hs'; apply succeeds_unlinked |].
    cbn [foldr]. rewrite <- foldr_delete_comm.
    split; [exact Hlr |]. split; [exact Helr |].
    cbn [length Nat.add cleanup_loop].
    rewrite !Hhead. apply Z.eqb_neq in Hnull. rewrite Hnull.
    cbn [st_of regions]. rewrite Hreg. cbn [mbind option_bind].
    rewrite (release_succeeds h m a reg (sc ++ rest) Hi Hl Hreg Hela Hoka).
    cbn [mbind option_bind].
    fold m1. replace (next reg) with (head_of m1)
      by (unfold m1; apply head_unlinked).
    rewrite Hrun.
    destruct (cleanup_loop release record k
                (st_of (foldr delete (delete a h) sc) m') (head_of m'))
      as [[st log] |]; reflexivity.
Qed.

(** The whole loop, on a list whose cleanups succeed on [sc] and then fail
    on [fc]. *)
Lemma cleanup_loop_all sc fc k h m :
  initialized m = 1 ->
  is_list h (head_of m) (sc ++ fc) -> NoDup (sc ++ fc) ->
  Forall (eligible h) (sc ++ fc) ->
  Forall (succeeds m) sc -> Forall (fun a => ~ succeeds m a) fc ->
  exists m',
    kept m m' /\ initialized m' = 1
    /\ cleanup_loop release record (length (sc ++ fc) + S k) (st_of h m) (head_of m)
       = Some (st_of (foldr delete h (sc ++ fc)) m',
               map (fun a => record a 0) sc ++ map (fun a => record a (-1)) fc).
Proof.
  intros Hi Hl Hnd Hel Hok Hfail.
  destruct (cleanup_loop_successes sc (length fc + S k) h m fc Hi Hl Hnd Hel Hok)
    as (m' & Hk & Hi' & Hs' & Hlr & Helr & Hrun).
  exists m'. split; [exact Hk |]. split; [exact Hi' |].
  rewrite length_app, <- Nat.add_assoc, Hrun.
  rewrite cleanup_loop_failures; try assumption.
  - cbn. rewrite foldr_delete_app. reflexivity.
  - apply NoDup_app in Hnd as (_ & _ & Hnd). exact Hnd.
  - eapply Forall_impl; [exact Hfail |]. intros a Ha. rewrite Hs'. exact Ha.
Qed.

End CleanupLoop.

(** ** [df_shm_finalize] *)

Lemma destroy_loop fuel sc fc k h m :
  initialized m = 1 ->
  is_list h (created_regions m) (sc ++ fc) -> NoDup (sc ++ fc) ->
  Forall (own_region pid h) (sc ++ fc) ->
  Forall (destroy_ok m) sc -> Forall (fun a => ~ destroy_ok m a) fc ->
  exists m',
    keeps_foreign m m' /\ initialized m' = 1
    /\ cleanup_loop (df_destroy_shm_region pid (S fuel)) Destroyed
         (length (sc ++ fc) + S k) (st_of h m) (created_regions m)
       = Some (st_of (foldr delete h (sc ++ fc)) m',
               map (fun a => Destroyed a 0) sc
                 ++ map (fun a => Destroyed a (-1)) fc).
Proof.
  apply (cleanup_loop_all (df_destroy_shm_region pid (S fuel)) Destroyed
           created_regions
           (fun m x => set_created m x (num_created_regions m))
           destroy_ok (own_region pid) keeps_foreign).
  - intros m0. split; reflexivity.
  - intros m1 m2 m3 [H1 H2] [H3 H4]. split; congruence.
  - intros m0 x. split; reflexivity.
  - reflexivity.
  - reflexivity.
  - intros m0 x a. reflexivity.
  - intros h0 a b (reg & Hreg & Hc) Hne. exists reg. split; [| exact Hc].
    rewrite lookup_delete_ne by assumption. exact Hreg.
  - intros h0 m0 a reg l Hi Hl Hreg (reg' & Hreg' & Hc) Hok.
    rewrite Hreg in Hreg'. inversion Hreg'; subst reg'.
    apply (destroy_succeeds fuel h0 m0 a reg l); assumption.
  - intros h0 m0 a reg Hi Hnull Hreg (reg' & Hreg' & Hc) Hfail.
    rewrite Hreg in Hreg'. inversion Hreg'; subst reg'.
    apply (destroy_fails _ h0 m0 a reg); assumption.
Qed.

Lemma detach_loop fuel sc fc k h m :
  initialized m = 1 ->
  is_list h (foreign_regions m) (sc ++ fc) -> NoDup (sc ++ fc) ->
  Forall (detach_ok m) sc -> Forall (fun a => ~ detach_ok m a) fc ->
  exists m',
    keeps_hooks m m' /\ initialized m' = 1
    /\ cleanup_loop (df_detach_shm_region (S fuel)) Detached
         (length (sc ++ fc) + S k) (st_of h m) (foreign_regions m)
       = Some (st_of (foldr delete h (sc ++ fc)) m',
               map (fun a => Detached a 0) sc
                 ++ map (fun a => Detached a (-1)) fc).
Proof.
  intros Hi Hl Hnd Hok Hfail.
  apply (cleanup_loop_all (df_detach_shm_region (S fuel)) Detached
           foreign_regions
           (fun m x => set_foreign m x (num_foreign_regions m - 1))
           detach_ok (fun _ _ => True) keeps_hooks); try assumption.
  - intros m0. reflexivity.
  - intros m1 m2 m3 H1 H2. unfold keeps_hooks in *. congruence.
  - intros m0 x. reflexivity.
  - reflexivity.
  - reflexivity.
  - intros m0 x a. reflexivity.
  - intros; exact I.
  - intros h0 m0 a reg l Hi0 Hl0 Hreg _ Hok0.
    apply (detach_succeeds fuel h0 m0 a reg l); assumption.
  - intros h0 m0 a reg Hi0 Hnull Hreg _ Hfail0.
    apply (detach_fails _ h0 m0 a reg); assumption.
  - apply Forall_forall. intros; exact I.
Qed.


(** ** A destroy that succeeds after one that has failed

    A failed [df_destroy_shm_region] frees its handle and leaves it linked.
    While the handles that follow fail too, the loop of [df_shm_finalize]
    only frees them; the first one whose callback succeeds is unlinked, and
    the search for it starts at the list head, which is the freed handle. *)
Lemma destroy_loop_after_failure fuel f s rest : forall mid k h m r,
  initialized m = 1 -> created_regions m = f -> f <> NULL -> h !! f = None ->
  is_list h r (mid ++ s :: rest) ->
  Forall (own_region pid h) (mid ++ s :: rest) ->
  NoDup (mid ++ s :: rest) ->
  Forall (fun a => ~ destroy_ok m a) mid -> destroy_ok m s ->
  cleanup_loop (df_destroy_shm_region pid fuel) Destroyed k (st_of h m) r = None.
Proof.
  induction mid as [| b mid IH]; intros k h m r Hi Hhead Hf Hfree Hl Hown Hnd Hfail Hok;
    (destruct k as [| k]; [reflexivity |]); cbn [app] in Hl, Hown, Hnd.
  - destruct Hl as (-> & Hnull & reg & Hreg & _).
    apply Forall_cons in Hown as [(reg' & Hreg' & Hc) _].
    rewrite Hreg in Hreg'. inversion Hreg'; subst reg'.
    cbn [cleanup_loop]. pose proof Hnull as Hnull'.
    apply Z.eqb_neq in Hnull'. rewrite Hnull'.
    cbn [st_of regions]. rewrite Hreg. cbn [mbind option_bind].
    unfold df_destroy_shm_region. cbn [regions method st_of].
    rewrite Hnull', Hreg. cbn [mbind option_bind].
    rewrite Hi, Hc, !Z.eqb_refl. cbn [negb].
    unfold destroy_ok, answer in Hok. rewrite Hok. cbn [Z.eqb negb].
    unfold remove_region_from_list. rewrite Hhead.
    apply Z.eqb_neq in Hf. rewrite Hf.
    destruct fuel as [| fuel]; [reflexivity |].
    cbn [remove_loop]. rewrite Hf, Hfree. reflexivity.
  - destruct Hl as (-> & Hnull & reg & Hreg & Hrest).
    apply Forall_cons in Hown as [(reg' & Hreg' & Hc) Hown].
    rewrite Hreg in Hreg'. inversion Hreg'; subst reg'.
    apply NoDup_cons in Hnd as [Hnotin Hnd].
    apply Forall_cons in Hfail as [Hfb Hfail].
    cbn [cleanup_loop]. pose proof Hnull as Hnull'.
    apply Z.eqb_neq in Hnull'. rewrite Hnull'.
    cbn [st_of regions]. rewrite Hreg. cbn [mbind option_bind].
    rewrite (destroy_fails fuel h m b reg Hi Hnull Hreg Hc Hfb).
    cbn [mbind option_bind].
    rewrite (IH k (delete b h) m (next reg)); try assumption; [reflexivity | | |].
    + destruct (decide (b = f)) as [-> | Hne];
        [apply lookup_delete_eq | rewrite lookup_delete_ne by exact Hne; exact Hfree].
    + apply is_list_delete; assumption.
    + rewrite Forall_forall in *. intros x Hx.
      destruct (Hown x Hx) as (regx & Hregx & Hcx).
      exists regx. split; [| exact Hcx].
      rewrite lookup_delete_ne; [exact Hregx |]. intros ->. contradiction.
Qed.

Lemma destroy_loop_trips fuel f mid s rest : forall sc k h m,
  initialized m = 1 ->
  is_list h (created_regions m) (sc ++ f :: mid ++ s :: rest) ->
  NoDup (sc ++ f :: mid ++ s :: rest) ->
  Forall (own_region pid h) (sc ++ f :: mid ++ s :: rest) ->
  Forall (destroy_ok m) sc -> ~ destroy_ok m f ->
  Forall (fun a => ~ destroy_ok m a) mid -> destroy_ok m s ->
  cleanup_loop (df_destroy_shm_region pid fuel) Destroyed k (st_of h m)
    (created_regions m) = None.
Proof.
  induction sc as [| a sc IH]; intros k h m Hi Hl Hnd Hown Hsc Hff Hmid Hs;
    (destruct k as [| k]; [reflexivity |]); cbn [app] in Hl, Hown, Hnd.
  - pose proof Hl as (Hhead & Hnull & reg & Hreg & Hrest).
    apply Forall_cons in Hown as [(reg' & Hreg' & Hc) Hown].
    rewrite Hreg in Hreg'. inversion Hreg'; subst reg'.
    apply NoDup_cons in Hnd as [Hnotin Hnd].
    cbn [cleanup_loop]. rewrite Hhead. pose proof Hnull as Hnull'.
    apply Z.eqb_neq in Hnull'. rewrite Hnull'.
    cbn [st_of regions]. rewrite Hreg. cbn [mbind option_bind].
    rewrite (destroy_fails fuel h m f reg Hi Hnull Hreg Hc Hff).
    cbn [mbind option_bind].
    rewrite (destroy_loop_after_failure fuel f s rest mid k (delete f h) m
               (next reg)); try assumption; [reflexivity | | |].
    + apply lookup_delete_eq.
    + apply is_list_delete; assumption.
    + rewrite Forall_forall in *. intros x Hx.
      destruct (Hown x Hx) as (regx & Hregx & Hcx).
      exists regx. split; [| exact Hcx].
      rewrite lookup_delete_ne; [exact Hregx |]. intros ->. contradiction.
  - pose proof Hl as (Hhead & Hnull & reg & Hreg & Hrest).
    apply Forall_cons in Hown as [(reg' & Hreg' & Hc) Hown].
    rewrite Hreg in Hreg'. inversion Hreg'; subst reg'.
    apply NoDup_cons in Hnd as [Hnotin Hnd].
    apply Forall_cons in Hsc as [Hoka Hsc].
    cbn [cleanup_loop]. rewrite Hhead. pose proof Hnull as Hnull'.
    apply Z.eqb_neq in Hnull'. rewrite Hnull'.
    cbn [st_of regions]. rewrite Hreg. cbn [mbind option_bind].
    destruct fuel as [| fuel].
    { unfold df_destroy_shm_region. cbn [regions method st_of].
      rewrite Hnull', Hreg. cbn [mbind option_bind].
      rewrite Hi, Hc, !Z.eqb_refl. cbn [negb].
      unfold destroy_ok, answer in Hoka. rewrite Hoka. cbn [Z.eqb negb].
      unfold remove_region_from_list. rewrite <- Hhead in Hnull'.
      rewrite Hnull'. reflexivity. }
    rewrite (destroy_succeeds fuel h m a reg _ Hi Hl Hreg Hc Hoka).
    cbn [mbind option_bind].
    set (m1 := set_created m (next reg) (num_created_regions m)).
    change (next reg) with (created_regions m1).
    rewrite (IH k (delete a h) m1); try assumption; [reflexivity | |].
    + apply is_list_delete; assumption.
    + rewrite Forall_forall in *. intros x Hx.
      destruct (Hown x Hx) as (regx & Hregx & Hcx).
      exists regx. split; [| exact Hcx].
      rewrite lookup_delete_ne; [exact Hregx |]. intros ->. contradiction.
Qed.

(** On a created list on which the destroy of some region succeeds after
    the destroy of an earlier one has failed, [df_shm_finalize] reads a
    handle that it has freed, whatever the bound on its loops. *)
Lemma finalize_trips_when_success_follows_failure fuel h m sc f mid s rest :
  initialized m = 1 ->
  is_list h (created_regions m) (sc ++ f :: mid ++ s :: rest) ->
  NoDup (sc ++ f :: mid ++ s :: rest) ->
  Forall (own_region pid h) (sc ++ f :: mid ++ s :: rest) ->
  Forall (destroy_ok m) sc -> ~ destroy_ok m f ->
  Forall (fun a => ~ destroy_ok m a) mid -> destroy_ok m s ->
  df_shm_finalize pid fuel (st_of h m) = None.
Proof.
  intros Hi Hl Hnd Hown Hsc Hf Hmid Hs.
  unfold df_shm_finalize. cbn [method st_of mbind option_bind].
  rewrite Hi. cbn [Z.eqb negb Pos.eqb].
  change {| regions := h; method := Some m |} with (st_of h m).
  rewrite (destroy_loop_trips fuel f mid s rest sc fuel h m); try assumption.
  reflexivity.
Qed.

(** The same for the foreign list: a failed [df_detach_shm_region] frees
    its handle and leaves it linked, and the first detach that succeeds
    after it searches the list from the freed handle. *)
Lemma detach_loop_after_failure fuel f s rest : forall mid k h m r,
  initialized m = 1 -> foreign_regions m = f -> f <> NULL -> h !! f = None ->
  is_list h r (mid ++ s :: rest) ->
  NoDup (mid ++ s :: rest) ->
  Forall (fun a => ~ detach_ok m a) mid -> detach_ok m s ->
  cleanup_loop (df_detach_shm_region fuel) Detached k (st_of h m) r = None.
Proof.
  induction mid as [| b mid IH]; intros k h m r Hi Hhead Hf Hfree Hl Hnd Hfail Hok;
    (destruct k as [| k]; [reflexivity |]); cbn [app] in Hl, Hnd.
  - destruct Hl as (-> & Hnull & reg & Hreg & _).
    cbn [cleanup_loop]. pose proof Hnull as Hnull'.
    apply Z.eqb_neq in Hnull'. rewrite Hnull'.
    cbn [st_of regions]. rewrite Hreg. cbn [mbind option_bind].
    unfold df_detach_shm_region. cbn [regions method st_of].
    rewrite Hnull', Hreg. cbn [mbind option_bind].
    rewrite Hi. cbn [Z.eqb negb Pos.eqb].
    unfold detach_ok, answer in Hok. rewrite Hok. cbn [Z.eqb negb].
    unfold remove_region_from_list. rewrite Hhead.
    apply Z.eqb_neq in Hf. rewrite Hf.
    destruct fuel as [| fuel]; [reflexivity |].
    cbn [remove_loop]. rewrite Hf, Hfree. reflexivity.
  - destruct Hl as (-> & Hnull & reg & Hreg & Hrest).
    apply NoDup_cons in Hnd as [Hnotin Hnd].
    apply Forall_cons in Hfail as [Hfb Hfail].
    cbn [cleanup_loop]. pose proof Hnull as Hnull'.
    apply Z.eqb_neq in Hnull'. rewrite Hnull'.
    cbn [st_of regions]. rewrite Hreg. cbn [mbind option_bind].
    rewrite (detach_fails fuel h m b reg Hi Hnull Hreg Hfb).
    cbn [mbind option_bind].
    rewrite (IH k (delete b h) m (next reg)); try assumption; [reflexivity | |].
    + destruct (decide (b = f)) as [-> | Hne];
        [apply lookup_delete_eq | rewrite lookup_delete_ne by exact Hne; exact Hfree].
    + apply is_list_delete; assumption.
Qed.

Lemma detach_loop_trips fuel f mid s rest : forall sf k h m,
  initialized m = 1 ->
  is_list h (foreign_regions m) (sf ++ f :: mid ++ s :: rest) ->
  NoDup (sf ++ f :: mid ++ s :: rest) ->
  Forall (detach_ok m) sf -> ~ detach_ok m f ->
  Forall (fun a => ~ detach_ok m a) mid -> detach_ok m s ->
  cleanup_loop (df_detach_shm_region fuel) Detached k (st_of h m)
    (foreign_regions m) = None.
Proof.
  induction sf as [| a sf IH]; intros k h m Hi Hl Hnd Hsf Hff Hmid Hs;
    (destruct k as [| k]; [reflexivity |]); cbn [app] in Hl, Hnd.
  - pose proof Hl as (Hhead & Hnull & reg & Hreg & Hrest).
    apply NoDup_cons in Hnd as [Hnotin Hnd].
    cbn [cleanup_loop]. rewrite Hhead. pose proof Hnull as Hnull'.
    apply Z.eqb_neq in Hnull'. rewrite Hnull'.
    cbn [st_of regions]. rewrite Hreg. cbn [mbind option_bind].
    rewrite (detach_fails fuel h m f reg Hi Hnull Hreg Hff).
    cbn [mbind option_bind].
    rewrite (detach_loop_after_failure fuel f s rest mid k (delete f h) m
               (next reg)); try assumption; [reflexivity | |].
    + apply lookup_delete_eq.
    + apply is_list_delete; assumption.
  - pose proof Hl as (Hhead & Hnull & reg & Hreg & Hrest).
    apply NoDup_cons in Hnd as [Hnotin Hnd].
    apply Forall_cons in Hsf as [Hoka Hsf].
    cbn [cleanup_loop]. rewrite Hhead. pose proof Hnull as Hnull'.
    apply Z.eqb_neq in Hnull'. rewrite Hnull'.
    cbn [st_of regions]. rewrite Hreg. cbn [mbind option_bind].
    destruct fuel as [| fuel].
    { unfold df_detach_shm_region. cbn [regions method st_of].
      rewrite Hnull', Hreg. cbn [mbind option_bind].
      rewrite Hi. cbn [Z.eqb negb Pos.eqb].
      unfold detach_ok, answer in Hoka. rewrite Hoka. cbn [Z.eqb negb].
      unfold remove_region_from_list. rewrite <- Hhead in Hnull'.
      rewrite Hnull'. reflexivity. }
    rewrite (detach_succeeds fuel h m a reg _ Hi Hl Hreg Hoka).
    cbn [mbind option_bind].
    set (m1 := set_foreign m (next reg) (num_foreign_regions m - 1)).
    change (next reg) with (foreign_regions m1).
    rewrite (IH k (delete a h) m1); try assumption; [reflexivity |].
    apply is_list_delete; assumption.
Qed.

(** On a foreign list on which the detach of some region succeeds after
    the detach of an earlier one has failed, [df_shm_finalize] reads a
    handle that it has freed, once it has gone through the created list. *)
Lemma finalize_trips_when_detach_follows_failure
    fuel h m sc fc sf f mid s rest :
  initialized m = 1 ->
  is_list h (created_regions m) (sc ++ fc) ->
  is_list h (foreign_regions m) (sf ++ f :: mid ++ s :: rest) ->
  NoDup ((sc ++ fc) ++ (sf ++ f :: mid ++ s :: rest)) ->
  Forall (own_region pid h) (sc ++ fc) ->
  Forall (destroy_ok m) sc -> Forall (fun a => ~ destroy_ok m a) fc ->
  Forall (detach_ok m) sf -> ~ detach_ok m f ->
  Forall (fun a => ~ detach_ok m a) mid -> detach_ok m s ->
  (length (sc ++ fc) < fuel)%nat ->
  df_shm_finalize pid fuel (st_of h m) = None.
Proof.
  intros Hi Hlc Hlf Hnd Hown Hdok Hdfail Hsf Hff Hmid Hs Hfuel.
  apply NoDup_app in Hnd as (Hndc & Hdisj & Hndf).
  destruct fuel as [| fuel]; [lia |].
  destruct (destroy_loop fuel sc fc (S fuel - length (sc ++ fc) - 1) h m
              Hi Hlc Hndc Hown Hdok Hdfail)
    as (m1 & [Hh1 Hf1] & Hi1 & Hrun1).
  replace (length (sc ++ fc) + S (S fuel - length (sc ++ fc) - 1))%nat
    with (S fuel) in Hrun1 by lia.
  set (h1 := foldr delete h (sc ++ fc)) in *.
  assert (Hlf1 : is_list h1 (foreign_regions m1)
                   (sf ++ f :: mid ++ s :: rest)).
  { rewrite Hf1. unfold h1. clear -Hlf Hdisj.
    induction (sc ++ fc) as [| a l IH]; cbn; [exact Hlf |].
    apply is_list_delete.
    - apply IH. intros x Hx. apply Hdisj. right. exact Hx.
    - apply Hdisj. left. }
  assert (Hsame : forall a, detach_ok m1 a <-> detach_ok m a).
  { intros a. unfold detach_ok. rewrite Hh1. tauto. }
  unfold df_shm_finalize. cbn [method st_of mbind option_bind].
  rewrite Hi. cbn [Z.eqb negb Pos.eqb].
  change {| regions := h; method := Some m |} with (st_of h m).
  rewrite Hrun1. cbn [mbind option_bind method st_of].
  change {| regions := h1; method := Some m1 |} with (st_of h1 m1).
  rewrite (detach_loop_trips (S fuel) f mid s rest sf (S fuel) h1 m1);
    try assumption; [reflexivity | | | |].
  - eapply Forall_impl; [exact Hsf |]. intros a Ha. apply Hsame. exact Ha.
  - intros Ha. apply Hff. apply Hsame. exact Ha.
  - eapply Forall_impl; [exact Hmid |]. intros a Ha Hb. apply Ha.
    apply Hsame. exact Hb.
  - apply Hsame. exact Hs.
Qed.

Lemma two_regions_reached :
  do_calls 1 10 flaky_init [CreateRegion 200 64 0; CreateRegion 100 64 0]
  = Some {| regions := two_regions; method := Some two_regions_method |}.
Proof. vm_compute. reflexivity. Qed.


(** ** The lists under disciplined use *)

Lemma is_list_insert h a x : forall l head,
  is_list h head l -> a ∉ l -> is_list (<[a := x]> h) head l.
Proof.
  induction l as [| b l IH]; intros head Hl Hnotin; cbn in *.
  - exact Hl.
  - destruct Hl as (-> & Hnull & reg & Hreg & Hrest).
    apply not_elem_of_cons in Hnotin as [Hne Hnotin].
    split; [reflexivity |]. split; [assumption |].
    exists reg. split; [| apply IH; assumption].
    rewrite lookup_insert_ne by congruence. exact Hreg.
Qed.

Lemma is_list_allocated h : forall l head a,
  is_list h head l -> a ∈ l -> is_Some (h !! a).
Proof.
  induction l as [| b l IH]; intros head a Hl Hin; cbn in *.
  - apply elem_of_nil in Hin. contradiction.
  - destruct Hl as (-> & Hnull & reg & Hreg & Hrest).
    apply elem_of_cons in Hin as [-> | Hin].
    + exists reg. exact Hreg.
    + apply (IH _ _ Hrest Hin).
Qed.

Lemma is_list_not_null h : forall l head,
  is_list h head l -> NULL ∉ l.
Proof.
  induction l as [| b l IH]; intros head Hl Hin; cbn in *.
  - apply elem_of_nil in Hin. contradiction.
  - destruct Hl as (-> & Hnull & reg & Hreg & Hrest).
    apply elem_of_cons in Hin as [Heq | Hin]; [congruence |].
    apply (IH _ Hrest Hin).
Qed.

(** Walking a well-formed list meets its handles. *)
Lemma walk_is_list h : forall l fuel head,
  is_list h head l -> (length l < fuel)%nat -> walk fuel h head = l.
Proof.
  induction l as [| a l IH]; intros fuel head Hl Hfuel; cbn in *.
  - subst head. destruct fuel; reflexivity.
  - destruct Hl as (-> & Hnull & reg & Hreg & Hrest).
    destruct fuel as [| fuel]; [lia |]. cbn.
    apply Z.eqb_neq in Hnull. rewrite Hnull, Hreg.
    f_equal. apply IH; [assumption | lia].
Qed.

(** Distinct allocated handles are no more than the heap holds. *)
Lemma allocated_length (h : gmap Z df_shm_region) l :
  NoDup l -> (forall a, a ∈ l -> is_Some (h !! a)) ->
  (length l <= base.size h)%nat.
Proof.
  intros Hnd Hall.
  rewrite <- (size_list_to_set (C := gset Z) l Hnd).
  rewrite <- (size_dom (D := gset Z) h).
  apply subseteq_size. intros a Ha.
  apply elem_of_list_to_set in Ha. apply elem_of_dom. apply Hall. exact Ha.
Qed.

(** The loop of [remove_region_from_list] past the list head: it finds [r]
    behind the handles [l1], and stores into the [next] field of the
    predecessor [p] of [r]. *)
Lemma remove_loop_found : forall l1 fuel h head temp last lreg r l2,
  is_list h temp (l1 ++ r :: l2) ->
  NoDup (last :: l1 ++ r :: l2) ->
  h !! last = Some lreg -> next lreg = temp -> last <> NULL ->
  (length l1 < fuel)%nat ->
  exists p preg rreg,
    p ∈ last :: l1 /\ h !! p = Some preg /\ h !! r = Some rreg
    /\ remove_loop fuel h head temp last r
       = Some (0, <[p := set_next preg (next rreg)]> h, head)
    /\ is_list (delete r (<[p := set_next preg (next rreg)]> h))
         last (last :: l1 ++ l2).
Proof.
  induction l1 as [| a l1 IH];
    intros fuel h head temp last lreg r l2 Hl Hnd Hlast Hnext Hnull Hfuel.
  - cbn in Hl. destruct Hl as (-> & Hrnull & rreg & Hr & Hrest).
    apply NoDup_cons in Hnd as [Hlast_notin Hnd]. cbn in Hlast_notin, Hnd.
    apply not_elem_of_cons in Hlast_notin as [Hlr Hlast_notin].
    apply NoDup_cons in Hnd as [Hr_notin Hnd].
    exists last, lreg, rreg.
    split; [apply elem_of_cons; left; reflexivity |].
    split; [exact Hlast |]. split; [exact Hr |].
    destruct fuel as [| fuel]; [cbn in Hfuel; lia |]. cbn [remove_loop].
    apply Z.eqb_neq in Hrnull. rewrite Hrnull, Hr, Z.eqb_refl.
    pose proof Hnull as Hnull'. apply Z.eqb_neq in Hnull'. rewrite Hnull', Hlast.
    split; [reflexivity |].
    cbn. split; [reflexivity |]. split; [assumption |].
    exists (set_next lreg (next rreg)). split.
    + rewrite lookup_delete_ne by congruence. apply lookup_insert_eq.
    + cbn. apply is_list_delete; [| assumption].
      apply is_list_insert; assumption.
  - cbn in Hl. destruct Hl as (-> & Hanull & areg & Ha & Hrest).
    pose proof Hnd as Hnd0.
    apply NoDup_cons in Hnd as [Hlast_notin Hnd]. cbn in Hlast_notin, Hnd.
    assert (Har : a <> r).
    { apply NoDup_cons in Hnd as [Hnotin _]. intros ->. apply Hnotin.
      apply elem_of_app. right. apply elem_of_cons. left. reflexivity. }
    destruct fuel as [| fuel]; [cbn in Hfuel; lia |]. cbn [remove_loop].
    pose proof Hanull as Hanull'. apply Z.eqb_neq in Hanull'. rewrite Hanull', Ha.
    pose proof Har as Har'. apply Z.eqb_neq in Har'. rewrite Har'.
    destruct (IH fuel h head (next areg) a areg r l2 Hrest Hnd Ha eq_refl Hanull)
      as (p & preg & rreg & Hp & Hpreg & Hr & Hrun & Hlist).
    { cbn in Hfuel. lia. }
    exists p, preg, rreg.
    split; [apply elem_of_cons; right; exact Hp |].
    split; [exact Hpreg |]. split; [exact Hr |]. split; [exact Hrun |].
    cbn. split; [reflexivity |]. split; [assumption |].
    exists lreg. split; [| rewrite Hnext; exact Hlist].
    assert (Hlr : last <> r).
    { intros ->. apply Hlast_notin. apply elem_of_cons. right.
      apply elem_of_app. right. apply elem_of_cons. left. reflexivity. }
    assert (Hlp : p <> last).
    { intros ->. apply Hlast_notin.
      apply elem_of_cons in Hp as [-> | Hp];
        [apply elem_of_cons; left; reflexivity |].
      apply elem_of_cons. right. apply elem_of_app. left. exact Hp. }
    rewrite lookup_delete_ne by congruence.
    rewrite lookup_insert_ne by congruence. exact Hlast.
Qed.

(** [remove_region_from_list] on a handle of the list. *)
Lemma remove_from_list fuel h head l1 r l2 :
  is_list h head (l1 ++ r :: l2) -> NoDup (l1 ++ r :: l2) ->
  (length l1 < fuel)%nat ->
  exists h' head',
    remove_region_from_list fuel h head r = Some (0, h', head')
    /\ is_list (delete r h') head' (l1 ++ l2)
    /\ relinked h h' l1.
Proof.
  intros Hl Hnd Hfuel.
  destruct l1 as [| a l1].
  - cbn in Hl. pose proof Hl as (-> & Hnull & rreg & Hr & Hrest).
    destruct fuel as [| fuel]; [cbn in Hfuel; lia |].
    exists h, (next rreg).
    rewrite (remove_first fuel h r r rreg l2 Hl Hr).
    split; [reflexivity |]. split; [| left; reflexivity].
    cbn. apply is_list_delete; [assumption |].
    cbn in Hnd. apply NoDup_cons in Hnd as [Hnotin _]. exact Hnotin.
  - cbn in Hl. destruct Hl as (-> & Hanull & areg & Ha & Hrest).
    assert (Har : a <> r).
    { cbn in Hnd. apply NoDup_cons in Hnd as [Hnotin _]. intros ->.
      apply Hnotin. apply elem_of_app. right. apply elem_of_cons. left.
      reflexivity. }
    destruct fuel as [| fuel]; [cbn in Hfuel; lia |].
    destruct (remove_loop_found l1 fuel h a (next areg) a areg r l2
                Hrest Hnd Ha eq_refl Hanull)
      as (p & preg & rreg & Hp & Hpreg & Hr & Hrun & Hlist).
    { cbn in Hfuel. lia. }
    exists (<[p := set_next preg (next rreg)]> h), a.
    unfold remove_region_from_list.
    pose proof Hanull as Hanull'. apply Z.eqb_neq in Hanull'. rewrite Hanull'.
    cbn [remove_loop]. rewrite Hanull', Ha.
    pose proof Har as Har'. apply Z.eqb_neq in Har'. rewrite Har'.
    split; [exact Hrun |]. split; [exact Hlist |].
    right. exists p, preg, (next rreg). auto.
Qed.

Lemma relinked_is_list h h' l : forall l0 head,
  relinked h h' l -> is_list h head l0 -> (forall x, x ∈ l -> x ∉ l0) ->
  is_list h' head l0.
Proof.
  intros l0 head [-> | (p & preg & nx & Hp & Hpreg & ->)] Hl Hdisj.
  - exact Hl.
  - apply is_list_insert; [exact Hl | apply Hdisj; exact Hp].
Qed.

Lemma relinked_own_region h h' l x :
  relinked h h' l -> (own_region pid h' x <-> own_region pid h x).
Proof.
  intros [-> | (p & preg & nx & Hp & Hpreg & ->)]; [reflexivity |].
  unfold own_region. destruct (decide (p = x)) as [-> | Hne].
  - rewrite lookup_insert_eq. split.
    + intros (reg & Hreg & Hc). inversion Hreg; subst reg.
      exists preg. split; [exact Hpreg | exact Hc].
    + intros (reg & Hreg & Hc). rewrite Hpreg in Hreg. inversion Hreg; subst reg.
      exists (set_next preg nx). split; [reflexivity | exact Hc].
  - rewrite lookup_insert_ne by assumption. reflexivity.
Qed.

Lemma relinked_allocated h h' l x :
  relinked h h' l -> (is_Some (h' !! x) <-> is_Some (h !! x)).
Proof.
  intros [-> | (p & preg & nx & Hp & Hpreg & ->)]; [reflexivity |].
  destruct (decide (p = x)) as [-> | Hne].
  - rewrite lookup_insert_eq, Hpreg. split; intros _; eexists; reflexivity.
  - rewrite lookup_insert_ne by assumption. reflexivity.
Qed.

Lemma own_region_delete h a x :
  x <> a -> (own_region pid (delete a h) x <-> own_region pid h x).
Proof.
  intros Hne. unfold own_region. rewrite lookup_delete_ne by congruence.
  reflexivity.
Qed.

Lemma own_region_insert h a reg x :
  x <> a -> (own_region pid (<[a := reg]> h) x <-> own_region pid h x).
Proof.
  intros Hne. unfold own_region. rewrite lookup_insert_ne by congruence.
  reflexivity.
Qed.

(** A well-formed pair of lists has every allocated handle on exactly one
    of them. *)
Lemma lists_inv_exactly_one st lc lf :
  lists_inv pid st lc lf ->
  created_list st = lc /\ foreign_list st = lf /\ on_exactly_one_list st.
Proof.
  intros (m & Hm & Hi & Hlc & Hlf & Hnd & Hcover & Hown & Hnot).
  assert (Hlen : (length (lc ++ lf) <= base.size (regions st))%nat).
  { apply allocated_length; [exact Hnd |].
    intros a Ha. apply elem_of_app in Ha as [Ha | Ha].
    - apply (is_list_allocated _ _ _ _ Hlc Ha).
    - apply (is_list_allocated _ _ _ _ Hlf Ha). }
  rewrite length_app in Hlen.
  assert (Hc : created_list st = lc).
  { unfold created_list. rewrite Hm. apply walk_is_list; [exact Hlc | lia]. }
  assert (Hf : foreign_list st = lf).
  { unfold foreign_list. rewrite Hm. apply walk_is_list; [exact Hlf | lia]. }
  split; [exact Hc |]. split; [exact Hf |].
  intros r Hr. rewrite Hc, Hf.
  apply NoDup_app in Hnd as (_ & Hdisj & _).
  apply Hcover in Hr. apply elem_of_app in Hr as [Hr | Hr].
  - left. split; [exact Hr | apply Hdisj; exact Hr].
  - right. split; [| exact Hr]. intros Hr'. apply (Hdisj r Hr' Hr).
Qed.

(** Linking a new handle at the front of one list. *)
Lemma add_new_region h head r reg :
  add_region_to_list (<[r := reg]> h) head r
  = Some (<[r := set_next reg head]> (<[r := reg]> h), r).
Proof. unfold add_region_to_list. rewrite lookup_insert_eq. reflexivity. Qed.

Lemma new_handle_fresh h lc lf cm fm r :
  is_list h cm lc -> is_list h fm lf -> h !! r = None -> r ∉ lc ++ lf.
Proof.
  intros Hlc Hlf Hr Hin. apply elem_of_app in Hin as [Hin | Hin].
  - destruct (is_list_allocated _ _ _ _ Hlc Hin) as [x Hx]. congruence.
  - destruct (is_list_allocated _ _ _ _ Hlf Hin) as [x Hx]. congruence.
Qed.

Lemma lists_inv_create h m lc lf r reg count :
  lists_inv pid (st_of h m) lc lf ->
  h !! r = None -> r <> NULL -> creator_id reg = pid ->
  lists_inv pid
    (st_of (<[r := set_next reg (created_regions m)]> (<[r := reg]> h))
           (set_created m r count))
    (r :: lc) lf.
Proof.
  intros (m0 & Hm & Hi & Hlc & Hlf & Hnd & Hcover & Hown & Hnot) Hr Hnull Hc.
  cbn in Hm. inversion Hm; subst m0. cbn [regions st_of] in *.
  pose proof (new_handle_fresh _ _ _ _ _ _ Hlc Hlf Hr) as Hfresh.
  apply not_elem_of_app in Hfresh as [Hfc Hff].
  exists (set_created m r count).
  split; [reflexivity |]. split; [exact Hi |].
  split.
  { cbn. split; [reflexivity |]. split; [exact Hnull |].
    exists (set_next reg (created_regions m)).
    split; [apply lookup_insert_eq |]. cbn.
    apply is_list_insert; [apply is_list_insert |]; assumption. }
  split.
  { cbn. apply is_list_insert; [apply is_list_insert |]; assumption. }
  split.
  { cbn. apply NoDup_cons. split; [| exact Hnd].
    apply not_elem_of_app. split; assumption. }
  split.
  { cbn [regions st_of]. intros x Hx. destruct (decide (x = r)) as [-> | Hne].
    - apply elem_of_cons. left. reflexivity.
    - rewrite !lookup_insert_ne in Hx by congruence.
      cbn. apply elem_of_cons. right. apply Hcover. exact Hx. }
  cbn [regions st_of].
  split.
  { apply Forall_cons. split.
    - exists (set_next reg (created_regions m)).
      split; [apply lookup_insert_eq | exact Hc].
    - rewrite Forall_forall in *. intros x Hx.
      assert (x <> r) by (intros ->; contradiction).
      apply own_region_insert; [assumption |].
      apply own_region_insert; [assumption |]. apply Hown. exact Hx. }
  rewrite Forall_forall in *. intros x Hx Habs.
  assert (x <> r) by (intros ->; contradiction).
  apply (Hnot x Hx).
  apply own_region_insert in Habs; [| assumption].
  apply own_region_insert in Habs; assumption.
Qed.

Lemma lists_inv_attach h m lc lf r reg count :
  lists_inv pid (st_of h m) lc lf ->
  h !! r = None -> r <> NULL -> creator_id reg <> pid ->
  lists_inv pid
    (st_of (<[r := set_next reg (foreign_regions m)]> (<[r := reg]> h))
           (set_foreign m r count))
    lc (r :: lf).
Proof.
  intros (m0 & Hm & Hi & Hlc & Hlf & Hnd & Hcover & Hown & Hnot) Hr Hnull Hc.
  cbn in Hm. inversion Hm; subst m0. cbn [regions st_of] in *.
  pose proof (new_handle_fresh _ _ _ _ _ _ Hlc Hlf Hr) as Hfresh.
  apply not_elem_of_app in Hfresh as [Hfc Hff].
  exists (set_foreign m r count).
  split; [reflexivity |]. split; [exact Hi |].
  split.
  { cbn. apply is_list_insert; [apply is_list_insert |]; assumption. }
  split.
  { cbn. split; [reflexivity |]. split; [exact Hnull |].
    exists (set_next reg (foreign_regions m)).
    split; [apply lookup_insert_eq |]. cbn.
    apply is_list_insert; [apply is_list_insert |]; assumption. }
  split.
  { apply NoDup_app in Hnd as (Hndc & Hdisj & Hndf).
    apply NoDup_app. split; [exact Hndc |]. split.
    - intros x Hx Hx'. apply elem_of_cons in Hx' as [-> | Hx'];
        [contradiction | apply (Hdisj x Hx Hx')].
    - apply NoDup_cons. split; assumption. }
  split.
  { cbn [regions st_of]. intros x Hx. destruct (decide (x = r)) as [-> | Hne].
    - apply elem_of_app. right. apply elem_of_cons. left. reflexivity.
    - rewrite !lookup_insert_ne in Hx by congruence.
      apply Hcover in Hx. apply elem_of_app in Hx as [Hx | Hx];
        apply elem_of_app; [left | right; apply elem_of_cons; right]; exact Hx. }
  cbn [regions st_of].
  split.
  { rewrite Forall_forall in *. intros x Hx.
    assert (x <> r) by (intros ->; contradiction).
    apply own_region_insert; [assumption |].
    apply own_region_insert; [assumption |]. apply Hown. exact Hx. }
  apply Forall_cons. split.
  - intros (reg' & Hreg' & Hc'). rewrite lookup_insert_eq in Hreg'.
    inversion Hreg'; subst reg'. apply Hc. exact Hc'.
  - rewrite Forall_forall in *. intros x Hx Habs.
    assert (x <> r) by (intros ->; contradiction).
    apply (Hnot x Hx).
    apply own_region_insert in Habs; [| assumption].
    apply own_region_insert in Habs; assumption.
Qed.

Lemma NoDup_remove_middle (l1 l2 lf : list Z) r :
  NoDup ((l1 ++ r :: l2) ++ lf) ->
  NoDup ((l1 ++ l2) ++ lf) /\ r ∉ (l1 ++ l2) ++ lf.
Proof.
  rewrite <- !app_assoc. cbn. intros H.
  apply NoDup_app in H as (H1 & H2 & H3).
  apply NoDup_cons in H3 as [H3 H4]. split.
  - apply NoDup_app. split; [exact H1 |]. split; [| exact H4].
    intros x Hx Hx'. apply (H2 x Hx). apply elem_of_cons. right. exact Hx'.
  - rewrite elem_of_app. intros [Hr | Hr]; [| contradiction].
    apply (H2 r Hr). apply elem_of_cons. left. reflexivity.
Qed.

Lemma NoDup_remove_middle_r (lc l1 l2 : list Z) r :
  NoDup (lc ++ l1 ++ r :: l2) ->
  NoDup (lc ++ l1 ++ l2) /\ r ∉ lc ++ l1 ++ l2.
Proof.
  intros H. apply NoDup_app in H as (H1 & H2 & H3).
  pose proof (NoDup_remove_middle l1 l2 [] r) as H4.
  rewrite !app_nil_r in H4. destruct (H4 H3) as [H5 H6].
  split.
  - apply NoDup_app. split; [exact H1 |]. split; [| exact H5].
    intros x Hx Hx'. apply (H2 x Hx).
    rewrite elem_of_app, elem_of_cons. rewrite elem_of_app in Hx'. tauto.
  - rewrite elem_of_app. intros [Hr | Hr]; [| contradiction].
    apply (H2 r Hr). rewrite elem_of_app, elem_of_cons. tauto.
Qed.

(** Unlinking and freeing a handle of the created list. *)
Lemma lists_inv_unlink_created fuel h m lc lf r count :
  lists_inv pid (st_of h m) lc lf -> r ∈ lc -> (length lc < fuel)%nat ->
  exists h' head' lc',
    remove_region_from_list fuel h (created_regions m) r = Some (0, h', head')
    /\ lists_inv pid (st_of (delete r h') (set_created m head' count)) lc' lf
    /\ length lc = S (length lc').
Proof.
  intros (m0 & Hm & Hi & Hlc & Hlf & Hnd & Hcover & Hown & Hnot) Hr Hfuel.
  cbn in Hm. inversion Hm; subst m0. cbn [regions st_of] in *.
  apply list_elem_of_split in Hr as (l1 & l2 & ->).
  pose proof Hnd as Hnd0. apply NoDup_app in Hnd0 as (Hndc & Hdisj & Hndf).
  destruct (NoDup_remove_middle _ _ _ _ Hnd) as [Hnd' Hfresh].
  destruct (remove_from_list fuel h (created_regions m) l1 r l2 Hlc Hndc)
    as (h' & head' & Hrun & Hlist & Hrel).
  { rewrite length_app in Hfuel. lia. }
  exists h', head', (l1 ++ l2). split; [exact Hrun |].
  split; [| rewrite !length_app; cbn [length]; lia].
  exists (set_created m head' count).
  split; [reflexivity |]. split; [exact Hi |]. cbn [regions st_of].
  split; [exact Hlist |].
  split.
  { cbn. apply is_list_delete.
    - apply (relinked_is_list h h' l1); [exact Hrel | exact Hlf |].
      intros x Hx. apply Hdisj. rewrite elem_of_app. tauto.
    - intros Hin. apply Hfresh. rewrite elem_of_app. tauto. }
  split; [exact Hnd' |].
  split.
  { intros x Hx. destruct (decide (x = r)) as [-> | Hne].
    - rewrite lookup_delete_eq in Hx. destruct Hx as [? Hx]. discriminate.
    - rewrite lookup_delete_ne in Hx by congruence.
      apply (relinked_allocated h h' l1 x Hrel) in Hx. apply Hcover in Hx.
      revert Hx. rewrite !elem_of_app, !elem_of_cons. tauto. }
  split.
  { rewrite Forall_forall in *. intros x Hx.
    assert (Hne : x <> r).
    { intros ->. apply Hfresh. rewrite elem_of_app. tauto. }
    apply own_region_delete; [exact Hne |].
    apply (relinked_own_region h h' l1 x Hrel). apply Hown.
    revert Hx. rewrite !elem_of_app, !elem_of_cons. tauto. }
  rewrite Forall_forall in *. intros x Hx Habs.
  assert (Hne : x <> r).
  { intros ->. apply Hfresh. rewrite elem_of_app. tauto. }
  apply (Hnot x Hx).
  apply own_region_delete in Habs; [| exact Hne].
  apply (relinked_own_region h h' l1 x Hrel). exact Habs.
Qed.

(** Unlinking and freeing a handle of the foreign list. *)
Lemma lists_inv_unlink_foreign fuel h m lc lf r count :
  lists_inv pid (st_of h m) lc lf -> r ∈ lf -> (length lf < fuel)%nat ->
  exists h' head' lf',
    remove_region_from_list fuel h (foreign_regions m) r = Some (0, h', head')
    /\ lists_inv pid (st_of (delete r h') (set_foreign m head' count)) lc lf'
    /\ length lf = S (length lf').
Proof.
  intros (m0 & Hm & Hi & Hlc & Hlf & Hnd & Hcover & Hown & Hnot) Hr Hfuel.
  cbn in Hm. inversion Hm; subst m0. cbn [regions st_of] in *.
  apply list_elem_of_split in Hr as (l1 & l2 & ->).
  pose proof Hnd as Hnd0. apply NoDup_app in Hnd0 as (Hndc & Hdisj & Hndf).
  destruct (NoDup_remove_middle_r _ _ _ _ Hnd) as [Hnd' Hfresh].
  destruct (remove_from_list fuel h (foreign_regions m) l1 r l2 Hlf Hndf)
    as (h' & head' & Hrun & Hlist & Hrel).
  { rewrite length_app in Hfuel. lia. }
  exists h', head', (l1 ++ l2). split; [exact Hrun |].
  split; [| rewrite !length_app; cbn [length]; lia].
  exists (set_foreign m head' count).
  split; [reflexivity |]. split; [exact Hi |]. cbn [regions st_of].
  split.
  { cbn. apply is_list_delete.
    - apply (relinked_is_list h h' l1); [exact Hrel | exact Hlc |].
      intros x Hx Hx'. apply (Hdisj x Hx'). rewrite elem_of_app. tauto.
    - intros Hin. apply Hfresh. rewrite elem_of_app. tauto. }
  split; [exact Hlist |].
  split; [exact Hnd' |].
  split.
  { intros x Hx. destruct (decide (x = r)) as [-> | Hne].
    - rewrite lookup_delete_eq in Hx. destruct Hx as [? Hx]. discriminate.
    - rewrite lookup_delete_ne in Hx by congruence.
      apply (relinked_allocated h h' l1 x Hrel) in Hx. apply Hcover in Hx.
      revert Hx. rewrite !elem_of_app, !elem_of_cons. tauto. }
  split.
  { rewrite Forall_forall in *. intros x Hx.
    assert (Hne : x <> r).
    { intros ->. apply Hfresh. rewrite elem_of_app. tauto. }
    apply own_region_delete; [exact Hne |].
    apply (relinked_own_region h h' l1 x Hrel). apply Hown. exact Hx. }
  rewrite Forall_forall in *. intros x Hx Habs.
  assert (Hne : x <> r).
  { intros ->. apply Hfresh. rewrite elem_of_app. right. exact Hx. }
  apply (Hnot x).
  { revert Hx. rewrite !elem_of_app, !elem_of_cons. tauto. }
  apply own_region_delete in Habs; [| exact Hne].
  apply (relinked_own_region h h' l1 x Hrel). exact Habs.
Qed.

Lemma lists_inv_null_free h m lc lf :
  lists_inv pid (st_of h m) lc lf -> h !! NULL = None.
Proof.
  intros (m0 & Hm & Hi & Hlc & Hlf & Hnd & Hcover & Hown & Hnot).
  cbn [regions st_of] in *.
  destruct (h !! NULL) as [reg |] eqn:E; [| reflexivity].
  exfalso. assert (Hin : NULL ∈ lc ++ lf) by (apply Hcover; eexists; exact E).
  apply elem_of_app in Hin as [Hin | Hin].
  - apply (is_list_not_null _ _ _ Hlc Hin).
  - apply (is_list_not_null _ _ _ Hlf Hin).
Qed.

Lemma lists_inv_lengths h m lc lf :
  lists_inv pid (st_of h m) lc lf ->
  (length lc + length lf <= base.size h)%nat.
Proof.
  intros (m0 & Hm & Hi & Hlc & Hlf & Hnd & Hcover & Hown & Hnot).
  cbn [regions st_of] in *. rewrite <- length_app.
  apply allocated_length; [exact Hnd |].
  intros a Ha. apply elem_of_app in Ha as [Ha | Ha].
  - apply (is_list_allocated _ _ _ _ Hlc Ha).
  - apply (is_list_allocated _ _ _ _ Hlf Ha).
Qed.

(** An allocated handle is on the created list when it records this
    process as creator, and on the foreign list otherwise. *)
Lemma lists_inv_where h m lc lf r :
  lists_inv pid (st_of h m) lc lf -> is_Some (h !! r) ->
  (own_region pid h r -> r ∈ lc) /\ (~ own_region pid h r -> r ∈ lf).
Proof.
  intros (m0 & Hm & Hi & Hlc & Hlf & Hnd & Hcover & Hown & Hnot) Hr.
  cbn [regions st_of] in *. rewrite Forall_forall in Hown, Hnot.
  apply Hcover in Hr. apply elem_of_app in Hr as [Hr | Hr]; split; intros H.
  - exact Hr.
  - exfalso. apply H. apply Hown. exact Hr.
  - exfalso. apply (Hnot r Hr H).
  - exact Hr.
Qed.

(** The two ways a call moves the counters: not at all, or as the proof
    context says. *)
Ltac track_same :=
  let m1 := fresh "m" in
  intros ? (m1 & ? & ? & ? & ?); exists m1;
  split; [assumption |]; split; [assumption |]; split; lia.

Ltac track_step :=
  let m1 := fresh "m" in
  let Hm1 := fresh "Hm" in
  intros ? (m1 & Hm1 & ? & ? & ?); cbn in Hm1; inversion Hm1; subst m1;
  eexists; split; [reflexivity |];
  cbn [set_created set_foreign num_foreign_regions num_created_regions length];
  repeat split; lia.

Lemma create_tracks_lists h m lc lf r sz hint :
  lists_inv pid (st_of h m) lc lf -> 0 < sz -> h !! r = None ->
  exists ret st' lc',
    df_create_shm_region pid (st_of h m) r sz hint = Some (ret, st')
    /\ lists_inv pid st' lc' lf
    /\ forall n, counters_track (st_of h m) lc lf n ->
                 counters_track st' lc' lf (n + 1).
Proof.
  intros Hinv Hsz Hr.
  pose proof Hinv as (m0 & Hm & Hi & _). cbn in Hm. inversion Hm; subst m0.
  unfold df_create_shm_region. cbn [method st_of regions mbind option_bind].
  rewrite Hi. apply Z.ltb_lt in Hsz. rewrite Hsz. cbn [Z.eqb negb orb Pos.eqb].
  destruct (r =? NULL) eqn:Hnull.
  { do 3 eexists. split; [reflexivity |]. split; [exact Hinv | track_same]. }
  apply Z.eqb_neq in Hnull. rewrite Hr.
  destruct (match create_region_func (hooks m) with
            | Some f => f sz hint
            | None => (0, 0, 0)
            end) as [[rc data] addr].
  destruct (rc =? 0) eqn:Hrc; cbn [negb].
  2:{ do 3 eexists. split; [reflexivity |]. split; [exact Hinv | track_same]. }
  rewrite add_new_region. cbn.
  do 3 eexists. split; [reflexivity |]. split.
  - apply (lists_inv_create h m lc lf r); try assumption. reflexivity.
  - track_step.
Qed.

Lemma create_named_tracks_lists h m lc lf r name name_size sz hint :
  lists_inv pid (st_of h m) lc lf -> 0 < sz -> h !! r = None ->
  (is_Some (create_region_func (hooks m)) ->
   is_Some (create_named_region_func (hooks m))) ->
  exists ret st' lc',
    df_create_named_shm_region pid (st_of h m) r name name_size sz hint
    = Some (ret, st')
    /\ lists_inv pid st' lc' lf
    /\ forall n, counters_track (st_of h m) lc lf n ->
                 counters_track st' lc' lf (n + 1).
Proof.
  intros Hinv Hsz Hr Hreg.
  pose proof Hinv as (m0 & Hm & Hi & _). cbn in Hm. inversion Hm; subst m0.
  unfold df_create_named_shm_region. cbn [method st_of regions mbind option_bind].
  rewrite Hi. apply Z.ltb_lt in Hsz. rewrite Hsz. cbn [Z.eqb negb orb Pos.eqb].
  destruct (r =? NULL) eqn:Hnull.
  { do 3 eexists. split; [reflexivity |]. split; [exact Hinv | track_same]. }
  apply Z.eqb_neq in Hnull. rewrite Hr.
  assert (Hans : exists rc data addr,
            match create_region_func (hooks m) with
            | Some _ =>
                match create_named_region_func (hooks m) with
                | Some f => Some (f name name_size sz hint)
                | None => None
                end
            | None => Some (0, 0, 0)
            end = Some (rc, data, addr)).
  { destruct (create_region_func (hooks m)) as [f |].
    - destruct Hreg as [g Hg]; [eexists; reflexivity |]. rewrite Hg.
      destruct (g name name_size sz hint) as [[rc data] addr]. eauto.
    - eauto. }
  destruct Hans as (rc & data & addr & ->). cbn [mbind option_bind].
  destruct (rc =? 0) eqn:Hrc; cbn [negb].
  2:{ do 3 eexists. split; [reflexivity |]. split; [exact Hinv | track_same]. }
  rewrite add_new_region. cbn.
  do 3 eexists. split; [reflexivity |]. split.
  - apply (lists_inv_create h m lc lf r); try assumption. reflexivity.
  - track_step.
Qed.

Lemma attach_tracks_lists creator h m lc lf r what sz hint :
  lists_inv pid (st_of h m) lc lf -> what <> NULL -> h !! r = None ->
  creator <> pid ->
  exists ret st' lf',
    attach_with creator (st_of h m) r what sz hint = Some (ret, st')
    /\ lists_inv pid st' lc lf'
    /\ forall n, counters_track (st_of h m) lc lf n ->
                 counters_track st' lc lf' (n + 1).
Proof.
  intros Hinv Hwhat Hr Hcreator.
  pose proof Hinv as (m0 & Hm & Hi & _). cbn in Hm. inversion Hm; subst m0.
  unfold attach_with. cbn [method st_of regions mbind option_bind].
  rewrite Hi. apply Z.eqb_neq in Hwhat. rewrite Hwhat.
  cbn [Z.eqb negb orb Pos.eqb].
  destruct (r =? NULL) eqn:Hnull.
  { do 3 eexists. split; [reflexivity |]. split; [exact Hinv | track_same]. }
  apply Z.eqb_neq in Hnull. rewrite Hr.
  destruct (match attach_region_func (hooks m) with
            | Some f => f what sz hint
            | None => (0, 0, 0)
            end) as [[rc data] addr].
  destruct (rc =? 0) eqn:Hrc; cbn [negb].
  2:{ do 3 eexists. split; [reflexivity |]. split; [exact Hinv | track_same]. }
  rewrite add_new_region. cbn.
  do 3 eexists. split; [reflexivity |]. split.
  - apply (lists_inv_attach h m lc lf r); assumption.
  - track_step.
Qed.

Lemma detach_tracks_lists fuel h m lc lf r :
  lists_inv pid (st_of h m) lc lf -> is_Some (h !! r) ->
  ~ own_region pid h r -> detach_ok m r -> (base.size h < fuel)%nat ->
  exists st' lf',
    df_detach_shm_region fuel (st_of h m) r = Some (0, st')
    /\ lists_inv pid st' lc lf'
    /\ forall n, counters_track (st_of h m) lc lf n ->
                 counters_track st' lc lf' (n + 1).
Proof.
  intros Hinv Hr Hnot Hok Hfuel.
  pose proof Hinv as (m0 & Hm & Hi & _). cbn in Hm. inversion Hm; subst m0.
  pose proof (lists_inv_null_free _ _ _ _ Hinv) as Hnull.
  pose proof (lists_inv_lengths _ _ _ _ Hinv) as Hlen.
  destruct (lists_inv_where _ _ _ _ r Hinv Hr) as [_ Hin].
  specialize (Hin Hnot).
  destruct (lists_inv_unlink_foreign fuel h m lc lf r (num_foreign_regions m - 1)
              Hinv Hin) as (h' & head' & lf' & Hrun & Hinv' & Hlen'); [lia |].
  unfold df_detach_shm_region. cbn [method st_of regions].
  assert (Hrn : r <> NULL).
  { intros ->. destruct Hr as [x Hx]. congruence. }
  apply Z.eqb_neq in Hrn. rewrite Hrn.
  destruct Hr as [reg Hreg]. rewrite Hreg. cbn [mbind option_bind].
  rewrite Hi. cbn [Z.eqb negb Pos.eqb].
  unfold detach_ok, answer in Hok. rewrite Hok. cbn [Z.eqb negb].
  rewrite Hrun. cbn.
  exists (st_of (delete r h') (set_foreign m head' (num_foreign_regions m - 1))), lf'.
  split; [reflexivity |]. split; [exact Hinv' | track_step].
Qed.

Lemma destroy_tracks_lists fuel h m lc lf r :
  lists_inv pid (st_of h m) lc lf -> is_Some (h !! r) ->
  (own_region pid h r -> destroy_ok m r) ->
  (~ own_region pid h r -> detach_ok m r) ->
  (base.size h < fuel)%nat ->
  exists st' lc' lf',
    df_destroy_shm_region pid fuel (st_of h m) r = Some (0, st')
    /\ lists_inv pid st' lc' lf'
    /\ forall n, counters_track (st_of h m) lc lf n ->
                 counters_track st' lc' lf' (n + 1).
Proof.
  intros Hinv Hr Hown Hother Hfuel.
  pose proof Hinv as (m0 & Hm & Hi & _). cbn in Hm. inversion Hm; subst m0.
  pose proof (lists_inv_null_free _ _ _ _ Hinv) as Hnull.
  pose proof (lists_inv_lengths _ _ _ _ Hinv) as Hlen.
  destruct (lists_inv_where _ _ _ _ r Hinv Hr) as [Hin_c Hin_f].
  assert (Hrn : r <> NULL).
  { intros ->. destruct Hr as [x Hx]. congruence. }
  pose proof Hr as [reg Hreg].
  unfold df_destroy_shm_region. cbn [method st_of regions].
  pose proof Hrn as Hrn'. apply Z.eqb_neq in Hrn'. rewrite Hrn', Hreg.
  cbn [mbind option_bind]. rewrite Hi. cbn [Z.eqb negb Pos.eqb].
  destruct (creator_id reg =? pid) eqn:Hc.
  - apply Z.eqb_eq in Hc.
    assert (Hmine : own_region pid h r) by (exists reg; auto).
    specialize (Hown Hmine). specialize (Hin_c Hmine).
    unfold destroy_ok, answer in Hown. rewrite Hown. cbn [Z.eqb negb].
    destruct (lists_inv_unlink_created fuel h m lc lf r (num_created_regions m)
                Hinv Hin_c) as (h' & head' & lc' & Hrun & Hinv' & Hlen'); [lia |].
    rewrite Hrun. cbn.
    exists (st_of (delete r h') (set_created m head' (num_created_regions m))),
      lc', lf.
    split; [reflexivity |]. split; [exact Hinv' | track_step].
  - apply Z.eqb_neq in Hc.
    assert (Hnot : ~ own_region pid h r).
    { intros (reg' & Hreg' & Hc'). rewrite Hreg in Hreg'.
      inversion Hreg'; subst reg'. contradiction. }
    destruct (detach_tracks_lists fuel h m lc lf r Hinv Hr Hnot (Hother Hnot) Hfuel)
      as (st' & lf' & Hrun & Hinv' & Hcnt).
    exists st', lc, lf'. split; [exact Hrun |]. split; [exact Hinv' | exact Hcnt].
Qed.

(** A disciplined call returns and keeps the lists well formed. *)
Lemma disciplined_call_tracks_lists fuel st lc lf c :
  lists_inv pid st lc lf -> disciplined pid st c ->
  (base.size (regions st) < fuel)%nat ->
  exists st' lc' lf',
    do_call pid fuel st c = Some st' /\ lists_inv pid st' lc' lf'
    /\ forall n, counters_track st lc lf n -> counters_track st' lc' lf' (n + 1).
Proof.
  intros Hinv (m & Hm & Hc) Hfuel.
  destruct st as [h mo]. cbn in Hm. subst mo.
  change {| regions := h; method := Some m |} with (st_of h m) in *.
  cbn [regions st_of] in Hc, Hfuel.
  destruct c as [r sz hint | r name name_size sz hint | r creator contact sz hint
                | r name name_size sz hint | r | r]; unfold do_call.
  - destruct Hc as (Hsz & Hr).
    destruct (create_tracks_lists h m lc lf r sz hint Hinv Hsz Hr)
      as (ret & st' & lc' & -> & Hinv' & Hcnt).
    exists st', lc', lf. split; [reflexivity |]. split; [exact Hinv' | exact Hcnt].
  - destruct Hc as (Hsz & Hr & Hreg).
    destruct (create_named_tracks_lists h m lc lf r name name_size sz hint
                Hinv Hsz Hr Hreg)
      as (ret & st' & lc' & -> & Hinv' & Hcnt).
    exists st', lc', lf. split; [reflexivity |]. split; [exact Hinv' | exact Hcnt].
  - destruct Hc as (Hcontact & Hr & Hcreator).
    unfold df_attach_shm_region.
    destruct (attach_tracks_lists creator h m lc lf r contact sz hint
                Hinv Hcontact Hr Hcreator)
      as (ret & st' & lf' & -> & Hinv' & Hcnt).
    exists st', lc, lf'. split; [reflexivity |]. split; [exact Hinv' | exact Hcnt].
  - destruct Hc as (Hname & Hr & Hpid).
    unfold df_attach_named_shm_region.
    destruct (attach_tracks_lists DF_SHM_UNKNOWN_PID h m lc lf r name sz hint
                Hinv Hname Hr)
      as (ret & st' & lf' & -> & Hinv' & Hcnt); [congruence |].
    exists st', lc, lf'. split; [reflexivity |]. split; [exact Hinv' | exact Hcnt].
  - destruct Hc as (Hr & Hnot & Hok).
    destruct (detach_tracks_lists fuel h m lc lf r Hinv Hr Hnot Hok Hfuel)
      as (st' & lf' & -> & Hinv' & Hcnt).
    exists st', lc, lf'. split; [reflexivity |]. split; [exact Hinv' | exact Hcnt].
  - destruct Hc as (Hr & Hown & Hother).
    destruct (destroy_tracks_lists fuel h m lc lf r Hinv Hr Hown Hother Hfuel)
      as (st' & lc' & lf' & -> & Hinv' & Hcnt).
    exists st', lc', lf'. split; [reflexivity |]. split; [exact Hinv' | exact Hcnt].
Qed.

Lemma disciplined_call_keeps_lists fuel st lc lf c :
  lists_inv pid st lc lf -> disciplined pid st c ->
  (base.size (regions st) < fuel)%nat ->
  exists st' lc' lf',
    do_call pid fuel st c = Some st' /\ lists_inv pid st' lc' lf'.
Proof.
  intros Hinv Hc Hfuel.
  destruct (disciplined_call_tracks_lists fuel st lc lf c Hinv Hc Hfuel)
    as (st' & lc' & lf' & Hrun & Hinv' & _).
  exists st', lc', lf'. split; assumption.
Qed.

(** A disciplined sequence keeps the lists well formed and the counters in
    step with them; [num_created_regions] grows by at most one per call. *)
Lemma disciplined_calls_track_lists fuel : forall cs st lc lf n,
  lists_inv pid st lc lf -> counters_track st lc lf n ->
  disciplined_calls pid fuel st cs ->
  exists st' lc' lf',
    do_calls pid fuel st cs = Some st' /\ lists_inv pid st' lc' lf'
    /\ counters_track st' lc' lf' (n + Z.of_nat (length cs)).
Proof.
  induction cs as [| c cs IH]; intros st lc lf n Hinv Hcnt Hcs.
  - exists st, lc, lf. split; [reflexivity |]. split; [exact Hinv |].
    cbn [length]. replace (n + Z.of_nat 0) with n by lia. exact Hcnt.
  - destruct Hcs as (Hc & Hfuel & Hrest).
    destruct (disciplined_call_tracks_lists fuel st lc lf c Hinv Hc Hfuel)
      as (st1 & lc1 & lf1 & Hrun & Hinv1 & Hstep).
    destruct (IH st1 lc1 lf1 (n + 1) Hinv1 (Hstep n Hcnt) (Hrest st1 Hrun))
      as (st' & lc' & lf' & Hrun' & Hinv' & Hcnt').
    exists st', lc', lf'. split; [| split; [exact Hinv' |]].
    + cbn [do_calls]. rewrite Hrun. exact Hrun'.
    + replace (n + Z.of_nat (length (c :: cs)))
        with (n + 1 + Z.of_nat (length cs)) by (cbn [length]; lia).
      exact Hcnt'.
Qed.

Lemma disciplined_calls_keep_lists fuel : forall cs st lc lf,
  lists_inv pid st lc lf -> disciplined_calls pid fuel st cs ->
  exists st' lc' lf',
    do_calls pid fuel st cs = Some st' /\ lists_inv pid st' lc' lf'.
Proof.
  induction cs as [| c cs IH]; intros st lc lf Hinv Hcs.
  - exists st, lc, lf. split; [reflexivity | exact Hinv].
  - destruct Hcs as (Hc & Hfuel & Hrest).
    destruct (disciplined_call_keeps_lists fuel st lc lf c Hinv Hc Hfuel)
      as (st1 & lc1 & lf1 & Hrun & Hinv1).
    destruct (IH st1 lc1 lf1 Hinv1 (Hrest st1 Hrun))
      as (st' & lc' & lf' & Hrun' & Hinv').
    exists st', lc', lf'. split; [| exact Hinv'].
    cbn [do_calls]. rewrite Hrun. exact Hrun'.
Qed.

Lemma lists_inv_init hk st0 :
  df_shm_init hk true true 0 = Some st0 -> lists_inv pid st0 [] [].
Proof.
  intros H. cbn in H. inversion H; subst st0. clear H.
  eexists. split; [reflexivity |]. cbn.
  split; [reflexivity |]. split; [reflexivity |]. split; [reflexivity |].
  split; [constructor |]. split.
  - intros r [x Hx]. rewrite lookup_empty in Hx. discriminate.
  - split; constructor.
Qed.

(** X8.  The region lists under disciplined use: after every sequence of
    disciplined calls on a fresh method handle, every call has returned and
    every allocated region handle is reachable through exactly one of the
    two lists. *)
Theorem region_lists_partition_under_discipline hk fuel st0 cs :
  df_shm_init hk true true 0 = Some st0 ->
  disciplined_calls pid fuel st0 cs ->
  exists st,
    do_calls pid fuel st0 cs = Some st /\ on_exactly_one_list st.
Proof.
  intros Hinit Hcs.
  destruct (disciplined_calls_keep_lists fuel cs st0 [] []
              (lists_inv_init hk st0 Hinit) Hcs)
    as (st & lc & lf & Hrun & Hinv).
  exists st. split; [exact Hrun |].
  apply (lists_inv_exactly_one st lc lf Hinv).
Qed.

(** ** [remove_region_from_list] *)

Lemma is_list_undelete h a : forall l head,
  is_list (delete a h) head l -> is_list h head l.
Proof.
  induction l as [| b l IH]; intros head Hl; cbn in *.
  - exact Hl.
  - destruct Hl as (-> & Hnull & reg & Hreg & Hrest).
    split; [reflexivity |]. split; [assumption |].
    exists reg. split; [| apply IH; assumption].
    apply lookup_delete_Some in Hreg as [_ Hreg]. exact Hreg.
Qed.

Lemma remove_loop_absent : forall l fuel h head temp last r,
  is_list h temp l -> r ∉ l -> (length l < fuel)%nat ->
  remove_loop fuel h head temp last r = Some (1, h, head).
Proof.
  induction l as [| a l IH]; intros fuel h head temp last r Hl Hnotin Hfuel.
  - cbn in Hl. subst temp. destruct fuel; [cbn in Hfuel; lia |]. reflexivity.
  - cbn in Hl. destruct Hl as (-> & Hnull & reg & Hreg & Hrest).
    apply not_elem_of_cons in Hnotin as [Hne Hnotin].
    destruct fuel as [| fuel]; [cbn in Hfuel; lia |]. cbn [remove_loop].
    apply Z.eqb_neq in Hnull. rewrite Hnull, Hreg.
    assert (Har : (a =? r) = false) by (apply Z.eqb_neq; congruence).
    rewrite Har. apply IH; [assumption | assumption | cbn in Hfuel; lia].
Qed.

(** X9.  On a well-formed list, [remove_region_from_list] returns [-1] and
    changes nothing when the list is empty; it returns 1 and changes
    nothing when the region is not on the list; and when the region is on
    the list it returns 0 and unlinks it: the list holds the other handles
    in their order, and the handle removed keeps its fields. *)
Theorem remove_region_from_list_codes fuel h head l r :
  is_list h head l -> NoDup l -> (length l < fuel)%nat ->
  (l = [] -> remove_region_from_list fuel h head r = Some (-1, h, head))
  /\ (l <> [] -> r ∉ l ->
      remove_region_from_list fuel h head r = Some (1, h, head))
  /\ (forall l1 l2, l = l1 ++ r :: l2 ->
      exists h' head',
        remove_region_from_list fuel h head r = Some (0, h', head')
        /\ is_list h' head' (l1 ++ l2)
        /\ h' !! r = h !! r).
Proof.
  intros Hl Hnd Hfuel. split; [| split].
  - intros ->. cbn in Hl. subst head. reflexivity.
  - intros Hne Hnotin. unfold remove_region_from_list.
    destruct l as [| a l]; [contradiction |].
    pose proof Hl as (-> & Hnull & _).
    apply Z.eqb_neq in Hnull. rewrite Hnull.
    apply (remove_loop_absent (a :: l)); assumption.
  - intros l1 l2 ->.
    destruct (remove_from_list fuel h head l1 r l2 Hl Hnd)
      as (h' & head' & Hrun & Hlist & Hrel).
    { rewrite length_app in Hfuel. lia. }
    exists h', head'. split; [exact Hrun |].
    split; [apply (is_list_undelete _ r); exact Hlist |].
    destruct Hrel as [-> | (p & preg & nx & Hp & Hpreg & ->)]; [reflexivity |].
    apply lookup_insert_ne. intros ->.
    apply NoDup_app in Hnd as (_ & Hdisj & _).
    apply (Hdisj r Hp). apply elem_of_cons. left. reflexivity.
Qed.

Lemma two_regions_is_list :
  is_list two_regions 100 [100; 200] /\ NoDup [100; 200].
Proof.
  split.
  - cbn. repeat split; try discriminate.
    eexists. split; [vm_compute; reflexivity |]. cbn.
    repeat split; try discriminate.
    eexists. split; [vm_compute; reflexivity |]. reflexivity.
  - apply NoDup_ListNoDup. repeat constructor; cbn; intuition discriminate.
Qed.

Lemma remove_region_from_list_codes_witness :
  (exists h',
     remove_region_from_list 5 two_regions 100 200 = Some (0, h', 100)
     /\ is_list h' 100 [100])
  /\ remove_region_from_list 5 two_regions 100 300 = Some (1, two_regions, 100).
Proof.
  destruct two_regions_is_list as [Hl Hnd].
  destruct (remove_region_from_list_codes 5 two_regions 100 [100; 200] 200
              Hl Hnd ltac:(cbn; lia)) as (_ & _ & Hfound).
  destruct (remove_region_from_list_codes 5 two_regions 100 [100; 200] 300
              Hl Hnd ltac:(cbn; lia)) as (_ & Habsent & _).
  split.
  - destruct (Hfound [100] [] eq_refl) as (h' & head' & Hrun & Hlist & _).
    pose proof Hlist as (Hhead & _). subst head'.
    exists h'. split; [exact Hrun | exact Hlist].
  - apply Habsent; [discriminate |].
    intros Hin. apply list_elem_of_In in Hin. cbn in Hin.
    intuition discriminate.
Defined.

(** ** Creating and attaching *)

(** X10.  A create or an attach that fails, because [malloc] returns
    [NULL] or because the backend callback returns a non-zero code, returns
    [NULL] and leaves the heap, both lists and both counters as they
    were.  This holds for [df_create_shm_region],
    [df_create_named_shm_region], [df_attach_shm_region] and
    [df_attach_named_shm_region]. *)
Theorem failed_create_or_attach_changes_nothing st m r :
  method st = Some m -> initialized m = 1 -> regions st !! r = None ->
  (forall sz hint,
     0 < sz ->
     r = NULL
     \/ (exists f rc data addr,
           create_region_func (hooks m) = Some f
           /\ f sz hint = (rc, data, addr) /\ rc <> 0) ->
     df_create_shm_region pid st r sz hint = Some (NULL, st))
  /\ (forall name name_size sz hint,
        0 < sz ->
        r = NULL
        \/ (exists f g rc data addr,
              create_region_func (hooks m) = Some f
              /\ create_named_region_func (hooks m) = Some g
              /\ g name name_size sz hint = (rc, data, addr) /\ rc <> 0) ->
        df_create_named_shm_region pid st r name name_size sz hint
        = Some (NULL, st))
  /\ (forall creator contact sz hint,
        contact <> NULL ->
        r = NULL
        \/ (exists f rc data addr,
              attach_region_func (hooks m) = Some f
              /\ f contact sz hint = (rc, data, addr) /\ rc <> 0) ->
        df_attach_shm_region st r creator contact sz hint = Some (NULL, st))
  /\ (forall name name_size sz hint,
        name <> NULL ->
        r = NULL
        \/ (exists f rc data addr,
              attach_region_func (hooks m) = Some f
              /\ f name sz hint = (rc, data, addr) /\ rc <> 0) ->
        df_attach_named_shm_region st r name name_size sz hint
        = Some (NULL, st)).
Proof.
  intros Hm Hi Hr.
  assert (Hattach : forall creator what sz hint,
             what <> NULL ->
             r = NULL
             \/ (exists f rc data addr,
                   attach_region_func (hooks m) = Some f
                   /\ f what sz hint = (rc, data, addr) /\ rc <> 0) ->
             attach_with creator st r what sz hint = Some (NULL, st)).
  { intros creator what sz hint Hwhat Hfail.
    unfold attach_with. rewrite Hm. cbn [mbind option_bind].
    rewrite Hi. apply Z.eqb_neq in Hwhat. rewrite Hwhat.
    cbn [Z.eqb Pos.eqb negb orb].
    destruct Hfail as [-> | (f & rc & data & addr & Hf & Hans & Hrc)];
      [reflexivity |].
    destruct (r =? NULL); [reflexivity |].
    rewrite Hr, Hf, Hans. apply Z.eqb_neq in Hrc. rewrite Hrc. reflexivity. }
  split; [| split; [| split]].
  - intros sz hint Hsz Hfail.
    unfold df_create_shm_region. rewrite Hm. cbn [mbind option_bind].
    rewrite Hi. apply Z.ltb_lt in Hsz. rewrite Hsz.
    cbn [Z.eqb Pos.eqb negb orb].
    destruct Hfail as [-> | (f & rc & data & addr & Hf & Hans & Hrc)];
      [reflexivity |].
    destruct (r =? NULL); [reflexivity |].
    rewrite Hr, Hf, Hans. apply Z.eqb_neq in Hrc. rewrite Hrc. reflexivity.
  - intros name name_size sz hint Hsz Hfail.
    unfold df_create_named_shm_region. rewrite Hm. cbn [mbind option_bind].
    rewrite Hi. apply Z.ltb_lt in Hsz. rewrite Hsz.
    cbn [Z.eqb Pos.eqb negb orb].
    destruct Hfail as [-> | (f & g & rc & data & addr & Hf & Hg & Hans & Hrc)];
      [reflexivity |].
    destruct (r =? NULL); [reflexivity |].
    rewrite Hr, Hf, Hg, Hans. cbn [mbind option_bind].
    apply Z.eqb_neq in Hrc. rewrite Hrc. reflexivity.
  - intros creator contact sz hint. apply Hattach.
  - intros name name_size sz hint. apply Hattach.
Qed.

Lemma created_list_of h m lc lf :
  lists_inv pid (st_of h m) lc lf ->
  created_list (st_of h m) = lc /\ foreign_list (st_of h m) = lf.
Proof.
  intros Hinv. destruct (lists_inv_exactly_one _ _ _ Hinv) as (Hc & Hf & _).
  split; assumption.
Qed.

(** X11.  On well-formed lists, a [df_create_shm_region] whose backend
    callback succeeds returns the new handle, which records the size
    asked for, the calling process as creator and the callback's private
    data and attach address; the handle becomes the first of the created
    list, the rest of that list and the foreign list stay as they were, no
    other handle changes, and [num_created_regions] grows by one.
    [df_create_named_shm_region] does the same through the named
    callback. *)
Theorem create_prepends_to_the_created_list h m lc lf r sz hint :
  lists_inv pid (st_of h m) lc lf ->
  0 < sz -> r <> NULL -> h !! r = None ->
  let linked data addr st' :=
    regions st' !! r
    = Some {| size := sz; starting_addr := addr; creator_id := pid;
              method_data := data; next := created_regions m |}
    /\ (forall x, x <> r -> regions st' !! x = h !! x)
    /\ method st'
       = Some (set_created m r (num_created_regions m + 1))
    /\ created_list st' = r :: lc /\ foreign_list st' = lf
    /\ lists_inv pid st' (r :: lc) lf in
  (forall f data addr,
     create_region_func (hooks m) = Some f -> f sz hint = (0, data, addr) ->
     exists st',
       df_create_shm_region pid (st_of h m) r sz hint = Some (r, st')
       /\ linked data addr st')
  /\ (forall f g name name_size data addr,
        create_region_func (hooks m) = Some f ->
        create_named_region_func (hooks m) = Some g ->
        g name name_size sz hint = (0, data, addr) ->
        exists st',
          df_create_named_shm_region pid (st_of h m) r name name_size sz hint
          = Some (r, st')
          /\ linked data addr st').
Proof.
  intros Hinv Hsz Hnull Hr linked.
  pose proof Hinv as (m0 & Hm & Hi & _). cbn in Hm. inversion Hm; subst m0.
  assert (Hlinked : forall data addr,
            linked data addr
              (st_of (<[r := set_next (new_region sz addr pid data)
                                      (created_regions m)]>
                        (<[r := new_region sz addr pid data]> h))
                     (set_created m r (num_created_regions m + 1)))).
  { intros data addr.
    pose proof (lists_inv_create h m lc lf r (new_region sz addr pid data)
                  (num_created_regions m + 1) Hinv Hr Hnull eq_refl) as Hinv'.
    destruct (created_list_of _ _ _ _ Hinv') as [Hc Hf].
    unfold linked. cbn [regions method st_of].
    split; [apply lookup_insert_eq |].
    split; [intros x Hx; rewrite !lookup_insert_ne by congruence; reflexivity |].
    split; [reflexivity |]. split; [exact Hc |]. split; [exact Hf | exact Hinv']. }
  pose proof Hsz as Hsz'. apply Z.ltb_lt in Hsz'.
  pose proof Hnull as Hnull'. apply Z.eqb_neq in Hnull'.
  split.
  - intros f data addr Hf Hans.
    unfold df_create_shm_region. cbn [method st_of regions mbind option_bind].
    rewrite Hi, Hsz', Hnull', Hr, Hf, Hans. cbn [Z.eqb negb orb Pos.eqb].
    rewrite add_new_region. cbn [mbind option_bind].
    eexists. split; [reflexivity |]. apply Hlinked.
  - intros f g name name_size data addr Hf Hg Hans.
    unfold df_create_named_shm_region.
    cbn [method st_of regions mbind option_bind].
    rewrite Hi, Hsz', Hnull', Hr, Hf, Hg, Hans.
    cbn [Z.eqb negb orb Pos.eqb mbind option_bind].
    rewrite add_new_region. cbn [mbind option_bind].
    eexists. split; [reflexivity |]. apply Hlinked.
Qed.

(** X12.  On well-formed lists, a [df_attach_shm_region] whose backend
    callback succeeds returns the new handle, which records the size
    given, the creator given and the callback's private data and attach
    address; the handle becomes the first of the foreign list, the rest of
    that list and the created list stay as they were, no other handle
    changes, and [num_foreign_regions] grows by one.
    [df_attach_named_shm_region] does the same and records the creator
    [DF_SHM_UNKNOWN_PID]. *)
Theorem attach_prepends_to_the_foreign_list h m lc lf r sz hint :
  lists_inv pid (st_of h m) lc lf ->
  r <> NULL -> h !! r = None ->
  let linked creator data addr st' :=
    regions st' !! r
    = Some {| size := sz; starting_addr := addr; creator_id := creator;
              method_data := data; next := foreign_regions m |}
    /\ (forall x, x <> r -> regions st' !! x = h !! x)
    /\ method st'
       = Some (set_foreign m r (num_foreign_regions m + 1))
    /\ created_list st' = lc /\ foreign_list st' = r :: lf
    /\ lists_inv pid st' lc (r :: lf) in
  (forall f creator contact data addr,
     contact <> NULL -> creator <> pid ->
     attach_region_func (hooks m) = Some f ->
     f contact sz hint = (0, data, addr) ->
     exists st',
       df_attach_shm_region (st_of h m) r creator contact sz hint
       = Some (r, st')
       /\ linked creator data addr st')
  /\ (forall f name name_size data addr,
        name <> NULL -> DF_SHM_UNKNOWN_PID <> pid ->
        attach_region_func (hooks m) = Some f ->
        f name sz hint = (0, data, addr) ->
        exists st',
          df_attach_named_shm_region (st_of h m) r name name_size sz hint
          = Some (r, st')
          /\ linked DF_SHM_UNKNOWN_PID data addr st').
Proof.
  intros Hinv Hnull Hr linked.
  pose proof Hinv as (m0 & Hm & Hi & _). cbn in Hm. inversion Hm; subst m0.
  assert (Hattach : forall f creator what data addr,
            what <> NULL -> creator <> pid ->
            attach_region_func (hooks m) = Some f ->
            f what sz hint = (0, data, addr) ->
            exists st',
              attach_with creator (st_of h m) r what sz hint = Some (r, st')
              /\ linked creator data addr st').
  { intros f creator what data addr Hwhat Hcreator Hf Hans.
    pose proof (lists_inv_attach h m lc lf r (new_region sz addr creator data)
                  (num_foreign_regions m + 1) Hinv Hr Hnull Hcreator) as Hinv'.
    destruct (created_list_of _ _ _ _ Hinv') as [Hc Hfl].
    unfold attach_with. cbn [method st_of regions mbind option_bind].
    apply Z.eqb_neq in Hwhat. pose proof Hnull as Hnull'.
    apply Z.eqb_neq in Hnull'.
    rewrite Hi, Hwhat, Hnull', Hr, Hf, Hans. cbn [Z.eqb negb orb Pos.eqb].
    rewrite add_new_region. cbn [mbind option_bind].
    eexists. split; [reflexivity |].
    unfold linked. cbn [regions method st_of].
    split; [apply lookup_insert_eq |].
    split; [intros x Hx; rewrite !lookup_insert_ne by congruence; reflexivity |].
    split; [reflexivity |]. split; [exact Hc |]. split; [exact Hfl | exact Hinv']. }
  split.
  - intros f creator contact data addr. apply Hattach.
  - intros f name name_size data addr. apply Hattach.
Qed.

(** ** Round trips *)

Lemma set_foreign_back m r :
  set_foreign (set_foreign m r (num_foreign_regions m + 1))
    (foreign_regions m) (num_foreign_regions m + 1 - 1) = m.
Proof.
  destruct m. unfold set_foreign. cbn. f_equal. lia.
Qed.

Lemma heap_after_unlink (h : gmap Z df_shm_region) r a b :
  h !! r = None -> delete r (<[r := a]> (<[r := b]> h)) = h.
Proof.
  intros Hr. rewrite delete_insert_eq. apply delete_insert_id. exact Hr.
Qed.

(** X13.  An attach followed by the detach of the handle it returned, both
    succeeding in the backend, leaves the heap, both lists and both
    counters exactly as they were before the attach.  A create followed by
    the destroy of its handle restores the heap and both lists, and leaves
    [num_created_regions] one higher: [df_destroy_shm_region] does not
    count down. *)
Theorem attach_detach_and_create_destroy_round_trips fuel h m r sz hint :
  initialized m = 1 -> r <> NULL -> h !! r = None ->
  (forall f creator contact data addr,
     contact <> NULL ->
     attach_region_func (hooks m) = Some f ->
     f contact sz hint = (0, data, addr) ->
     detach_ok m r ->
     exists st1,
       df_attach_shm_region (st_of h m) r creator contact sz hint
       = Some (r, st1)
       /\ df_detach_shm_region (S fuel) st1 r = Some (0, st_of h m))
  /\ (forall f data addr,
        0 < sz ->
        create_region_func (hooks m) = Some f ->
        f sz hint = (0, data, addr) ->
        destroy_ok m r ->
        exists st1,
          df_create_shm_region pid (st_of h m) r sz hint = Some (r, st1)
          /\ df_destroy_shm_region pid (S fuel) st1 r
             = Some (0, st_of h (set_created m (created_regions m)
                                   (num_created_regions m + 1)))).
Proof.
  intros Hi Hnull Hr.
  pose proof Hnull as Hnull'. apply Z.eqb_neq in Hnull'.
  split.
  - intros f creator contact data addr Hcontact Hf Hans Hok.
    unfold df_attach_shm_region, attach_with.
    cbn [method st_of regions mbind option_bind].
    apply Z.eqb_neq in Hcontact.
    rewrite Hi, Hcontact, Hnull', Hr, Hf, Hans. cbn [Z.eqb negb orb Pos.eqb].
    rewrite add_new_region. cbn [mbind option_bind].
    eexists. split; [reflexivity |].
    unfold df_detach_shm_region. cbn [method regions].
    rewrite Hnull', lookup_insert_eq.
    cbn [mbind option_bind hooks set_foreign initialized].
    rewrite Hi. cbn [Z.eqb negb Pos.eqb].
    unfold detach_ok, answer in Hok. rewrite Hok. cbn [Z.eqb negb].
    unfold remove_region_from_list.
    cbn [foreign_regions num_foreign_regions set_foreign].
    rewrite Hnull'. cbn [remove_loop].
    rewrite Hnull', lookup_insert_eq, !Z.eqb_refl. cbn [mbind option_bind].
    rewrite heap_after_unlink by assumption.
    cbn [next set_next num_foreign_regions].
    rewrite set_foreign_back. reflexivity.
  - intros f data addr Hsz Hf Hans Hok.
    unfold df_create_shm_region.
    cbn [method st_of regions mbind option_bind].
    apply Z.ltb_lt in Hsz.
    rewrite Hi, Hsz, Hnull', Hr, Hf, Hans. cbn [Z.eqb negb orb Pos.eqb].
    rewrite add_new_region. cbn [mbind option_bind].
    eexists. split; [reflexivity |].
    unfold df_destroy_shm_region. cbn [method regions].
    rewrite Hnull', lookup_insert_eq.
    cbn [mbind option_bind hooks set_created initialized creator_id set_next
         new_region].
    rewrite Hi. cbn [Z.eqb negb Pos.eqb].
    rewrite Z.eqb_refl.
    unfold destroy_ok, answer in Hok. rewrite Hok. cbn [Z.eqb negb].
    unfold remove_region_from_list.
    cbn [created_regions num_created_regions set_created].
    rewrite Hnull'. cbn [remove_loop].
    rewrite Hnull', lookup_insert_eq, !Z.eqb_refl. cbn [mbind option_bind].
    rewrite heap_after_unlink by assumption.
    cbn [next set_next num_created_regions].
    reflexivity.
Qed.

(** ** Finalize after disciplined use *)

Lemma foldr_delete_all (h : gmap Z df_shm_region) l :
  (forall r, is_Some (h !! r) -> r ∈ l) -> foldr delete h l = ∅.
Proof.
  intros Hcover. apply map_eq. intros x. rewrite lookup_empty.
  destruct (decide (x ∈ l)) as [Hin | Hnotin].
  - apply foldr_delete_lookup_in. exact Hin.
  - rewrite foldr_delete_lookup_notin by exact Hnotin.
    destruct (h !! x) as [reg |] eqn:E; [| reflexivity].
    exfalso. apply Hnotin. apply Hcover. eexists. exact E.
Qed.

Lemma finalize_all_succeed fuel h m lc lf :
  lists_inv pid (st_of h m) lc lf ->
  Forall (destroy_ok m) lc -> Forall (detach_ok m) lf ->
  (length lc + length lf < fuel)%nat ->
  exists st',
    df_shm_finalize pid fuel (st_of h m)
    = Some (finalize_code m, st',
            map (fun a => Destroyed a 0) lc
              ++ map (fun a => Detached a 0) lf
              ++ match finalize_func (hooks m) with
                 | Some rc =>
                     BackendFinalized rc
                       :: (if rc =? 0 then [MethodFreed] else [])
                 | None => []
                 end)
    /\ regions st' = ∅
    /\ (method st' = None <-> finalize_func (hooks m) = Some 0).
Proof.
  intros (m0 & Hm & Hi & Hlc & Hlf & Hnd & Hcover & Hown & _) Hdok Htok Hfuel.
  cbn in Hm. inversion Hm; subst m0. cbn [regions st_of] in *.
  pose proof Hnd as Hnd0. apply NoDup_app in Hnd0 as (Hndc & Hdisj & Hndf).
  destruct fuel as [| fuel]; [lia |].
  rewrite <- (app_nil_r lc) in Hlc, Hndc, Hown.
  destruct (destroy_loop fuel lc [] (S fuel - length (lc ++ []) - 1) h m
              Hi Hlc Hndc Hown Hdok ltac:(constructor))
    as (m1 & [Hh1 Hf1] & Hi1 & Hrun1).
  rewrite app_nil_r in Hrun1, Hlc, Hndc, Hown.
  replace (length lc + S (S fuel - length lc - 1))%nat
    with (S fuel) in Hrun1 by lia.
  set (h1 := foldr delete h lc) in *.
  assert (Hlf1 : is_list h1 (foreign_regions m1) (lf ++ [])).
  { rewrite app_nil_r, Hf1. unfold h1. clear -Hlf Hdisj.
    induction lc as [| a l IH]; cbn; [exact Hlf |].
    apply is_list_delete.
    - apply IH. intros x Hx. apply Hdisj. right. exact Hx.
    - apply Hdisj. left. }
  assert (Htok1 : Forall (detach_ok m1) lf).
  { eapply Forall_impl; [exact Htok |]. unfold detach_ok. intros a Ha.
    rewrite Hh1. exact Ha. }
  assert (Hndf' : NoDup (lf ++ [])) by (rewrite app_nil_r; exact Hndf).
  destruct (detach_loop fuel lf [] (S fuel - length (lf ++ []) - 1) h1 m1
              Hi1 Hlf1 Hndf' Htok1 ltac:(constructor))
    as (m2 & Hh2 & Hi2 & Hrun2).
  rewrite app_nil_r in Hrun2.
  replace (length lf + S (S fuel - length lf - 1))%nat
    with (S fuel) in Hrun2 by lia.
  unfold keeps_hooks in Hh2.
  assert (Hempty : foldr delete h1 lf = ∅).
  { unfold h1. rewrite foldr_delete_app. apply foldr_delete_all. exact Hcover. }
  unfold df_shm_finalize, finalize_code. unfold st_of in *.
  cbn [method mbind option_bind]. rewrite Hi. cbn [Z.eqb negb Pos.eqb].
  rewrite Hrun1. cbn [mbind option_bind method].
  rewrite Hrun2. cbn [mbind option_bind method].
  rewrite Hh2, Hh1, Hempty. cbn [map app]. rewrite !app_nil_r.
  destruct (finalize_func (hooks m)) as [rc |].
  - destruct (rc =? 0) eqn:Erc; cbn [negb].
    + eexists. split; [reflexivity |]. split; [reflexivity |].
      cbn. apply Z.eqb_eq in Erc. subst rc. tauto.
    + eexists. split; [reflexivity |]. split; [reflexivity |].
      cbn. apply Z.eqb_neq in Erc. split; [discriminate | congruence].
  - eexists. split; [rewrite app_nil_r; reflexivity |].
    split; [reflexivity |]. cbn. split; discriminate.
Qed.

(** X14.  After a sequence of disciplined calls on a fresh method handle,
    with a backend whose destroy and detach callbacks succeed on the
    regions that remain, [df_shm_finalize] destroys every region of the
    created list in list order, then detaches every region of the
    foreign list, then calls the backend's finalize callback; afterwards no
    region handle is allocated, and the method handle is freed when that
    callback has returned 0. *)
Theorem finalize_after_disciplined_use_frees_every_handle hk fuel st0 cs st m :
  df_shm_init hk true true 0 = Some st0 ->
  disciplined_calls pid fuel st0 cs ->
  do_calls pid fuel st0 cs = Some st ->
  method st = Some m ->
  Forall (destroy_ok m) (created_list st) ->
  Forall (detach_ok m) (foreign_list st) ->
  (base.size (regions st) < fuel)%nat ->
  exists st',
    df_shm_finalize pid fuel st
    = Some (finalize_code m, st',
            map (fun a => Destroyed a 0) (created_list st)
              ++ map (fun a => Detached a 0) (foreign_list st)
              ++ match finalize_func (hooks m) with
                 | Some rc =>
                     BackendFinalized rc
                       :: (if rc =? 0 then [MethodFreed] else [])
                 | None => []
                 end)
    /\ regions st' = ∅
    /\ (method st' = None <-> finalize_func (hooks m) = Some 0).
Proof.
  intros Hinit Hcs Hrun Hm Hdok Htok Hfuel.
  destruct (disciplined_calls_keep_lists fuel cs st0 [] []
              (lists_inv_init hk st0 Hinit) Hcs)
    as (st1 & lc & lf & Hrun1 & Hinv).
  rewrite Hrun in Hrun1. inversion Hrun1; subst st1.
  destruct st as [h mo]. cbn in Hm. subst mo.
  change {| regions := h; method := Some m |} with (st_of h m) in *.
  destruct (created_list_of _ _ _ _ Hinv) as [Hc Hf].
  rewrite Hc in *. rewrite Hf in *.
  pose proof (lists_inv_lengths _ _ _ _ Hinv) as Hlen.
  apply (finalize_all_succeed fuel h m lc lf Hinv Hdok Htok).
  cbn [regions st_of] in Hfuel. lia.
Qed.

Lemma counters_track_init hk st0 :
  df_shm_init hk true true 0 = Some st0 -> counters_track st0 [] [] 0.
Proof.
  intros H. cbn in H. inversion H; subst st0. clear H.
  eexists. split; [reflexivity |]. cbn. lia.
Qed.

(** X22.  The counters of the method handle under disciplined use: after
    every sequence of disciplined calls on a fresh method handle,
    [num_foreign_regions] is the number of handles on the foreign list,
    while [num_created_regions] is at least the number of handles on the
    created list ([df_destroy_shm_region] unlinks a created region without
    counting down, [df_detach_shm_region] counts down); neither counter
    exceeds the number of calls made, so both stay within [int] as long as
    no more than [INT_MAX] calls are made. *)
Theorem counters_follow_the_lists_under_discipline hk fuel st0 cs :
  df_shm_init hk true true 0 = Some st0 ->
  disciplined_calls pid fuel st0 cs ->
  exists st m,
    do_calls pid fuel st0 cs = Some st /\ method st = Some m
    /\ num_foreign_regions m = Z.of_nat (length (foreign_list st))
    /\ Z.of_nat (length (created_list st)) <= num_created_regions m
    /\ num_created_regions m <= Z.of_nat (length cs)
    /\ num_foreign_regions m <= Z.of_nat (length cs)
    /\ (Z.of_nat (length cs) <= INT_MAX ->
        0 <= num_created_regions m <= INT_MAX
        /\ 0 <= num_foreign_regions m <= INT_MAX).
Proof.
  intros Hinit Hcs.
  destruct (disciplined_calls_track_lists fuel cs st0 [] [] 0
              (lists_inv_init hk st0 Hinit) (counters_track_init hk st0 Hinit)
              Hcs)
    as (st & lc & lf & Hrun & Hinv & m & Hm & Hf & Hfn & Hc).
  destruct (lists_inv_exactly_one st lc lf Hinv) as (Hlc & Hlf & _).
  exists st, m. rewrite Hlc, Hlf.
  split; [exact Hrun |]. split; [exact Hm |]. split; [exact Hf |].
  split; [lia |]. split; [lia |]. split; lia.
Qed.

End ManagerFacts.

Lemma failure_first_reached :
  do_calls 1 10 flaky_init [CreateRegion 100 64 0; CreateRegion 200 64 0]
  = Some (st_of failure_first failure_first_method).
Proof. vm_compute. reflexivity. Qed.



(** A disciplined run on the example backend: two creates, an attach of a
    region of process 2, the destroy of the first region and the detach of
    the attached one. *)
Lemma region_lists_partition_under_discipline_witness :
  exists st,
    do_calls 1 10 flaky_init
      [CreateRegion 100 64 0; CreateRegion 300 64 0; AttachRegion 400 2 1 64 0;
       DestroyRegion 100; DetachRegion 400] = Some st
    /\ created_list st = [300] /\ foreign_list st = []
    /\ on_exactly_one_list st.
Proof.
  destruct (region_lists_partition_under_discipline 1 flaky_backend 10 flaky_init
              [CreateRegion 100 64 0; CreateRegion 300 64 0;
               AttachRegion 400 2 1 64 0; DestroyRegion 100; DetachRegion 400])
    as (st & Hrun & Hone).
  - reflexivity.
  - split.
    { eexists. split; [reflexivity |]. split; [lia | reflexivity]. }
    split; [vm_compute; lia |].
    intros st1 H1. vm_compute in H1. inversion H1; subst st1. clear H1.
    split.
    { eexists. split; [reflexivity |]. split; [lia | reflexivity]. }
    split; [vm_compute; lia |].
    intros st2 H2. vm_compute in H2. inversion H2; subst st2. clear H2.
    split.
    { eexists. split; [reflexivity |].
      split; [discriminate |]. split; [reflexivity | discriminate]. }
    split; [vm_compute; lia |].
    intros st3 H3. vm_compute in H3. inversion H3; subst st3. clear H3.
    split.
    { eexists. split; [reflexivity |].
      split; [eexists; vm_compute; reflexivity |].
      split; [intros _; reflexivity |].
      intros Hnot. exfalso. apply Hnot.
      eexists. split; [vm_compute; reflexivity | reflexivity]. }
    split; [vm_compute; lia |].
    intros st4 H4. vm_compute in H4. inversion H4; subst st4. clear H4.
    split.
    { eexists. split; [reflexivity |].
      split; [eexists; vm_compute; reflexivity |].
      split; [| reflexivity].
      intros (reg & Hreg & Hc). vm_compute in Hreg.
      inversion Hreg; subst reg. discriminate. }
    split; [vm_compute; lia |].
    intros st5 _. exact I.
  - exists st. split; [exact Hrun |].
    vm_compute in Hrun. inversion Hrun; subst st.
    split; [vm_compute; reflexivity |]. split; [vm_compute; reflexivity |].
    exact Hone.
Defined.

(** ** The theorems above at the example states *)

Lemma two_regions_lists_inv :
  lists_inv 1 (st_of two_regions two_regions_method) [100; 200] [].
Proof.
  destruct two_regions_is_list as [Hl Hnd].
  exists two_regions_method.
  split; [reflexivity |]. split; [reflexivity |].
  split; [exact Hl |]. split; [reflexivity |].
  split; [rewrite app_nil_r; exact Hnd |].
  split.
  { intros r [reg Hreg]. cbn [regions st_of] in Hreg. unfold two_regions in Hreg.
    rewrite app_nil_r.
    destruct (decide (r = 100)) as [-> | H100];
      [apply elem_of_cons; left; reflexivity |].
    destruct (decide (r = 200)) as [-> | H200];
      [apply elem_of_cons; right; apply elem_of_cons; left; reflexivity |].
    rewrite !lookup_insert_ne, lookup_empty in Hreg by congruence.
    discriminate. }
  split; [| constructor].
  repeat constructor; eexists; (split; [vm_compute; reflexivity | reflexivity]).
Qed.

Lemma failed_create_or_attach_changes_nothing_witness :
  df_create_shm_region 1 (st_of two_regions two_regions_refusing) 300 64 0
  = Some (NULL, st_of two_regions two_regions_refusing)
  /\ df_attach_shm_region (st_of two_regions two_regions_refusing) 300 2 1 64 0
     = Some (NULL, st_of two_regions two_regions_refusing)
  /\ df_create_shm_region 1 (st_of two_regions two_regions_refusing) NULL 64 0
     = Some (NULL, st_of two_regions two_regions_refusing).
Proof.
  destruct (failed_create_or_attach_changes_nothing 1
              (st_of two_regions two_regions_refusing) two_regions_refusing 300
              eq_refl eq_refl ltac:(vm_compute; reflexivity))
    as (Hcreate & _ & Hattach & _).
  destruct (failed_create_or_attach_changes_nothing 1
              (st_of two_regions two_regions_refusing) two_regions_refusing NULL
              eq_refl eq_refl ltac:(vm_compute; reflexivity))
    as (Hmalloc & _).
  split; [| split].
  - apply Hcreate; [lia |]. right.
    exists (fun _ _ => (12, 0, 0)), 12, 0, 0.
    split; [reflexivity |]. split; [reflexivity | discriminate].
  - apply Hattach; [discriminate |]. right.
    exists (fun _ _ _ => (12, 0, 0)), 12, 0, 0.
    split; [reflexivity |]. split; [reflexivity | discriminate].
  - apply Hmalloc; [lia |]. left. reflexivity.
Defined.

Lemma create_prepends_to_the_created_list_witness :
  exists st',
    df_create_shm_region 1 (st_of two_regions two_regions_method) 300 64 0
    = Some (300, st')
    /\ created_list st' = [300; 100; 200]
    /\ foreign_list st' = [].
Proof.
  destruct (create_prepends_to_the_created_list 1 two_regions two_regions_method
              [100; 200] [] 300 64 0 two_regions_lists_inv
              ltac:(lia) ltac:(discriminate) ltac:(vm_compute; reflexivity))
    as (Hcreate & _).
  destruct (Hcreate (fun _ _ => (0, 7, 4096)) 7 4096 eq_refl eq_refl)
    as (st' & Hrun & _ & _ & _ & Hc & Hf & _).
  exists st'. split; [exact Hrun |]. split; [exact Hc | exact Hf].
Defined.

Lemma attach_prepends_to_the_foreign_list_witness :
  exists st',
    df_attach_shm_region (st_of two_regions two_regions_method) 400 2 1 64 0
    = Some (400, st')
    /\ created_list st' = [100; 200]
    /\ foreign_list st' = [400].
Proof.
  destruct (attach_prepends_to_the_foreign_list 1 two_regions two_regions_method
              [100; 200] [] 400 64 0 two_regions_lists_inv
              ltac:(discriminate) ltac:(vm_compute; reflexivity))
    as (Hattach & _).
  destruct (Hattach (fun _ _ _ => (0, 8, 8192)) 2 1 8 8192
              ltac:(discriminate) ltac:(discriminate) eq_refl eq_refl)
    as (st' & Hrun & _ & _ & _ & Hc & Hf & _).
  exists st'. split; [exact Hrun |]. split; [exact Hc | exact Hf].
Defined.

Lemma attach_detach_and_create_destroy_round_trips_witness :
  (exists st1,
     df_attach_shm_region (st_of two_regions two_regions_method) 400 2 1 64 0
     = Some (400, st1)
     /\ df_detach_shm_region 1 st1 400
        = Some (0, st_of two_regions two_regions_method))
  /\ (exists st1,
        df_create_shm_region 1 (st_of two_regions two_regions_method) 300 64 0
        = Some (300, st1)
        /\ df_destroy_shm_region 1 1 st1 300
           = Some (0, st_of two_regions
                        (set_created two_regions_method 100 3))).
Proof.
  split.
  - destruct (attach_detach_and_create_destroy_round_trips 1 0 two_regions
                two_regions_method 400 64 0
                eq_refl ltac:(discriminate) ltac:(vm_compute; reflexivity))
      as (Hattach & _).
    apply (Hattach (fun _ _ _ => (0, 8, 8192)) 2 1 8 8192);
      [discriminate | reflexivity | reflexivity | reflexivity].
  - destruct (attach_detach_and_create_destroy_round_trips 1 0 two_regions
                two_regions_method 300 64 0
                eq_refl ltac:(discriminate) ltac:(vm_compute; reflexivity))
      as (_ & Hcreate).
    apply (Hcreate (fun _ _ => (0, 7, 4096)) 7 4096);
      [lia | reflexivity | reflexivity | reflexivity].
Defined.

Lemma finalize_after_disciplined_use_frees_every_handle_witness :
  exists st st',
    do_calls 1 10 flaky_init
      [CreateRegion 100 64 0; CreateRegion 300 64 0; AttachRegion 400 2 1 64 0]
    = Some st
    /\ df_shm_finalize 1 10 st
       = Some (0, st',
               [Destroyed 300 0; Destroyed 100 0; Detached 400 0;
                BackendFinalized 0; MethodFreed])
    /\ regions st' = ∅ /\ method st' = None.
Proof.
  destruct (do_calls 1 10 flaky_init
              [CreateRegion 100 64 0; CreateRegion 300 64 0;
               AttachRegion 400 2 1 64 0])
    as [st |] eqn:Hrun; [| vm_compute in Hrun; discriminate].
  exists st.
  destruct (finalize_after_disciplined_use_frees_every_handle 1 flaky_backend 10
              flaky_init
              [CreateRegion 100 64 0; CreateRegion 300 64 0;
               AttachRegion 400 2 1 64 0]
              st
              {| initialized := 1;
                 created_regions := 300; num_created_regions := 2;
                 foreign_regions := 400; num_foreign_regions := 1;
                 hooks := flaky_backend |})
    as (st' & Hfin & Hempty & Hfreed).
  - reflexivity.
  - split.
    { eexists. split; [reflexivity |]. split; [lia | reflexivity]. }
    split; [vm_compute; lia |].
    intros st1 H1. vm_compute in H1. inversion H1; subst st1. clear H1.
    split.
    { eexists. split; [reflexivity |]. split; [lia | reflexivity]. }
    split; [vm_compute; lia |].
    intros st2 H2. vm_compute in H2. inversion H2; subst st2. clear H2.
    split.
    { eexists. split; [reflexivity |].
      split; [discriminate |]. split; [reflexivity | discriminate]. }
    split; [vm_compute; lia |].
    intros st3 _. exact I.
  - exact Hrun.
  - vm_compute in Hrun. inversion Hrun. reflexivity.
  - vm_compute in Hrun. inversion Hrun; subst st.
    repeat constructor.
  - vm_compute in Hrun. inversion Hrun; subst st.
    repeat constructor.
  - vm_compute in Hrun. inversion Hrun; subst st. vm_compute. lia.
  - exists st'. split; [reflexivity |].
    vm_compute in Hrun. inversion Hrun; subst st.
    split; [exact Hfin |]. split; [exact Hempty |].
    apply Hfreed. reflexivity.
Defined.

(** A disciplined run on the example backend: a create, an attach of a
    region of process 2 and the destroy of the created region leave an empty
    created list with [num_created_regions] at one. *)
Lemma counters_follow_the_lists_under_discipline_witness :
  exists st m,
    do_calls 1 10 flaky_init
      [CreateRegion 100 64 0; AttachRegion 400 2 1 64 0; DestroyRegion 100]
    = Some st
    /\ method st = Some m
    /\ created_list st = [] /\ foreign_list st = [400]
    /\ num_created_regions m = 1 /\ num_foreign_regions m = 1.
Proof.
  destruct (counters_follow_the_lists_under_discipline 1 flaky_backend 10
              flaky_init
              [CreateRegion 100 64 0; AttachRegion 400 2 1 64 0;
               DestroyRegion 100])
    as (st & m & Hrun & Hm & Hf & Hc & _).
  - reflexivity.
  - split.
    { eexists. split; [reflexivity |]. split; [lia | reflexivity]. }
    split; [vm_compute; lia |].
    intros st1 H1. vm_compute in H1. inversion H1; subst st1. clear H1.
    split.
    { eexists. split; [reflexivity |].
      split; [discriminate |]. split; [reflexivity | discriminate]. }
    split; [vm_compute; lia |].
    intros st2 H2. vm_compute in H2. inversion H2; subst st2. clear H2.
    split.
    { eexists. split; [reflexivity |].
      split; [eexists; vm_compute; reflexivity |].
      split; [intros _; reflexivity |].
      intros Hnot. exfalso. apply Hnot.
      eexists. split; [vm_compute; reflexivity | reflexivity]. }
    split; [vm_compute; lia |].
    intros st3 _. exact I.
  - exists st, m. split; [exact Hrun |]. split; [exact Hm |].
    vm_compute in Hrun. inversion Hrun; subst st.
    cbn in Hm. inversion Hm; subst m.
    repeat split; vm_compute; reflexivity.
Defined.
End ShmFacts.

(** * Facts about the mmap contact descriptor *)
Module MmapFacts.
Import Mmap.

Lemma length_to_bytes n : forall x, length (to_bytes n x) = n.
Proof. induction n as [| n IH]; intros x; cbn; [reflexivity | rewrite IH; reflexivity]. Qed.

Lemma of_to_bytes n : forall x, of_bytes (to_bytes n x) = x mod 256 ^ Z.of_nat n.
Proof.
  induction n as [| n IH]; intros x.
  - cbn. rewrite Z.mod_1_r. reflexivity.
  - cbn [to_bytes of_bytes]. rewrite IH.
    rewrite Nat2Z.inj_succ, Z.pow_succ_r by lia.
    rewrite Z.rem_mul_r by lia. reflexivity.
Qed.

Lemma length_store_size_t bo x :
  length (store_size_t bo x) = Z.to_nat sizeof_size_t.
Proof.
  destruct bo; cbn [store_size_t]; rewrite ?length_rev; apply length_to_bytes.
Qed.

(** Storing a [size_t] and loading it back gives the value. *)
Lemma load_store_size_t bo x :
  0 <= x <= SIZE_MAX -> load_size_t bo (store_size_t bo x) = x.
Proof.
  intros Hx.
  assert (H : of_bytes (to_bytes (Z.to_nat sizeof_size_t) x) = x).
  { rewrite of_to_bytes. apply Z.mod_small. unfold SIZE_MAX in Hx.
    change (256 ^ Z.of_nat (Z.to_nat sizeof_size_t)) with (2 ^ 64). lia. }
  destruct bo; cbn [store_size_t load_size_t]; rewrite ?rev_involutive; exact H.
Qed.

Lemma strlen_terminated name rest :
  Forall (fun c => c <> 0) name ->
  strlen (name ++ 0 :: rest) = Some (length name).
Proof.
  induction 1 as [| c name Hc _ IH]; cbn.
  - reflexivity.
  - apply Z.eqb_neq in Hc. rewrite Hc, IH. reflexivity.
Qed.

Lemma splice_exact junk a b :
  length junk = (length a + length b)%nat ->
  splice (splice junk 0 a) (length a) b = a ++ b.
Proof.
  intros Hlen. unfold splice. rewrite take_0. cbn [app Nat.add].
  rewrite take_app_length.
  rewrite drop_app_ge by lia.
  rewrite drop_drop.
  rewrite drop_ge by lia.
  rewrite app_nil_r. reflexivity.
Qed.

(** C9.  For a region of the mmap backend, whose file name is a C string
    that [int] arithmetic can measure and whose size is a [size_t], the
    contact buffer is the file name, a NUL byte, and the region size in the
    machine's byte order, and its reported length is
    [strlen(path) + 1 + sizeof(size_t)]; attaching with that buffer, when
    [open], [mmap] and [close] succeed, yields region data with that file
    name and that file length. *)
Theorem mmap_contact_round_trip bo junk rd :
  Forall (fun c => c <> 0) (file_name rd) ->
  Z.of_nat (length (file_name rd)) + 1 + sizeof_size_t <= INT_MAX ->
  0 <= file_length rd <= SIZE_MAX ->
  let contact := file_name rd ++ [0] ++ store_size_t bo (file_length rd) in
  df_shm_method_mmap_region_contact bo junk rd true
  = Returns (Some (contact,
                   Z.of_nat (length (file_name rd)) + 1 + sizeof_size_t))
  /\ forall fd mmap_addr close_rc sz hint,
       fd <> -1 -> mmap_addr <> NULL -> close_rc <> -1 ->
       exists rd',
         df_shm_method_mmap_attach_region bo contact true fd mmap_addr
           close_rc sz hint
         = Returns (0, Some rd')
         /\ file_name rd' = file_name rd
         /\ file_length rd' = file_length rd
         /\ mapped_length rd' = sz.
Proof.
  intros Hname Hlen Hsize contact.
  set (L := Z.of_nat (length (file_name rd))) in *.
  assert (HL : 0 <= L) by (unfold L; lia).
  unfold INT_MAX, sizeof_size_t in Hlen.
  split.
  - unfold df_shm_method_mmap_region_contact. cbn [negb].
    fold L.
    assert (E1 : int (size_t (L + 1)) = L + 1).
    { rewrite QueueFacts.size_t_small by (unfold SIZE_MAX; lia).
      apply QueueFacts.int_small. unfold INT_MAX. lia. }
    rewrite E1.
    assert (E2 : int (size_t (L + 1 + sizeof_size_t)) = L + 1 + sizeof_size_t).
    { unfold sizeof_size_t.
      rewrite QueueFacts.size_t_small by (unfold SIZE_MAX; lia).
      apply QueueFacts.int_small. unfold INT_MAX. lia. }
    rewrite E2.
    assert (E3 : size_t (L + 1 + sizeof_size_t) = L + 1 + sizeof_size_t).
    { unfold sizeof_size_t. apply QueueFacts.size_t_small. unfold SIZE_MAX. lia. }
    rewrite E3.
    assert (Hn : length (file_name rd ++ [0]) = Z.to_nat (L + 1)).
    { rewrite length_app. cbn. unfold L. lia. }
    replace (Z.of_nat (length (file_name rd ++ [0])) <=? L + 1 + sizeof_size_t)
      with true by (symmetry; apply Z.leb_le; unfold sizeof_size_t; lia).
    replace (0 <=? L + 1) with true by (symmetry; apply Z.leb_le; lia).
    replace (L + 1 + sizeof_size_t <=? L + 1 + sizeof_size_t)
      with true by (symmetry; apply Z.leb_le; lia).
    cbn [andb]. rewrite <- Hn.
    rewrite splice_exact.
    + unfold contact. rewrite <- app_assoc. reflexivity.
    + rewrite QueueFacts.length_read_bytes, length_store_size_t, Hn.
      unfold sizeof_size_t. lia.
  - intros fd mmap_addr close_rc sz hint Hfd Hmap Hclose.
    unfold df_shm_method_mmap_attach_region. cbn [negb].
    unfold contact. cbn [app].
    rewrite strlen_terminated by assumption.
    apply Z.eqb_neq in Hfd, Hmap, Hclose. rewrite Hfd, Hmap, Hclose.
    rewrite take_app_length.
    replace (drop (S (length (file_name rd)))
               (file_name rd ++ 0 :: store_size_t bo (file_length rd)))
      with (store_size_t bo (file_length rd)).
    2:{ rewrite drop_app_ge by lia.
        replace (S (length (file_name rd)) - length (file_name rd))%nat
          with 1%nat by lia.
        reflexivity. }
    rewrite take_ge by (rewrite length_store_size_t; lia).
    rewrite length_store_size_t.
    replace (Z.of_nat (Z.to_nat sizeof_size_t) =? sizeof_size_t) with true
      by reflexivity.
    cbn [negb]. eexists. split; [reflexivity |]. cbn.
    repeat split. apply load_store_size_t. assumption.
Qed.

Lemma mmap_contact_round_trip_witness :
  df_shm_method_mmap_region_contact LittleEndian (fun _ => 204) example_region true
  = Returns (Some ([47; 116; 109; 112; 47; 97; 0; 0; 16; 0; 0; 0; 0; 0; 0], 15))
  /\ exists rd',
       df_shm_method_mmap_attach_region LittleEndian
         [47; 116; 109; 112; 47; 97; 0; 0; 16; 0; 0; 0; 0; 0; 0]
         true 3 131072 0 4096 0
       = Returns (0, Some rd')
       /\ file_name rd' = [47; 116; 109; 112; 47; 97]
       /\ file_length rd' = 4096.
Proof.
  destruct (mmap_contact_round_trip LittleEndian (fun _ => 204) example_region)
    as [Hcontact Hattach].
  - repeat constructor; discriminate.
  - vm_compute. discriminate.
  - vm_compute. split; discriminate.
  - split; [exact Hcontact |].
    destruct (Hattach 3 131072 0 4096 0) as (rd' & Hrun & Hn & Hl & _);
      try discriminate.
    exists rd'. auto.
Defined.

End MmapFacts.

(** * Facts about the other mmap callbacks *)
Module MmapCallsFacts.
Import Mmap MmapCalls MmapFacts.

(** The contact buffer of a region, and what attach reads from it. *)
Lemma contact_of_region bo junk rd :
  Z.of_nat (length (file_name rd)) + 1 + sizeof_size_t <= INT_MAX ->
  df_shm_method_mmap_region_contact bo junk rd true
  = Returns (Some (file_name rd ++ [0] ++ store_size_t bo (file_length rd),
                   Z.of_nat (length (file_name rd)) + 1 + sizeof_size_t)).
Proof.
  intros Hlen.
  set (L := Z.of_nat (length (file_name rd))) in *.
  assert (HL : 0 <= L) by (unfold L; lia).
  unfold INT_MAX, sizeof_size_t in Hlen.
  unfold df_shm_method_mmap_region_contact. cbn [negb]. fold L.
  assert (E1 : int (size_t (L + 1)) = L + 1).
  { rewrite QueueFacts.size_t_small by (unfold SIZE_MAX; lia).
    apply QueueFacts.int_small. unfold INT_MAX. lia. }
  rewrite E1.
  assert (E2 : int (size_t (L + 1 + sizeof_size_t)) = L + 1 + sizeof_size_t).
  { unfold sizeof_size_t.
    rewrite QueueFacts.size_t_small by (unfold SIZE_MAX; lia).
    apply QueueFacts.int_small. unfold INT_MAX. lia. }
  rewrite E2.
  assert (E3 : size_t (L + 1 + sizeof_size_t) = L + 1 + sizeof_size_t).
  { unfold sizeof_size_t. apply QueueFacts.size_t_small. unfold SIZE_MAX. lia. }
  rewrite E3.
  assert (Hn : length (file_name rd ++ [0]) = Z.to_nat (L + 1)).
  { rewrite length_app. cbn. unfold L. lia. }
  replace (Z.of_nat (length (file_name rd ++ [0])) <=? L + 1 + sizeof_size_t)
    with true by (symmetry; apply Z.leb_le; unfold sizeof_size_t; lia).
  replace (0 <=? L + 1) with true by (symmetry; apply Z.leb_le; lia).
  replace (L + 1 + sizeof_size_t <=? L + 1 + sizeof_size_t)
    with true by (symmetry; apply Z.leb_le; lia).
  cbn [andb]. rewrite <- Hn.
  rewrite splice_exact.
  - rewrite <- app_assoc. reflexivity.
  - rewrite QueueFacts.length_read_bytes, length_store_size_t, Hn.
    unfold sizeof_size_t. lia.
Qed.

Lemma attach_of_contact bo nm len fd mmap_addr close_rc sz hint :
  Forall (fun c => c <> 0) nm -> 0 <= len <= SIZE_MAX ->
  fd <> -1 -> mmap_addr <> NULL -> close_rc <> -1 ->
  df_shm_method_mmap_attach_region bo (nm ++ [0] ++ store_size_t bo len) true
    fd mmap_addr close_rc sz hint
  = Returns (0, Some {| file_name := nm; file_length := len;
                        attach_addr := mmap_addr; mapped_length := sz |}).
Proof.
  intros Hname Hlen Hfd Hmap Hclose.
  unfold df_shm_method_mmap_attach_region. cbn [negb app].
  rewrite strlen_terminated by assumption.
  apply Z.eqb_neq in Hfd, Hmap, Hclose. rewrite Hfd, Hmap, Hclose.
  rewrite take_app_length.
  replace (drop (S (length nm)) (nm ++ 0 :: store_size_t bo len))
    with (store_size_t bo len).
  2:{ rewrite drop_app_ge by lia.
      replace (S (length nm) - length nm)%nat with 1%nat by lia.
      reflexivity. }
  rewrite take_ge by (rewrite length_store_size_t; lia).
  rewrite length_store_size_t.
  replace (Z.of_nat (Z.to_nat sizeof_size_t) =? sizeof_size_t) with true
    by reflexivity.
  cbn [negb]. rewrite load_store_size_t by assumption. reflexivity.
Qed.

(** X18.  A region that [df_shm_method_mmap_create_region] has created
    can be attached from its contact buffer.  The create makes the calls
    [mkstemp] on the method's template, [ftruncate] to the size asked for,
    [mmap] of that size with the address hint, and [close], and records
    the name that [mkstemp] produced and the size; the contact buffer of
    that region data carries this name and this size; and an attach given
    the buffer records the same name and the same file length, the address
    its own [mmap] returned and, as mapped length, the size that the
    attaching caller passed. *)
Theorem mmap_created_region_can_be_attached
    bo junk m mkstemp fd nm ftruncate_rc mmap_addr close_rc sz hint :
  mkstemp (base_path m) = (fd, nm) ->
  fd <> -1 -> ftruncate_rc <> -1 -> mmap_addr <> NULL -> close_rc <> -1 ->
  Forall (fun c => c <> 0) nm ->
  Z.of_nat (length nm) + 1 + sizeof_size_t <= INT_MAX ->
  0 <= sz <= SIZE_MAX ->
  let rd := {| file_name := nm; file_length := sz;
               attach_addr := mmap_addr; mapped_length := sz |} in
  let contact := nm ++ [0] ++ store_size_t bo sz in
  df_shm_method_mmap_create_region m true mkstemp ftruncate_rc mmap_addr
    close_rc sz hint
  = (0, Some rd,
     [call_mkstemp (base_path m); call_ftruncate fd sz;
      call_mmap hint sz fd; call_close fd])
  /\ df_shm_method_mmap_region_contact bo junk rd true
     = Returns (Some (contact, Z.of_nat (length nm) + 1 + sizeof_size_t))
  /\ forall fd' mmap_addr' close_rc' sz' hint',
       fd' <> -1 -> mmap_addr' <> NULL -> close_rc' <> -1 ->
       df_shm_method_mmap_attach_region bo contact true fd' mmap_addr'
         close_rc' sz' hint'
       = Returns (0, Some {| file_name := nm; file_length := sz;
                             attach_addr := mmap_addr';
                             mapped_length := sz' |}).
Proof.
  intros Hmk Hfd Htr Hmap Hclose Hname Hlen Hsz rd contact.
  split; [| split].
  - unfold df_shm_method_mmap_create_region, size_and_map. cbn [negb].
    rewrite Hmk.
    apply Z.eqb_neq in Hfd, Htr, Hmap, Hclose.
    rewrite Hfd, Htr, Hmap, Hclose. reflexivity.
  - apply (contact_of_region bo junk rd). exact Hlen.
  - intros fd' mmap_addr' close_rc' sz' hint' Hfd' Hmap' Hclose'.
    apply attach_of_contact; assumption.
Qed.

Lemma mmap_created_region_can_be_attached_witness :
  exists rd contact len,
    df_shm_method_mmap_create_region
      {| base_path := chars "/tmp/df_shm_mmap.42.XXXXXX"; my_pid := 42 |}
      true example_mkstemp 0 65536 0 4096 0
    = (0, Some rd,
       [call_mkstemp (chars "/tmp/df_shm_mmap.42.XXXXXX");
        call_ftruncate 3 4096; call_mmap 0 4096 3; call_close 3])
    /\ file_name rd = chars "/tmp/df_shm_mmap.42.abcdef"
    /\ df_shm_method_mmap_region_contact LittleEndian (fun _ => 204) rd true
       = Returns (Some (contact, len))
    /\ df_shm_method_mmap_attach_region LittleEndian contact true 4 131072 0
         8192 0
       = Returns (0, Some {| file_name := chars "/tmp/df_shm_mmap.42.abcdef";
                             file_length := 4096;
                             attach_addr := 131072;
                             mapped_length := 8192 |}).
Proof.
  destruct (mmap_created_region_can_be_attached LittleEndian (fun _ => 204)
              {| base_path := chars "/tmp/df_shm_mmap.42.XXXXXX"; my_pid := 42 |}
              example_mkstemp 3 (chars "/tmp/df_shm_mmap.42.abcdef")
              0 65536 0 4096 0)
    as (Hcreate & Hcontact & Hattach).
  - reflexivity.
  - discriminate.
  - discriminate.
  - discriminate.
  - discriminate.
  - vm_compute. repeat constructor; discriminate.
  - vm_compute. discriminate.
  - vm_compute. split; discriminate.
  - do 3 eexists. split; [exact Hcreate |]. split; [reflexivity |].
    split; [exact Hcontact |].
    apply Hattach; discriminate.
Defined.

(** X19.  What the mmap backend releases is what it acquired.  A create
    returns region data only with the return value 0, and the template it
    hands to [mkstemp] is the path [/tmp/df_shm_mmap.<pid>.XXXXXX] that
    [df_shm_method_mmap_init] has built.
    [df_shm_method_mmap_destroy_region] on that region data unmaps the
    address that [mmap] returned, over the size asked for at the create,
    then unlinks the file that [mkstemp] named, then frees the name and the
    region data; when [munmap] fails it returns [-1] and does not unlink.
    [df_shm_method_mmap_detach_region] unmaps and frees, and never
    unlinks. *)
Theorem mmap_releases_what_it_acquired
    pid m mkstemp ftruncate_rc mmap_addr close_rc sz hint rc rd calls :
  df_shm_method_mmap_init true pid = (0, Some m) ->
  df_shm_method_mmap_create_region m true mkstemp ftruncate_rc mmap_addr
    close_rc sz hint
  = (rc, Some rd, calls) ->
  let nm := snd (mkstemp (chars ("/tmp/df_shm_mmap." +:+ pretty pid
                                 +:+ ".XXXXXX"))) in
  let unmap := call_munmap mmap_addr sz in
  rc = 0
  /\ head calls = Some (call_mkstemp (chars ("/tmp/df_shm_mmap." +:+ pretty pid
                                             +:+ ".XXXXXX")))
  /\ (forall munmap_rc unlink_rc,
        df_shm_method_mmap_destroy_region rd munmap_rc unlink_rc
        = if munmap_rc =? -1 then (-1, [unmap])
          else if unlink_rc =? -1 then (-1, [unmap; call_unlink nm])
               else (0, [unmap; call_unlink nm;
                         call_free_file_name; call_free_region_data]))
  /\ (forall munmap_rc,
        df_shm_method_mmap_detach_region rd munmap_rc
        = if munmap_rc =? -1 then (-1, [unmap])
          else (0, [unmap; call_free_file_name; call_free_region_data])).
Proof.
  intros Hinit Hcreate nm unmap.
  cbn in Hinit. inversion Hinit; subst m. clear Hinit.
  unfold df_shm_method_mmap_create_region, size_and_map in Hcreate.
  cbn [negb base_path] in Hcreate.
  subst nm.
  destruct (mkstemp (chars ("/tmp/df_shm_mmap." +:+ pretty pid +:+ ".XXXXXX")))
    as [fd file_name0].
  destruct (fd =? -1); [discriminate |].
  destruct (ftruncate_rc =? -1); [discriminate |].
  destruct (mmap_addr =? NULL); [discriminate |].
  destruct (close_rc =? -1); [discriminate |].
  inversion Hcreate; subst. cbn [snd].
  split; [reflexivity |]. split; [reflexivity |].
  split; intros; reflexivity.
Qed.

Lemma mmap_releases_what_it_acquired_witness :
  exists m rd calls,
    df_shm_method_mmap_init true 42 = (0, Some m)
    /\ df_shm_method_mmap_create_region m true example_mkstemp 0 65536 0 4096 0
       = (0, Some rd, calls)
    /\ df_shm_method_mmap_destroy_region rd 0 0
       = (0, [call_munmap 65536 4096;
              call_unlink (chars "/tmp/df_shm_mmap.42.abcdef");
              call_free_file_name; call_free_region_data])
    /\ df_shm_method_mmap_detach_region rd 0
       = (0, [call_munmap 65536 4096;
              call_free_file_name; call_free_region_data]).
Proof.
  do 3 eexists. split; [reflexivity |]. split; [vm_compute; reflexivity |].
  destruct (mmap_releases_what_it_acquired 42 _ example_mkstemp 0 65536 0 4096 0
              _ _ _ eq_refl ltac:(vm_compute; reflexivity))
    as (_ & _ & Hdestroy & Hdetach).
  split; [apply (Hdestroy 0 0) | apply (Hdetach 0)].
Defined.

(** X21.  [df_shm_method_mmap_create_named_region] takes as file name the
    characters of [name] up to the first NUL, whatever [name_size] says;
    it opens that path with [O_RDWR | O_CREAT | O_TRUNC] and mode [0600],
    sizes and maps the file and closes the descriptor, and records the
    name and the size; an attach given the contact buffer of that region
    data records the same name and file length.  When [open] fails it
    returns [-1] and makes no other call. *)
Theorem mmap_named_create_uses_the_given_path
    bo junk m nm rest name_size fd ftruncate_rc mmap_addr close_rc sz hint :
  Forall (fun c => c <> 0) nm ->
  Z.of_nat (length nm) + 1 + sizeof_size_t <= INT_MAX ->
  0 <= sz <= SIZE_MAX ->
  let flags := Z.lor (Z.lor O_RDWR O_CREAT) O_TRUNC in
  let rd := {| file_name := nm; file_length := sz;
               attach_addr := mmap_addr; mapped_length := sz |} in
  (fd <> -1 -> ftruncate_rc <> -1 -> mmap_addr <> NULL -> close_rc <> -1 ->
   df_shm_method_mmap_create_named_region m (nm ++ 0 :: rest) name_size true
     fd ftruncate_rc mmap_addr close_rc sz hint
   = Returns (0, Some rd,
              [call_open nm flags DEFAULT_OPEN_MODE; call_ftruncate fd sz;
               call_mmap hint sz fd; call_close fd])
   /\ df_shm_method_mmap_region_contact bo junk rd true
      = Returns (Some (nm ++ [0] ++ store_size_t bo sz,
                       Z.of_nat (length nm) + 1 + sizeof_size_t))
   /\ forall fd' mmap_addr' close_rc' sz' hint',
        fd' <> -1 -> mmap_addr' <> NULL -> close_rc' <> -1 ->
        df_shm_method_mmap_attach_region bo (nm ++ [0] ++ store_size_t bo sz)
          true fd' mmap_addr' close_rc' sz' hint'
        = Returns (0, Some {| file_name := nm; file_length := sz;
                              attach_addr := mmap_addr';
                              mapped_length := sz' |}))
  /\ df_shm_method_mmap_create_named_region m (nm ++ 0 :: rest) name_size true
       (-1) ftruncate_rc mmap_addr close_rc sz hint
     = Returns (-1, None,
                [call_open nm flags DEFAULT_OPEN_MODE;
                 call_free_file_name; call_free_region_data]).
Proof.
  intros Hname Hlen Hsz flags rd.
  unfold df_shm_method_mmap_create_named_region. cbn [negb].
  rewrite strlen_terminated by assumption. rewrite take_app_length.
  split; [| reflexivity].
  intros Hfd Htr Hmap Hclose.
  split; [| split].
  - unfold size_and_map.
    apply Z.eqb_neq in Hfd, Htr, Hmap, Hclose.
    rewrite Hfd, Htr, Hmap, Hclose. reflexivity.
  - apply (contact_of_region bo junk rd). exact Hlen.
  - intros fd' mmap_addr' close_rc' sz' hint' Hfd' Hmap' Hclose'.
    apply attach_of_contact; assumption.
Qed.

Lemma mmap_named_create_uses_the_given_path_witness :
  df_shm_method_mmap_create_named_region
    {| base_path := []; my_pid := 42 |}
    (chars "/tmp/a" ++ 0 :: [1; 2; 3]) 99 true 3 0 65536 0 4096 0
  = Returns (0,
             Some {| file_name := chars "/tmp/a"; file_length := 4096;
                     attach_addr := 65536; mapped_length := 4096 |},
             [call_open (chars "/tmp/a") 578 384; call_ftruncate 3 4096;
              call_mmap 0 4096 3; call_close 3]).
Proof.
  destruct (mmap_named_create_uses_the_given_path LittleEndian (fun _ => 0)
              {| base_path := []; my_pid := 42 |} (chars "/tmp/a") [1; 2; 3] 99
              3 0 65536 0 4096 0)
    as (Hok & _).
  - vm_compute. repeat constructor; discriminate.
  - vm_compute. discriminate.
  - vm_compute. split; discriminate.
  - destruct Hok as (Hcreate & _); try discriminate. exact Hcreate.
Defined.

End MmapCallsFacts.

(** * Facts about the POSIX shm object names *)
Module PosixShmFacts.
Import PosixShm.

Lemma create_region_opens_object_name m fd ftruncate_rc mmap_addr close_rc sz hint :
  exists rc r calls,
    df_shm_method_posixshm_create_region m true fd ftruncate_rc mmap_addr
      close_rc sz hint
    = (rc, m, r, calls)
    /\ head calls
       = Some (call_shm_open (object_name m) (Z.lor O_CREAT O_RDWR)
                 DEFAULT_OPEN_MODE)
    /\ forall rd, r = Some rd -> rc = 0 /\ file_name rd = object_name m.
Proof.
  unfold df_shm_method_posixshm_create_region. cbn [negb].
  destruct (fd =? -1);
    [do 3 eexists; split; [reflexivity |]; split; [reflexivity | discriminate] |].
  destruct (ftruncate_rc =? -1);
    [do 3 eexists; split; [reflexivity |]; split; [reflexivity | discriminate] |].
  destruct (mmap_addr =? NULL);
    [do 3 eexists; split; [reflexivity |]; split; [reflexivity | discriminate] |].
  destruct (close_rc =? -1);
    [do 3 eexists; split; [reflexivity |]; split; [reflexivity | discriminate] |].
  do 3 eexists. split; [reflexivity |]. split; [reflexivity |].
  intros rd Hrd. inversion Hrd; subst. split; reflexivity.
Qed.

(** X20.  [df_shm_method_posixshm_create_region] does not change the
    method's counter, which [df_shm_method_posixshm_init] has set to 0:
    all the creates that a process makes after the init open the shm object
    of one and the same name, [/df_shm_posixshm.<pid>.0], and every region
    data that they return holds that name. *)
Theorem posixshm_creates_open_one_name pid m : forall envs,
  df_shm_method_posixshm_init true pid = (0, Some m) ->
  let name := MmapCalls.chars ("/df_shm_posixshm." +:+ pretty pid)
              ++ MmapCalls.chars "." ++ MmapCalls.chars "0" in
  fst (posixshm_creates m envs) = m
  /\ length (snd (posixshm_creates m envs)) = length envs
  /\ Forall (fun '(rc, r, calls) =>
               head calls
               = Some (call_shm_open name (Z.lor O_CREAT O_RDWR)
                         DEFAULT_OPEN_MODE)
               /\ forall rd, r = Some rd -> rc = 0 /\ file_name rd = name)
            (snd (posixshm_creates m envs)).
Proof.
  intros envs Hinit name.
  assert (Hname : object_name m = name).
  { cbn in Hinit. inversion Hinit; subst m. reflexivity. }
  clear Hinit. rewrite <- Hname. clear Hname name.
  induction envs as [| [[[[[fd ftruncate_rc] mmap_addr] close_rc] sz] hint] envs IH].
  - cbn. repeat split. constructor.
  - cbn [posixshm_creates].
    destruct (create_region_opens_object_name m fd ftruncate_rc mmap_addr
                close_rc sz hint)
      as (rc & r & calls & -> & Hhead & Hrd).
    destruct (posixshm_creates m envs) as [m2 rs]. cbn [fst snd] in *.
    destruct IH as (Hm & Hlen & Hall).
    split; [exact Hm |]. split; [cbn; lia |].
    constructor; [| exact Hall].
    split; [exact Hhead | exact Hrd].
Qed.

Lemma posixshm_creates_open_one_name_witness :
  exists m m' rd1 rd2 calls1 calls2,
    df_shm_method_posixshm_init true 42 = (0, Some m)
    /\ posixshm_creates m [(3, 0, 65536, 0, 4096, 0); (4, 0, 131072, 0, 8192, 0)]
       = (m', [(0, Some rd1, calls1); (0, Some rd2, calls2)])
    /\ file_name rd1 = MmapCalls.chars "/df_shm_posixshm.42.0"
    /\ file_name rd2 = MmapCalls.chars "/df_shm_posixshm.42.0"
    /\ counter m' = 0.
Proof.
  do 6 eexists. split; [reflexivity |]. split; [vm_compute; reflexivity |].
  destruct (posixshm_creates_open_one_name 42 _
              [(3, 0, 65536, 0, 4096, 0); (4, 0, 131072, 0, 8192, 0)] eq_refl)
    as (_ & _ & Hall).
  repeat split.
Defined.

End PosixShmFacts.

(** * Facts about the SysV token counter *)
Module SysVFacts.
Import SysV.

(** What [df_shm_method_sysv_init] stores: the anchor path and the pid, and
    no token counter: the counter keeps what the allocated block held. *)
Lemma sysv_init_stores block pid fd m :
  df_shm_method_sysv_init block true pid fd = (0, Some m) ->
  path m = "/tmp/df_shm_sysv." +:+ pretty pid
  /\ my_pid m = pid
  /\ default_flag m = DEFAULT_SYSV_SHM_FLAG
  /\ token_id m = token_id block.
Proof.
  unfold df_shm_method_sysv_init. cbn [negb].
  destruct (negb (fd =? -1)); intros H; inversion H; subst. cbn. auto.
Qed.

(** A create that gets a key from [ftok] has used the counter's value and
    leaves the counter one higher; a create on which [ftok] fails leaves
    the counter as it was. *)
Lemma sysv_create_uses_and_increments ftok m shmget_id shmat_addr sz hint :
  token_id m < INT_MAX ->
  (ftok (path m) (token_id m) <> -1 ->
   exists rc m' r,
     df_shm_method_sysv_create_region ftok m true shmget_id shmat_addr sz hint
     = Some (rc, m', r)
     /\ token_id m' = token_id m + 1
     /\ path m' = path m
     /\ forall rd, r = Some rd -> key rd = ftok (path m) (token_id m))
  /\ (ftok (path m) (token_id m) = -1 ->
      df_shm_method_sysv_create_region ftok m true shmget_id shmat_addr sz hint
      = Some (-1, m, None)).
Proof.
  intros Hmax. unfold df_shm_method_sysv_create_region. cbn [negb].
  split.
  - intros Hk. apply Z.eqb_neq in Hk. rewrite Hk.
    replace (INT_MAX <=? token_id m) with false by (symmetry; apply Z.leb_gt; lia).
    destruct (shmget_id =? -1); [| destruct (shmat_addr =? -1)];
      do 3 eexists; (split; [reflexivity |]); cbn; repeat split;
      intros rd Hrd; inversion Hrd; reflexivity.
  - intros Hk. rewrite Hk. reflexivity.
Qed.

(** C8, at a failing input.  [malloc] returns a block whose [token_id] field
    holds 77 (in a second run, 0).  After [df_shm_method_sysv_init] the
    counter is 77: init has set the anchor path and left the counter
    alone.  The first create then calls [ftok] with token 77 and moves the
    counter to 78.  The value 1 of init's local variable is not used. *)
Theorem sysv_counter_starts_from_leftover_memory :
  (exists m m' r,
     df_shm_method_sysv_init block_77 true 4242 3 = (0, Some m)
     /\ path m = "/tmp/df_shm_sysv.4242"
     /\ token_id m = 77
     /\ df_shm_method_sysv_create_region echo_ftok m true 5 65536 4096 0
        = Some (0, m', Some r)
     /\ key r = 77 /\ token_id m' = 78)
  /\ (exists m m' r,
        df_shm_method_sysv_init block_0 true 4242 3 = (0, Some m)
        /\ token_id m = 0
        /\ df_shm_method_sysv_create_region echo_ftok m true 5 65536 4096 0
           = Some (0, m', Some r)
        /\ key r = 0 /\ token_id m' = 1).
Proof.
  split; do 3 eexists; repeat split; reflexivity.
Qed.

End SysVFacts.

(** * Facts about the other SysV callbacks *)
Module SysVCallsFacts.
Import SysV SysVCalls.

(** X15.  Successive calls of [df_shm_method_sysv_create_region] whose
    [ftok] calls succeed pass the tokens [t], [t+1], [t+2], ... to [ftok],
    [t] being the counter before the first call; a call consumes its token
    also when [shmget] or [shmat] then fails; the region data of the call
    number [i] that succeeds holds the key [ftok(path, t+i)], the id that
    [shmget] returned and the address that [shmat] returned; the anchor
    path stays the same. *)
Theorem sysv_creates_use_consecutive_tokens ftok : forall envs m,
  (forall i, (i < length envs)%nat ->
             ftok (path m) (token_id m + Z.of_nat i) <> -1) ->
  token_id m + Z.of_nat (length envs) <= INT_MAX ->
  exists m' rs,
    sysv_creates ftok m envs = Some (m', rs)
    /\ token_id m' = token_id m + Z.of_nat (length envs)
    /\ path m' = path m
    /\ length rs = length envs
    /\ forall i shmget_id shmat_addr sz hint,
         envs !! i = Some (shmget_id, shmat_addr, sz, hint) ->
         rs !! i
         = Some (if (shmget_id =? -1) || (shmat_addr =? -1) then (-1, None)
                 else (0, Some {| key := ftok (path m)
                                           (token_id m + Z.of_nat i);
                                  id := shmget_id;
                                  attach_addr := shmat_addr |})).
Proof.
  induction envs as [| [[[shmget_id shmat_addr] sz] hint] envs IH];
    intros m Hftok Hmax.
  - exists m, []. cbn. split; [reflexivity |]. split; [lia |].
    split; [reflexivity |]. split; [reflexivity |].
    intros i ? ? ? ? Hi. rewrite lookup_nil in Hi. discriminate.
  - cbn [length] in Hmax.
    pose proof (Hftok 0%nat ltac:(cbn; lia)) as Hk. rewrite Z.add_0_r in Hk.
    set (m1 := {| default_flag := default_flag m; path := path m;
                  token_id := token_id m + 1; my_pid := my_pid m |}).
    assert (Hcreate :
              df_shm_method_sysv_create_region ftok m true shmget_id shmat_addr
                sz hint
              = Some (if (shmget_id =? -1) || (shmat_addr =? -1)
                      then (-1, m1, None)
                      else (0, m1,
                            Some {| key := ftok (path m) (token_id m);
                                    id := shmget_id;
                                    attach_addr := shmat_addr |}))).
    { unfold df_shm_method_sysv_create_region. cbn [negb].
      apply Z.eqb_neq in Hk. rewrite Hk.
      replace (INT_MAX <=? token_id m) with false
        by (symmetry; apply Z.leb_gt; lia).
      fold m1.
      destruct (shmget_id =? -1); [reflexivity |].
      destruct (shmat_addr =? -1); reflexivity. }
    destruct (IH m1) as (m' & rs & Hrun & Htok & Hpath & Hlen & Hrs).
    { intros i Hi. cbn [path token_id m1].
      replace (token_id m + 1 + Z.of_nat i) with (token_id m + Z.of_nat (S i))
        by lia.
      apply Hftok. cbn. lia. }
    { cbn [token_id m1]. lia. }
    cbn [path token_id m1] in Htok, Hpath, Hrs.
    exists m'.
    exists ((if (shmget_id =? -1) || (shmat_addr =? -1) then (-1, None)
             else (0, Some {| key := ftok (path m) (token_id m);
                              id := shmget_id;
                              attach_addr := shmat_addr |})) :: rs).
    split.
    { cbn [sysv_creates]. rewrite Hcreate.
      destruct ((shmget_id =? -1) || (shmat_addr =? -1));
        cbn [mbind option_bind]; rewrite Hrun; reflexivity. }
    split; [cbn [length]; lia |]. split; [exact Hpath |]. split; [cbn; lia |].
    intros [| i] a b c d Hi.
    + cbn in Hi. inversion Hi; subst. cbn. rewrite Z.add_0_r. reflexivity.
    + cbn in Hi. change ((?x :: rs) !! S i) with (rs !! i).
      rewrite (Hrs i a b c d Hi).
      replace (token_id m + 1 + Z.of_nat i) with (token_id m + Z.of_nat (S i))
        by lia.
      reflexivity.
Qed.

Lemma sysv_creates_use_consecutive_tokens_witness :
  exists m' r0 r2,
    sysv_creates echo_ftok block_77 [(5, 65536, 4096, 0); (-1, 0, 4096, 0);
                                     (6, 131072, 4096, 0)]
    = Some (m', [(0, Some r0); (-1, None); (0, Some r2)])
    /\ token_id m' = 80 /\ key r0 = 77 /\ key r2 = 79.
Proof.
  destruct (sysv_creates_use_consecutive_tokens echo_ftok
              [(5, 65536, 4096, 0); (-1, 0, 4096, 0); (6, 131072, 4096, 0)]
              block_77)
    as (m' & rs & Hrun & Htok & _ & _ & Hrs).
  - intros i Hi. cbn in Hi. unfold echo_ftok. cbn [token_id block_77].
    destruct (77 + Z.of_nat i <? 0) eqn:E; [apply Z.ltb_lt in E; lia |].
    lia.
  - vm_compute. discriminate.
  - exists m'. rewrite Hrun. vm_compute in Hrun. inversion Hrun; subst.
    do 2 eexists. split; [reflexivity |]. repeat split.
Defined.

Lemma length_store_int bo x : length (store_int bo x) = Z.to_nat sizeof_key_t.
Proof.
  destruct bo; cbn [store_int]; rewrite ?length_rev;
    apply MmapFacts.length_to_bytes.
Qed.

Lemma load_store_int bo x :
  - 2 ^ 31 <= x <= INT_MAX -> load_int bo (store_int bo x) = x.
Proof.
  intros Hx.
  assert (H : int (Mmap.of_bytes (Mmap.to_bytes (Z.to_nat sizeof_key_t)
                                    (uint32_t x))) = x).
  { rewrite MmapFacts.of_to_bytes.
    change (256 ^ Z.of_nat (Z.to_nat sizeof_key_t)) with (2 ^ 32).
    unfold uint32_t. rewrite Z.mod_mod by lia.
    unfold int. rewrite Zplus_mod_idemp_l.
    unfold INT_MAX in Hx. rewrite Z.mod_small by lia. lia. }
  destruct bo; cbn [store_int load_int]; rewrite ?rev_involutive; exact H.
Qed.

Lemma read_key_store_int bo x rest :
  - 2 ^ 31 <= x <= INT_MAX -> read_key bo (store_int bo x ++ rest) = Some x.
Proof.
  intros Hx. unfold read_key.
  rewrite <- (length_store_int bo x), take_app_length.
  rewrite length_store_int.
  change (Z.of_nat (Z.to_nat sizeof_key_t) =? sizeof_key_t) with true.
  cbn match. rewrite load_store_int by assumption. reflexivity.
Qed.

(** X16.  For a region whose key is an [int],
    [df_shm_method_sysv_region_contact] returns the key in the machine's
    representation of an [int], with length [sizeof(key_t)];
    [df_shm_method_sysv_attach_region], given that buffer, asks [shmget]
    for the same key with the method's default flags and attaches the
    segment that [shmget] returns with [SHM_RND]; the region data it
    returns holds that key, that id and the address that [shmat]
    returned.  When [shmget] fails it returns [-1] without calling [shmat].
    [df_shm_method_sysv_create_named_region] does the same with the key
    behind [name] and the flags [IPC_CREAT | O_EXCL | default_flag]. *)
Theorem sysv_contact_round_trip bo m rd :
  - 2 ^ 31 <= key rd <= INT_MAX ->
  df_shm_method_sysv_region_contact bo rd true
  = Some (store_int bo (key rd), sizeof_key_t)
  /\ Z.of_nat (length (store_int bo (key rd))) = sizeof_key_t
  /\ forall shmget_id shmat_addr sz hint name_size,
       (shmget_id <> -1 -> shmat_addr <> -1 ->
        df_shm_method_sysv_attach_region bo m (store_int bo (key rd)) true
          shmget_id shmat_addr sz hint
        = Returns (0,
                   Some {| key := key rd; id := shmget_id;
                           attach_addr := shmat_addr |},
                   [call_shmget (key rd) sz (default_flag m);
                    call_shmat shmget_id hint SHM_RND])
        /\ df_shm_method_sysv_create_named_region bo m (store_int bo (key rd))
             name_size true shmget_id shmat_addr sz hint
           = Returns (0,
                      Some {| key := key rd; id := shmget_id;
                              attach_addr := shmat_addr |},
                      [call_shmget (key rd) sz
                         (Z.lor (Z.lor IPC_CREAT O_EXCL) (default_flag m));
                       call_shmat shmget_id hint SHM_RND]))
       /\ df_shm_method_sysv_attach_region bo m (store_int bo (key rd)) true
            (-1) shmat_addr sz hint
          = Returns (-1, None,
                     [call_shmget (key rd) sz (default_flag m);
                      call_free_region_data]).
Proof.
  intros Hkey.
  split; [reflexivity |].
  split; [rewrite length_store_int; reflexivity |].
  intros shmget_id shmat_addr sz hint name_size.
  pose proof (read_key_store_int bo (key rd) [] Hkey) as Hread.
  rewrite app_nil_r in Hread.
  unfold df_shm_method_sysv_attach_region,
    df_shm_method_sysv_create_named_region.
  cbn [negb]. rewrite Hread. unfold get_and_attach.
  split; [| reflexivity].
  intros Hget Hat. apply Z.eqb_neq in Hget, Hat. rewrite Hget, Hat.
  split; reflexivity.
Qed.

Lemma sysv_contact_round_trip_witness :
  df_shm_method_sysv_region_contact Mmap.LittleEndian example_segment true
  = Some ([1; 1; 2; 1], 4)
  /\ df_shm_method_sysv_attach_region Mmap.LittleEndian block_77 [1; 1; 2; 1]
       true 5 131072 4096 0
     = Returns (0, Some {| key := 16908545; id := 5; attach_addr := 131072 |},
                [call_shmget 16908545 4096 0; call_shmat 5 0 8192]).
Proof.
  destruct (sysv_contact_round_trip Mmap.LittleEndian block_77 example_segment)
    as (Hcontact & _ & Hattach).
  - vm_compute. split; discriminate.
  - split; [exact Hcontact |].
    destruct (Hattach 5 131072 4096 0 0) as (Hok & _).
    apply Hok; discriminate.
Defined.

(** X17.  What the SysV backend releases is what it acquired.
    [df_shm_method_sysv_destroy_region], on the region data of a create
    that succeeded, detaches the address that [shmat] returned, then marks
    for removal the segment id that [shmget] returned, then frees the region
    data; when the detach fails it returns [-1] and neither removes the
    segment nor frees the region data.  [df_shm_method_sysv_detach_region]
    detaches and frees, and never removes the segment.
    [df_shm_method_sysv_finalize] unlinks the anchor path that
    [df_shm_method_sysv_init] opened, and frees the method data unless the
    unlink fails. *)
Theorem sysv_releases_what_it_acquired ftok m shmget_id shmat_addr sz hint
    rc m' rd :
  df_shm_method_sysv_create_region ftok m true shmget_id shmat_addr sz hint
  = Some (rc, m', Some rd) ->
  rc = 0
  /\ (forall shmdt_rc shmctl_rc,
        df_shm_method_sysv_destroy_region rd shmdt_rc shmctl_rc
        = if shmdt_rc =? -1 then (-1, [call_shmdt shmat_addr])
          else if shmctl_rc =? -1
               then (-1, [call_shmdt shmat_addr; call_shmctl_rmid shmget_id])
               else (0, [call_shmdt shmat_addr; call_shmctl_rmid shmget_id;
                         call_free_region_data]))
  /\ (forall shmdt_rc,
        df_shm_method_sysv_detach_region rd shmdt_rc
        = if shmdt_rc =? -1 then (-1, [call_shmdt shmat_addr])
          else (0, [call_shmdt shmat_addr; call_free_region_data]))
  /\ (forall block pid fd md unlink_rc,
        df_shm_method_sysv_init block true pid fd = (0, Some md) ->
        df_shm_method_sysv_finalize md unlink_rc
        = if unlink_rc =? -1
          then (-1, [call_unlink ("/tmp/df_shm_sysv." +:+ pretty pid)])
          else (0, [call_unlink ("/tmp/df_shm_sysv." +:+ pretty pid);
                    call_free_method_data])).
Proof.
  intros Hcreate.
  assert (Hrd : rc = 0 /\ id rd = shmget_id /\ attach_addr rd = shmat_addr).
  { unfold df_shm_method_sysv_create_region in Hcreate. cbn [negb] in Hcreate.
    destruct (ftok (path m) (token_id m) =? -1); [discriminate |].
    destruct (INT_MAX <=? token_id m); [discriminate |].
    destruct (shmget_id =? -1); [discriminate |].
    destruct (shmat_addr =? -1); [discriminate |].
    inversion Hcreate; subst. repeat split. }
  destruct Hrd as (Hrc & Hid & Haddr).
  split; [exact Hrc |].
  split.
  { intros shmdt_rc shmctl_rc. unfold df_shm_method_sysv_destroy_region.
    rewrite Hid, Haddr. reflexivity. }
  split.
  { intros shmdt_rc. unfold df_shm_method_sysv_detach_region.
    rewrite Haddr. reflexivity. }
  intros block pid fd md unlink_rc Hinit.
  destruct (SysVFacts.sysv_init_stores block pid fd md Hinit) as (Hpath & _).
  unfold df_shm_method_sysv_finalize. rewrite Hpath. reflexivity.
Qed.

Lemma sysv_releases_what_it_acquired_witness :
  exists m' rd,
    df_shm_method_sysv_create_region echo_ftok block_77 true 5 65536 4096 0
    = Some (0, m', Some rd)
    /\ df_shm_method_sysv_destroy_region rd 0 0
       = (0, [call_shmdt 65536; call_shmctl_rmid 5; call_free_region_data])
    /\ df_shm_method_sysv_detach_region rd 0
       = (0, [call_shmdt 65536; call_free_region_data]).
Proof.
  do 2 eexists. split; [reflexivity |].
  destruct (sysv_releases_what_it_acquired echo_ftok block_77 5 65536 4096 0
              0 _ _ eq_refl) as (_ & Hdestroy & Hdetach & _).
  split; [apply (Hdestroy 0 0) | apply (Hdetach 0)].
Defined.

End SysVCallsFacts.

(** * Facts about the layout *)
Module PlacementFacts.
Import Placement.

Lemma sizeof_df_queue_by_layout :
  sizeof_df_queue = Layout.sizeof (Layout.df_queue_members sizeof_size_t)
  /\ offsetof_df_queue_slots
     = List.last (Layout.offsets 0 (Layout.df_queue_members sizeof_size_t)) 0
  /\ sizeof_df_queue_slot
     = Layout.sizeof (Layout.df_queue_slot_members sizeof_size_t)
  /\ Layout.df_queue_members sizeof_size_t = df_queue_members_with 2 sizeof_size_t.
Proof. repeat split; reflexivity. Qed.

(** Subtracting all three [size_t] fields would make the header one
    cacheline, with 4-byte and with 8-byte [size_t]. *)
Lemma header_with_three_size_t_is_one_cacheline :
  Layout.sizeof (df_queue_members_with 3 8) = CACHE_LINE_SIZE
  /\ Layout.sizeof (df_queue_members_with 3 4) = CACHE_LINE_SIZE.
Proof. split; reflexivity. Qed.

(** C2, at a failing input.  The padding array of [struct _df_queue]
    subtracts two [size_t] fields and the struct has three, so the header
    is 72 bytes (68 with a 4-byte [size_t]) and not a multiple of 64: the
    first slot of a queue at a cacheline-aligned address starts 8 bytes
    into a cacheline.  The slots of the two-slot queue created at 4096 are
    at 4168 and 4232. *)
Theorem header_is_not_padded_to_cacheline :
  sizeof_df_queue = 72
  /\ offsetof_df_queue_slots = 72
  /\ sizeof_df_queue mod CACHE_LINE_SIZE = 8
  /\ Layout.sizeof (Layout.df_queue_members 4) = 68
  /\ (forall k, (CACHE_LINE_SIZE * k + offsetof_df_queue_slots) mod CACHE_LINE_SIZE = 8)
  /\ Queue.df_create_queue Queue.zero_memory 4096 2 16 = Returns Queue.pair_queue
  /\ 4096 mod CACHE_LINE_SIZE = 0
  /\ Queue.df_get_queue_sender_ep true true 4096 Queue.pair_queue
     = Returns (Some Queue.pair_sender, Queue.pair_queue)
  /\ Queue.ep_slots Queue.pair_sender = [4168; 4232]
  /\ Forall (fun a => a mod CACHE_LINE_SIZE = 8) (Queue.ep_slots Queue.pair_sender)
  /\ ~ header_fills_cachelines.
Proof.
  repeat split; try reflexivity.
  - intros k. rewrite Z.add_comm, Z.mul_comm, Z_mod_plus_full. reflexivity.
  - repeat constructor.
  - unfold header_fills_cachelines. vm_compute. discriminate.
Qed.

End PlacementFacts.
